(** * Path.ts and host.ts of teaxyz-lib: a shallow embedding

    The development follows [src/utils/Path.ts] (the [Path] class) and
    [src/utils/host.ts].  JavaScript strings are modelled as [string]
    (sequences of 8-bit characters; only the separator ['/'] and the dot
    are ever inspected by the code), exceptions as the [Throw] branch of
    [result], and the file system reached through [node:fs] as an explicit
    state.  The platform functions of [node:path] and [node:fs] are not
    part of the repository; their POSIX behaviour is modelled in the
    modules [NodePath] and [NodeFs]. *)

From Stdlib Require Import String Ascii List Bool Arith Lia.
From stdpp Require Import gmap strings list fin_maps.

Import ListNotations.

(** ** Exceptions and results *)

Inductive errno :=
  | ENOENT | EINVAL | EEXIST | ENOTDIR | EISDIR | ENOTEMPTY | ELOOP | EBUSY.

Inductive exn :=
  | InvalidPath (input : string)   (* Error(`invalid absolute path: ${input}`) *)
  | SystemError (code : errno)     (* raised by a node:fs call, carries [err.code] *)
  | UnsupportedArch (arch : string). (* Error(`unsupported-arch: ${process.arch}`) *)

Inductive result (A : Type) :=
  | Ok (a : A)
  | Throw (e : exn).
Arguments Ok {A} a.
Arguments Throw {A} e.

Definition bind {A B} (r : result A) (k : A -> result B) : result B :=
  match r with
  | Ok a => k a
  | Throw e => Throw e
  end.

Notation "'let!' x ':=' r 'in' k" := (bind r (fun x => k))
  (at level 10, x name, r at level 100, k at level 200).

Global Instance errno_eq_dec : EqDecision errno.
Proof. solve_decision. Defined.

(** ** JavaScript string primitives used by the code *)

Module JS.

Definition sep : ascii := "/"%char.

(** [x => x] on a string: the empty string is the only falsy one. *)
Definition truthy (s : string) : bool := negb (String.eqb s "").

(** [s.split("/")] *)
Fixpoint split (s : string) : list string :=
  match s with
  | EmptyString => [EmptyString]
  | String c s' =>
      if Ascii.eqb c sep then EmptyString :: split s'
      else match split s' with
           | [] => [String c EmptyString]
           | h :: t => String c h :: t
           end
  end.

(** [l.join("/")] *)
Fixpoint join (l : list string) : string :=
  match l with
  | [] => ""
  | x :: l' =>
      match l' with
      | [] => x
      | _ :: _ => x +:+ "/" +:+ join l'
      end
  end.

(** [s[0] == '/'] ([s[0]] is [undefined] on the empty string). *)
Definition starts_with_sep (s : string) : bool :=
  match s with
  | String c _ => Ascii.eqb c sep
  | EmptyString => false
  end.

(** [s.charCodeAt(s.length - 1) === '/'] *)
Fixpoint ends_with_sep (s : string) : bool :=
  match s with
  | EmptyString => false
  | String c EmptyString => Ascii.eqb c sep
  | String _ s' => ends_with_sep s'
  end.

(** [s.startsWith(p)] *)
Definition startsWith (s p : string) : bool := String.prefix p s.

(** [a.slice(n)] on an array *)
Definition slice {A} (n : nat) (a : list A) : list A := drop n a.

(** [a[0]], [undefined] being [None] *)
Definition first {A} (a : list A) : option A := head a.

(** [a.shift()], which leaves an empty array empty *)
Definition shift {A} (a : list A) : list A := tail a.

(** [x == y] on two values that are strings or [undefined] *)
Definition loose_eq (x y : option string) : bool :=
  match x, y with
  | Some a, Some b => String.eqb a b
  | None, None => true
  | _, _ => false
  end.

End JS.

(** ** node:path on a POSIX platform *)

Module NodePath.

(** One separator-delimited segment of [normalizeString]: empty segments
    and ["."] are skipped, [".."] removes the last kept segment (and is
    kept itself only when the path is relative and nothing is left to
    remove), any other segment is appended. *)
Definition normalize_step (allowAboveRoot : bool)
    (res : list string) (seg : string) : list string :=
  if String.eqb seg "" then res
  else if String.eqb seg "." then res
  else if String.eqb seg ".." then
    match last res with
    | Some l =>
        if String.eqb l ".."
        then (if allowAboveRoot then res ++ [".."] else res)
        else removelast res
    | None => if allowAboveRoot then [".."] else []
    end
  else res ++ [seg].

(** [normalizeString] of node's [lib/path.js], told segment by segment
    and not character by character. *)
Definition normalizeString (path : string) (allowAboveRoot : bool) : string :=
  JS.join (fold_left (normalize_step allowAboveRoot) (JS.split path) []).

(** [path.normalize]: ["."] and [".."] segments are resolved, a run of
    separators counts as one and, as the documentation of [node:path]
    says, a trailing separator is preserved. *)
Definition normalize (path : string) : string :=
  if String.eqb path "" then "."
  else
    let isAbsolute := JS.starts_with_sep path in
    let trailingSeparator := JS.ends_with_sep path in
    let p := normalizeString path (negb isAbsolute) in
    if String.eqb p "" then
      if isAbsolute then "/" else if trailingSeparator then "./" else "."
    else
      let p := if trailingSeparator then p +:+ "/" else p in
      if isAbsolute then "/" +:+ p else p.

(** The backwards scan of [path.dirname] over the characters at indices
    [length-1 .. 1], given last character first.  [Some r] is the scan
    stopping at a separator that follows a non-separator, [r] being the
    characters at indices [1 .. end-1] (still reversed); [None] is
    [end === -1]. *)
Fixpoint dirname_scan (r : list ascii) (matchedSlash : bool)
    : option (list ascii) :=
  match r with
  | [] => None
  | c :: r' =>
      if Ascii.eqb c JS.sep then
        if matchedSlash then dirname_scan r' true else Some r'
      else dirname_scan r' false
  end.

(** [path.dirname] *)
Definition dirname (path : string) : string :=
  match path with
  | EmptyString => "."
  | String c0 rest =>
      let hasRoot := Ascii.eqb c0 JS.sep in
      match dirname_scan (rev (list_ascii_of_string rest)) true with
      | None => if hasRoot then "/" else "."
      | Some r' =>
          if hasRoot && Nat.eqb (length r') 0 then "//"
          else String c0 (string_of_list_ascii (rev r'))
      end
  end.

(** The backwards scan of [path.basename]: trailing separators are
    skipped, then characters are taken up to the next separator. *)
Fixpoint basename_skip (r : list ascii) : list ascii :=
  match r with
  | [] => []
  | c :: r' => if Ascii.eqb c JS.sep then basename_skip r' else r
  end.

Fixpoint basename_take (r : list ascii) : list ascii :=
  match r with
  | [] => []
  | c :: r' => if Ascii.eqb c JS.sep then [] else c :: basename_take r'
  end.

(** [path.basename] *)
Definition basename (path : string) : string :=
  string_of_list_ascii
    (rev (basename_take (basename_skip (rev (list_ascii_of_string path))))).

End NodePath.

(** ** node:fs on a POSIX platform

    The file system is a finite map from physical locations (the list of
    names leading from the root) to entries; the root directory is the
    empty list and always exists.  Path-name resolution follows symbolic
    links in every component but, when asked, the last one; a resolution
    gives up with [ELOOP] after [SYMLOOP_MAX] links.  A separator at the
    end of a path name, or of the target of a link, asks for a
    directory: the name before it is resolved like one in the middle. *)

Module NodeFs.

Inductive node :=
  | File (content : string)
  | Dir
  | Symlink (target : string).

Global Instance node_eq_dec : EqDecision node.
Proof. solve_decision. Defined.

(** The state a process sees: the entries and its working directory. *)
Record fs := mkFs {
  files : gmap (list string) node;
  cwd : list string
}.

Inductive ftype := RegularFile | Directory | SymbolicLink.

Definition ftype_of (n : node) : ftype :=
  match n with
  | File _ => RegularFile
  | Dir => Directory
  | Symlink _ => SymbolicLink
  end.

(** [fs.Stats], reduced to what the code asks of it. *)
Record Stats := mkStats { st_type : ftype }.

Definition stats_isDirectory (st : Stats) : bool :=
  match st_type st with Directory => true | _ => false end.

Definition stats_isFile (st : Stats) : bool :=
  match st_type st with RegularFile => true | _ => false end.

Definition stats_isSymbolicLink (st : Stats) : bool :=
  match st_type st with SymbolicLink => true | _ => false end.

(** [fs.Dirent] *)
Record Dirent := mkDirent { name : string; d_type : ftype }.

Definition dirent_isDirectory (d : Dirent) : bool :=
  match d_type d with Directory => true | _ => false end.

Definition SYMLOOP_MAX : nat := 40.

Definition is_nil {A} (l : list A) : bool :=
  match l with [] => true | _ => false end.

(** The names of a path name: empty names (doubled or trailing
    separators) do not count. *)
Definition path_comps (s : string) : list string :=
  filter (fun x => Is_true (JS.truthy x)) (JS.split s).

(** The components that the resolution of a path name walks: its
    names, and ["."] after them when the path name ends with a
    separator, for then the last name has to lead to a directory. *)
Definition resolve_comps (s : string) : list string :=
  path_comps s ++ (if JS.ends_with_sep s then ["."] else []).

(** The entry at a physical location. *)
Definition node_at (m : gmap (list string) node) (q : list string) : option node :=
  match q with
  | [] => Some Dir
  | _ => m !! q
  end.

Section Resolution.

Variable m : gmap (list string) node.

(** What to do at a symbolic link met in directory [dir], with target
    [t] and the names [rest] still to be resolved. *)
Variable follow_link :
  list string -> string -> list string -> result (list string * option node).

(** Resolution of the names [todo] from the directory [cur].  The result
    is the physical location of the last name and the entry there, [None]
    when only that last name is missing. *)
Fixpoint walk_comps (follow_last : bool) (cur todo : list string)
    : result (list string * option node) :=
  match todo with
  | [] => Ok (cur, node_at m cur)
  | c :: rest =>
      if String.eqb c "." then walk_comps follow_last cur rest
      else if String.eqb c ".." then walk_comps follow_last (removelast cur) rest
      else
        let here := cur ++ [c] in
        match m !! here with
        | None =>
            if is_nil rest then Ok (here, None) else Throw (SystemError ENOENT)
        | Some Dir => walk_comps follow_last here rest
        | Some (File x) =>
            if is_nil rest then Ok (here, Some (File x))
            else Throw (SystemError ENOTDIR)
        | Some (Symlink t) =>
            if is_nil rest && negb follow_last then Ok (here, Some (Symlink t))
            else follow_link cur t rest
        end
  end.

End Resolution.

Fixpoint namei_from (hops : nat) (m : gmap (list string) node)
    (follow_last : bool) (cur todo : list string)
    : result (list string * option node) :=
  walk_comps m
    (fun dir t rest =>
       match hops with
       | O => Throw (SystemError ELOOP)
       | S hops' =>
           namei_from hops' m follow_last
             (if JS.starts_with_sep t then [] else dir)
             (resolve_comps t ++ rest)
       end)
    follow_last cur todo.

(** Resolution of a path name; the empty path name names nothing.  A
    path name that ends with a separator is resolved through its last
    name: a link there is followed whatever [follow_last] says, and
    what is reached has to be a directory. *)
Definition namei (w : fs) (follow_last : bool) (path : string)
    : result (list string * option node) :=
  if String.eqb path "" then Throw (SystemError ENOENT)
  else
    let! r := namei_from SYMLOOP_MAX (files w) follow_last
                (if JS.starts_with_sep path then [] else cwd w)
                (resolve_comps path) in
    if JS.ends_with_sep path then
      match r.2 with
      | Some Dir => Ok r
      | Some _ => Throw (SystemError ENOTDIR)
      | None => Throw (SystemError ENOENT)
      end
    else Ok r.

(** Resolution of the names of a path name, a trailing separator set
    aside: what the calls that create, link or rename an entry look up,
    before they decide what the separator means for them. *)
Definition namei_names (w : fs) (follow_last : bool) (path : string)
    : result (list string * option node) :=
  if String.eqb path "" then Throw (SystemError ENOENT)
  else
    namei_from SYMLOOP_MAX (files w) follow_last
      (if JS.starts_with_sep path then [] else cwd w) (path_comps path).

(** [fs.statSync] *)
Definition statSync (w : fs) (path : string) : result Stats :=
  let! r := namei w true path in
  match r.2 with
  | Some n => Ok (mkStats (ftype_of n))
  | None => Throw (SystemError ENOENT)
  end.

(** [fs.lstatSync] *)
Definition lstatSync (w : fs) (path : string) : result Stats :=
  let! r := namei w false path in
  match r.2 with
  | Some n => Ok (mkStats (ftype_of n))
  | None => Throw (SystemError ENOENT)
  end.

(** [fs.readlinkSync] *)
Definition readlinkSync (w : fs) (path : string) : result string :=
  let! r := namei w false path in
  match r.2 with
  | Some (Symlink t) => Ok t
  | Some _ => Throw (SystemError EINVAL)
  | None => Throw (SystemError ENOENT)
  end.

Definition set_files (w : fs) (m : gmap (list string) node) : fs :=
  mkFs m (cwd w).

(** The entries that are not at or below the location [q]. *)
Definition remove_tree (q : list string) (m : gmap (list string) node)
    : gmap (list string) node :=
  filter (fun kv => ¬ q `prefix_of` kv.1) m.

(** [fs.unlinkSync] *)
Definition unlinkSync (w : fs) (path : string) : result fs :=
  let! r := namei w false path in
  match r.2 with
  | None => Throw (SystemError ENOENT)
  | Some Dir => Throw (SystemError EISDIR)
  | Some _ => Ok (set_files w (delete r.1 (files w)))
  end.

(** [fs.rmSync(path, {recursive})]: the entry is examined with [lstat];
    a directory is refused unless [recursive], and then removed with
    everything below it.  Where the path name is a link to a directory
    followed by a separator, [lstat] sees the directory and [rmdir]
    refuses the link.  The state comes back also when the call throws,
    for the removal of the root empties it before failing. *)
Definition rmSync (w : fs) (path : string) (recursive : bool) : result unit * fs :=
  match namei w false path with
  | Throw e => (Throw e, w)
  | Ok (q, None) => (Throw (SystemError ENOENT), w)
  | Ok (q, Some Dir) =>
      if recursive then
        match namei_names w false path with
        | Ok (_, Some (Symlink _)) => (Throw (SystemError ENOTDIR), w)
        | _ =>
            if is_nil q then (Throw (SystemError EBUSY), set_files w ∅)
            else (Ok tt, set_files w (remove_tree q (files w)))
        end
      else (Throw (SystemError EISDIR), w)
  | Ok (q, Some _) => (Ok tt, set_files w (delete q (files w)))
  end.

(** Does the directory at [q] have an entry? *)
Definition has_children (m : gmap (list string) node) (q : list string) : bool :=
  bool_decide (Exists (fun kv => removelast kv.1 = q ∧ kv.1 ≠ []) (map_to_list m)).

(** The entries at and below [a], moved to [b]. *)
Definition moved_tree (a b : list string) (m : gmap (list string) node)
    : gmap (list string) node :=
  list_to_map
    (omap (fun kv : list string * node =>
             if bool_decide (a `prefix_of` kv.1)
             then Some (b ++ drop (length a) kv.1, kv.2) else None)
          (map_to_list m)).

(** [fs.renameSync]: neither name is followed when it is a link; a
    separator after either name is accepted only when the entry moved
    is a directory. *)
Definition renameSync (w : fs) (oldPath newPath : string) : result fs :=
  let! ra := namei_names w false oldPath in
  match ra.2 with
  | None => Throw (SystemError ENOENT)
  | Some na =>
      let! rb := namei_names w false newPath in
      let a := ra.1 in
      let b := rb.1 in
      let moved :=
        set_files w
          (moved_tree a b (files w) ∪ remove_tree a (delete b (files w))) in
      if (JS.ends_with_sep oldPath || JS.ends_with_sep newPath)
         && negb (bool_decide (na = Dir))
      then Throw (SystemError ENOTDIR)
      else if is_nil a || is_nil b then Throw (SystemError EBUSY)
      else if bool_decide (a = b) then Ok w
      else if bool_decide (a `prefix_of` b) then Throw (SystemError EINVAL)
      else
        match na, rb.2 with
        | Dir, None => Ok moved
        | Dir, Some Dir =>
            if has_children (files w) b then Throw (SystemError ENOTEMPTY)
            else Ok moved
        | Dir, Some _ => Throw (SystemError ENOTDIR)
        | _, Some Dir => Throw (SystemError EISDIR)
        | _, _ => Ok moved
        end
  end.

(** One step of [mkdir -p]: the directory named [c] in the location
    [cur] is entered, after it is created when missing. *)
Definition mkdirp_step (hops : nat) (last : bool)
    (acc : result (gmap (list string) node * list string)) (c : string)
    : result (gmap (list string) node * list string) :=
  let! st := acc in
  let exists_error := SystemError (if last then EEXIST else ENOTDIR) in
  let! r := namei_from hops st.1 false st.2 [c] in
  match r.2 with
  | None => Ok (<[r.1 := Dir]> st.1, r.1)
  | Some Dir => Ok (st.1, r.1)
  | Some (File _) => Throw exists_error
  | Some (Symlink _) =>
      let! r' := namei_from hops st.1 true st.2 [c] in
      match r'.2 with
      | Some Dir => Ok (st.1, r'.1)
      | _ => Throw exists_error
      end
  end.

Fixpoint mkdirp (hops : nat) (acc : result (gmap (list string) node * list string))
    (todo : list string) : result (gmap (list string) node * list string) :=
  match todo with
  | [] => acc
  | c :: rest => mkdirp hops (mkdirp_step hops (is_nil rest) acc c) rest
  end.

(** [fs.mkdirSync(path, {recursive})] *)
Definition mkdirSync (w : fs) (path : string) (recursive : bool) : result fs :=
  if String.eqb path "" then Throw (SystemError ENOENT)
  else if recursive then
    let! st :=
      mkdirp SYMLOOP_MAX
        (Ok (files w, if JS.starts_with_sep path then [] else cwd w))
        (path_comps path) in
    Ok (set_files w st.1)
  else
    let! r := namei_names w false path in
    match r.2 with
    | Some _ => Throw (SystemError EEXIST)
    | None => Ok (set_files w (<[r.1 := Dir]> (files w)))
    end.

(** [fs.mkdtempSync(prefix)]: the directory [prefix ++ suffix] is created
    and its name returned, [suffix] being the six characters the
    platform picks. *)
Definition mkdtempSync (w : fs) (suffix : string) (prefix : string)
    : result (string * fs) :=
  let! w' := mkdirSync w (prefix +:+ suffix) false in
  Ok (prefix +:+ suffix, w').

(** The name of the location [k] when it is an entry of the directory at
    [dir]. *)
Definition child_of (dir k : list string) : option string :=
  match last k with
  | Some n => if bool_decide (removelast k = dir) then Some n else None
  | None => None
  end.

(** [fs.promises.opendir], read to its end. *)
Definition opendir (w : fs) (path : string) : result (list Dirent) :=
  let! r := namei w true path in
  match r.2 with
  | None => Throw (SystemError ENOENT)
  | Some Dir =>
      Ok (omap (fun kv : list string * node =>
                  (fun n => mkDirent n (ftype_of kv.2)) <$> child_of r.1 kv.1)
               (map_to_list (files w)))
  | Some _ => Throw (SystemError ENOTDIR)
  end.

(** [fs.writeFileSync(path, data)]: the file is opened for writing, a
    final link followed; it is created when only its name is missing and
    emptied first when it exists.  A path name that ends with a
    separator cannot be opened so: it would have to be a directory. *)
Definition writeFileSync (w : fs) (path data : string) : result fs :=
  let! r := namei_names w true path in
  if JS.ends_with_sep path then Throw (SystemError EISDIR)
  else
    match r.2 with
    | Some Dir => Throw (SystemError EISDIR)
    | Some (Symlink _) => Throw (SystemError ELOOP)
    | _ => Ok (set_files w (<[r.1 := File data]> (files w)))
    end.

(** [fs.promises.readFile(path, 'utf-8')], awaited. *)
Definition readFile (w : fs) (path : string) : result string :=
  let! r := namei w true path in
  match r.2 with
  | Some (File x) => Ok x
  | Some Dir => Throw (SystemError EISDIR)
  | Some (Symlink _) => Throw (SystemError ELOOP)
  | None => Throw (SystemError ENOENT)
  end.

(** [fs.copyFileSync(src, dest)]: the content of the source is written
    to the destination, which is overwritten when it exists. *)
Definition copyFileSync (w : fs) (src dest : string) : result fs :=
  let! data := readFile w src in
  writeFileSync w dest data.

(** [fs.symlinkSync(target, path)]: a link to [target] is created at
    [path], which must not name an entry, nor end with a separator. *)
Definition symlinkSync (w : fs) (target path : string) : result fs :=
  if String.eqb target "" then Throw (SystemError ENOENT)
  else
    let! r := namei_names w false path in
    match r.2 with
    | Some _ => Throw (SystemError EEXIST)
    | None =>
        if JS.ends_with_sep path then Throw (SystemError ENOENT)
        else Ok (set_files w (<[r.1 := Symlink target]> (files w)))
    end.

(** [fs.readdirSync(path)] *)
Definition readdirSync (w : fs) (path : string) : result (list string) :=
  let! entries := opendir w path in
  Ok (map name entries).

End NodeFs.

(** ** The Path class *)

(** [readonly string: string]; the field is named [pstring] because
    [string] is the type. *)
Record Path := mkPath { pstring : string }.

Global Instance Path_eq_dec : EqDecision Path.
Proof. solve_decision. Defined.

Import NodeFs.

(** The two shapes of the argument of [mv]. *)
Inductive mv_dest :=
  | To (to : Path)
  | Into (into : Path).

(** The argument of [mktemp]. *)
Record mktemp_opts := {
  prefix : option string;
  dir : option Path
}.

(** How a generator ended: it returned, it threw, or it is still running
    when the fuel is spent. *)
Inductive gen_end :=
  | Done
  | Threw (e : exn)
  | Running.

(** What [write] throws: its own [Error(`file-exists:${this}`)], or
    what a call that it makes throws. *)
Inductive write_exn :=
  | FileExists (this : Path)
  | WriteFailed (e : exn).

(** How [write] ends. *)
Inductive write_result :=
  | Written (p : Path)
  | WriteThrew (e : write_exn).

(** The content given to [write]: [{text}] or [{json, space?}]. *)
Inductive write_content (PlainObject : Type) :=
  | Text (text : string)
  | Json (json : PlainObject) (space : option nat).
Arguments Text {PlainObject} text.
Arguments Json {PlainObject} json space.

Module Path.

(** [constructor(input: string | Path)] *)
Definition constructor (input : string + Path) : result Path :=
  match input with
  | inr p => Ok (mkPath (pstring p))
  | inl s =>
      if negb (JS.truthy s) || negb (JS.starts_with_sep s)
      then Throw (InvalidPath s)
      else Ok (mkPath (NodePath.normalize s))
  end.

(** [static abs(input)]: [undefined] is [None]. *)
Definition abs (input : string + Path) : option Path :=
  match constructor input with
  | Ok p => Some p
  | Throw _ => None
  end.

(** [static root = new Path("/")] *)
Definition root : Path := mkPath "/".

(** [parent()] *)
Definition parent (this : Path) : result Path :=
  constructor (inl (NodePath.dirname (pstring this))).

(** [toString()] *)
Definition toString (this : Path) : string := pstring this.

(** [join(...components)] *)
Definition join (this : Path) (components : list string) : result Path :=
  let joined := JS.join (filter (fun x => Is_true (JS.truthy x)) components) in
  if JS.starts_with_sep joined then constructor (inl joined)
  else if JS.truthy joined then constructor (inl (pstring this +:+ "/" +:+ joined))
  else Ok this.

(** [components()] *)
Definition components (this : Path) : list string := JS.split (pstring this).

(** [basename()] *)
Definition basename (this : Path) : string := NodePath.basename (pstring this).

(** [split()] *)
Definition split (this : Path) : result (Path * string) :=
  let! d := parent this in Ok (d, basename this).


(** The [while (newPathComps[0] == newBaseComps[0])] loop of [relative];
    [fuel] bounds the number of iterations, [None] is a loop still running
    when the fuel is spent. *)
Fixpoint relative_loop (fuel : nat) (newPathComps newBaseComps : list string)
    : option (list string * list string) :=
  match fuel with
  | O => None
  | S fuel' =>
      if JS.loose_eq (JS.first newPathComps) (JS.first newBaseComps)
      then relative_loop fuel' (JS.shift newPathComps) (JS.shift newBaseComps)
      else Some (newPathComps, newBaseComps)
  end.

(** [relative({ to: base })] *)
Definition relative (fuel : nat) (this base : Path) : option string :=
  let pathComps := ["/"] ++ filter (fun x => Is_true (JS.truthy x)) (JS.split (pstring this)) in
  let baseComps := ["/"] ++ filter (fun x => Is_true (JS.truthy x)) (JS.split (pstring base)) in
  if JS.startsWith (pstring this) (pstring base) then
    Some (JS.join (JS.slice (length baseComps) pathComps))
  else
    match relative_loop fuel pathComps baseComps with
    | None => None
    | Some (newPathComps, newBaseComps) =>
        let relComps := repeat ".." (length newBaseComps) in
        Some (JS.join (relComps ++ newPathComps))
    end.

(** *** Operations on the file system *)

(** [exists()]; the method is named [exists_] because [exists] is a
    keyword. *)
Definition exists_ (this : Path) (w : fs) : option Path :=
  match statSync w (pstring this) with
  | Ok _ => Some this
  | Throw _ => None
  end.

(** [isDirectory()] *)
Definition isDirectory (this : Path) (w : fs) : option Path :=
  match statSync w (pstring this) with
  | Ok st => if stats_isDirectory st then Some this else None
  | Throw _ => None
  end.

(** [isFile()] *)
Definition isFile (this : Path) (w : fs) : option Path :=
  match statSync w (pstring this) with
  | Ok st => if stats_isFile st then Some this else None
  | Throw _ => None
  end.

(** [isSymlink()] *)
Definition isSymlink (this : Path) (w : fs) : option Path :=
  match lstatSync w (pstring this) with
  | Ok st => if stats_isSymbolicLink st then Some this else None
  | Throw _ => None
  end.

(** [err.code] *)
Definition err_code (err : exn) : option errno :=
  match err with
  | SystemError c => Some c
  | _ => None
  end.

Section Runtime.

(** The system errors that the JavaScript runtime raises as instances of
    [TypeError]. *)
Variable TypeError_codes : errno -> bool.

(** [err instanceof TypeError] *)
Definition instanceof_TypeError (err : exn) : bool :=
  match err with
  | SystemError c => TypeError_codes c
  | _ => false
  end.

(** [readlink()] *)
Definition readlink (this : Path) (w : fs) : result Path :=
  match (let! output := readlinkSync w (pstring this) in
         let! d := parent this in
         join d [output]) with
  | Ok p => Ok p
  | Throw err =>
      let code := err_code err in
      if instanceof_TypeError err then
        match code with
        | Some EINVAL => Ok this
        | Some ENOENT => Throw err
        | _ => Throw err
        end
      else Throw err
  end.

End Runtime.

(** [mkdir(opts?: 'p')]; [p] is [opts == 'p']. *)
Definition mkdir (this : Path) (p : bool) (w : fs) : result Path * fs :=
  match isDirectory this w with
  | Some _ => (Ok this, w)
  | None =>
      match mkdirSync w (pstring this) p with
      | Ok w' => (Ok this, w')
      | Throw e => (Throw e, w)
      end
  end.

(** [rm({recursive} = {recursive: false})] *)
Definition rm (this : Path) (recursive : bool) (w : fs) : result unit * fs :=
  match exists_ this w with
  | Some _ => rmSync w (pstring this) recursive
  | None => (Ok tt, w)
  end.

(** [mv({force, ...opts})]; [force] is [None] when absent.  In either
    branch the destination is unlinked when it exists and [force] is
    truthy, then the rename is done. *)
Definition mv (this : Path) (opts : mv_dest) (force : option bool) (w : fs)
    : result Path * fs :=
  match opts with
  | To to =>
      match (if bool_decide (is_Some (exists_ to w)) && default false force
             then unlinkSync w (pstring to) else Ok w) with
      | Throw e => (Throw e, w)
      | Ok w1 =>
          match renameSync w1 (pstring this) (pstring to) with
          | Ok w2 => (Ok to, w2)
          | Throw e => (Throw e, w1)
          end
      end
  | Into into =>
      match join into [basename this] with
      | Throw e => (Throw e, w)
      | Ok dst =>
          match (if bool_decide (is_Some (exists_ dst w)) && default false force
                 then unlinkSync w (pstring dst) else Ok w) with
          | Throw e => (Throw e, w)
          | Ok w1 =>
              match renameSync w1 (pstring this) (pstring dst) with
              | Ok w2 => (Ok dst, w2)
              | Throw e => (Throw e, w1)
              end
          end
      end
  end.

(** [static mktemp(opts?)]; [suffix] is what [mkdtempSync] will append.
    [dir?.mkdir('p').string ?? '' + prefix] reads
    [dir?.mkdir('p').string ?? ('' + prefix)]. *)
Definition mktemp (opts : option mktemp_opts) (suffix : string) (w : fs)
    : result Path * fs :=
  let prefix := opts ≫= prefix in
  let dir := opts ≫= dir in
  let input :=
    match dir with
    | Some d =>
        let r := mkdir d true w in
        (let! d' := r.1 in Ok (pstring d'), r.2)
    | None => (Ok ("" +:+ default "undefined" prefix), w)
    end in
  match input.1 with
  | Throw e => (Throw e, input.2)
  | Ok input_string =>
      match mkdtempSync input.2 suffix input_string with
      | Throw e => (Throw e, input.2)
      | Ok (rv, w') => (constructor (inl rv), w')
      end
  end.

(** The [for await] loop of [walk] over the entries of [dir]: the pairs
    yielded, and the stack afterwards. *)
Fixpoint walk_entries (dir : Path) (entries : list Dirent) (stack : list Path)
    : list (Path * Dirent) * result (list Path) :=
  match entries with
  | [] => ([], Ok stack)
  | entry :: entries' =>
      match join dir [name entry] with
      | Throw e => ([], Throw e)
      | Ok path =>
          let stack' :=
            if dirent_isDirectory entry then stack ++ [path] else stack in
          let r := walk_entries dir entries' stack' in
          ((path, entry) :: r.1, r.2)
      end
  end.

(** The [while (stack.length > 0)] loop of [walk]; the top of the stack
    is the end of the list, [fuel] bounds the number of iterations. *)
Fixpoint walk_loop (fuel : nat) (w : fs) (stack : list Path)
    : list (Path * Dirent) * gen_end :=
  match last stack with
  | None => ([], Done)
  | Some dir =>
      match fuel with
      | O => ([], Running)
      | S fuel' =>
          match opendir w (pstring dir) with
          | Throw e => ([], Threw e)
          | Ok entries =>
              let r := walk_entries dir entries (removelast stack) in
              match r.2 with
              | Throw e => (r.1, Threw e)
              | Ok stack' =>
                  let r' := walk_loop fuel' w stack' in
                  (r.1 ++ r'.1, r'.2)
              end
          end
      end
  end.

(** [walk()] *)
Definition walk (this : Path) (fuel : nat) (w : fs)
    : list (Path * Dirent) * gen_end :=
  walk_loop fuel w [this].

(** The [for await] loop of [ls] over the entries of the directory: the
    pairs yielded, and how the generator ends. *)
Fixpoint ls_entries (this : Path) (entries : list Dirent)
    : list (Path * Dirent) * gen_end :=
  match entries with
  | [] => ([], Done)
  | dirent :: entries' =>
      match join this [name dirent] with
      | Throw e => ([], Threw e)
      | Ok path =>
          let r := ls_entries this entries' in
          ((path, dirent) :: r.1, r.2)
      end
  end.

(** [ls()] *)
Definition ls (this : Path) (w : fs) : list (Path * Dirent) * gen_end :=
  match opendir w (pstring this) with
  | Throw e => ([], Threw e)
  | Ok entries => ls_entries this entries
  end.

(** [isReadableFile()] *)
Definition isReadableFile (this : Path) (w : fs) : option Path :=
  match isFile this w with
  | Some _ => Some this
  | None => None
  end.

(** [cp({into})] *)
Definition cp (this into : Path) (w : fs) : result Path * fs :=
  match join into [basename this] with
  | Throw e => (Throw e, w)
  | Ok dst =>
      match copyFileSync w (pstring this) (pstring dst) with
      | Ok w' => (Ok dst, w')
      | Throw e => (Throw e, w)
      end
  end.

(** [isEmpty()]: [Ok None] is [undefined]. *)
Definition isEmpty (this : Path) (w : fs) : result (option Path) :=
  match readdirSync w (pstring this) with
  | Ok entries =>
      match entries with
      | _ :: _ => Ok None
      | [] => Ok (Some this)
      end
  | Throw err =>
      match err_code err with
      | Some ENOENT => Ok None
      | _ => Throw err
      end
  end.

(** [ln('s', {to})] *)
Definition ln (this to : Path) (w : fs) : result Path * fs :=
  match symlinkSync w (pstring this) (pstring to) with
  | Ok w' => (Ok to, w')
  | Throw e => (Throw e, w)
  end.

(** [read()], awaited. *)
Definition read (this : Path) (w : fs) : result string :=
  readFile w (pstring this).

Section Json.

(** The type of plain objects, and [JSON.stringify(json, null, space)]
    on them. *)
Variable PlainObject : Type.
Variable JSON_stringify : PlainObject -> option nat -> string.

(** [write({force, ...content})] *)
Definition write (this : Path) (content : write_content PlainObject)
    (force : option bool) (w : fs) : write_result * fs :=
  let cleared :=
    match exists_ this w with
    | Some _ =>
        if negb (default false force) then (Some (FileExists this), w)
        else
          let r := rm this false w in
          (match r.1 with Ok _ => None | Throw e => Some (WriteFailed e) end,
           r.2)
    | None => (None, w)
    end in
  match cleared.1 with
  | Some e => (WriteThrew e, cleared.2)
  | None =>
      let text :=
        match content with
        | Text text => text
        | Json json space => JSON_stringify json space
        end in
      match writeFileSync cleared.2 (pstring this) text with
      | Ok w' => (Written this, w')
      | Throw e => (WriteThrew (WriteFailed e), cleared.2)
      end
  end.

(** [touch()] *)
Definition touch (this : Path) (w : fs) : write_result * fs :=
  write this (Text "") (Some true) w.

End Json.

(** [compact()] *)
Definition compact (this : Path) (w : fs) : option Path :=
  match exists_ this w with
  | Some _ => Some this
  | None => None
  end.

(** [\w] of a regular expression without the unicode flag. *)
Definition is_word_char (c : ascii) : bool :=
  let n := nat_of_ascii c in
  ((48 <=? n) && (n <=? 57)) || ((65 <=? n) && (n <=? 90))
  || ((97 <=? n) && (n <=? 122)) || (n =? 95).

Fixpoint all_word (s : string) : bool :=
  match s with
  | EmptyString => true
  | String c s' => is_word_char c && all_word s'
  end.

(** Does [/\.tar\.\w+$/] match at the start of [s]? *)
Definition tar_here (s : string) : bool :=
  match s with
  | String "." (String "t" (String "a" (String "r" (String "." word)))) =>
      JS.truthy word && all_word word
  | _ => false
  end.

(** [s.match(/\.tar\.\w+$/)], its element [0] when it is not [null]:
    the match that starts first. *)
Fixpoint match_tar (s : string) : option string :=
  if tar_here s then Some s
  else
    match s with
    | EmptyString => None
    | String _ s' => match_tar s'
    end.

Section Extname.

(** [node_path.extname] *)
Variable node_path_extname : string -> string.

(** [extname()] *)
Definition extname (this : Path) : string :=
  match match_tar (pstring this) with
  | Some m => m
  | None => node_path_extname (pstring this)
  end.

End Extname.

End Path.

(** ** The class Prefix *)

(** [class Prefix extends Path]: the fields of the base class and [www]. *)
Record Prefix := mkPrefix { prefix_path : Path; www : Path }.

Module PrefixClass.

(** [constructor(prefix: Path)] *)
Definition constructor (prefix : Path) : result Prefix :=
  let! base := Path.constructor (inr prefix) in
  let! www := Path.join prefix ["tea.xyz/var/www"] in
  Ok (mkPrefix base www).

End PrefixClass.

(** ** Errors *)

Module TeaError.

(** The strings of the type [ID]. *)
Definition IDs : list string :=
  [ "not-found: tea -X: arg0"; "not-found: exe/md: default target";
    "not-found: exe/md: region"; "not-found: pkg.version"; "http";
    "not-found: pantry"; "not-found: pantry: package.yml";
    "parser: pantry: package.yml"; "not-found: dev-env"; "not-found: arg";
    "#helpwanted"; "confused: interpreter" ].

(** What [code()] throws: [Error(`unhandled id: ${id}`)]. *)
Inductive code_exn := UnhandledId (id : string).

(** [code()], on an error whose [id] is [id]. *)
Definition code (id : string) : code_exn + string :=
  if String.eqb id "not-found: tea -X: arg0" then inr "spilt-tea-003"
  else if String.eqb id "not-found: exe/md: default target" then inr "spilt-tea-004"
  else if String.eqb id "not-found: exe/md: region" then inr "spilt-tea-005"
  else if String.eqb id "not-found: pkg.version" then inr "spilt-tea-006"
  else if String.eqb id "not-found: pantry: package.yml" then inr "spilt-tea-007"
  else if String.eqb id "not-found: dev-env" then inr "spilt-tea-008"
  else if String.eqb id "not-found: pantry" then inr "spilt-tea-009"
  else if String.eqb id "not-found: arg" then inr "spilt-tea-010"
  else if String.eqb id "parser: pantry: package.yml" then inr "spilt-tea-011"
  else if String.eqb id "#helpwanted" then inr "spilt-tea-012"
  else if String.eqb id "http" then inr "spilt-tea-013"
  else if String.eqb id "confused: interpreter" then inr "spilt-tea-14"
  else inl (UnhandledId id).

End TeaError.

(** ** Extensions of Array *)

Module ArrayExt.

Section Elements.

(** The type of the elements, what [x.toString()] gives, [None] when
    the call throws, as it does on [null] and on [undefined], and
    whether an element is truthy. *)
Variable T : Type.
Variable toString : T -> option string.
Variable truthy : T -> bool.

(** What [uniq] throws: what [x.toString()] threw on the element [x]. *)
Inductive uniq_exn := ToStringThrew (x : T).

(** [compact()], without a body: the truthy elements. *)
Definition compact (this : list T) : list T :=
  filter (fun x => Is_true (truthy x)) this.

(** The loop of [compact] with the body that [uniq] gives it; [set] is
    the set of that body.  What the body throws, [compact] throws
    again, for [uniq] passes no [rescue]. *)
Fixpoint uniq_loop (set : gset string) (this : list T) : uniq_exn + list T :=
  match this with
  | [] => inr []
  | x :: rest =>
      match toString x with
      | None => inl (ToStringThrew x)
      | Some s =>
          if bool_decide (s ∈ set) then uniq_loop set rest
          else
            match uniq_loop ({[ s ]} ∪ set) rest with
            | inl e => inl e
            | inr rv => inr (if truthy x then x :: rv else rv)
            end
      end
  end.

(** [uniq()] *)
Definition uniq (this : list T) : uniq_exn + list T := uniq_loop ∅ this.

End Elements.

End ArrayExt.

(** ** host.ts *)

Record HostReturnValue := {
  platform : string;
  arch : string;
  target : string;
  build_ids : string * string
}.

(** [host()], as a function of [process.arch] and [process.platform]. *)
Definition host (process_arch process_platform : string) : result HostReturnValue :=
  let! arch :=
    if String.eqb process_arch "x64" then Ok "x86-64"
    else if String.eqb process_arch "arm64" then Ok "aarch64"
    else Throw (UnsupportedArch process_arch) in
  let platform :=
    if String.eqb process_platform "darwin"
       || String.eqb process_platform "linux"
       || String.eqb process_platform "win32"
       || String.eqb process_platform "freebsd"
       || String.eqb process_platform "netbsd"
       || String.eqb process_platform "aix"
       || String.eqb process_platform "sunos"
    then process_platform
    else "linux" in
  let target := platform +:+ "-" +:+ arch in
  Ok {| platform := platform; arch := arch; target := target;
        build_ids := (platform, arch) |}.


(** ** Vocabulary of the statements *)

(** Does the string contain a separator? *)
Fixpoint has_sep (s : string) : bool :=
  match s with
  | EmptyString => false
  | String c s' => Ascii.eqb c JS.sep || has_sep s'
  end.

(** Does the string contain two separators in a row? *)
Fixpoint has_dup_sep (s : string) : bool :=
  match s with
  | EmptyString => false
  | String c s' =>
      (Ascii.eqb c JS.sep && JS.starts_with_sep s') || has_dup_sep s'
  end.

(** Is [seg] one of the segments between the separators of [s]? *)
Definition has_segment (seg s : string) : bool :=
  existsb (String.eqb seg) (JS.split s).

(** A name that an entry of a directory can bear. *)
Definition name_ok (s : string) : bool :=
  JS.truthy s && negb (String.eqb s ".") && negb (String.eqb s "..")
  && negb (has_sep s).

(** The absolute path string made of the names [cs], with a trailing
    separator when [tr]. *)
Definition render (cs : list string) (tr : bool) : string :=
  match cs with
  | [] => "/"
  | _ :: _ => "/" +:+ JS.join cs +:+ (if tr then "/" else "")
  end.

(** The names that the normalization of an absolute string keeps. *)
Definition kept_names (s : string) : list string :=
  fold_left (NodePath.normalize_step false) (JS.split s) [].

(** The strings in canonical form: rendered from names. *)
Definition canonical (s : string) : Prop :=
  exists cs tr, Forall (fun x => name_ok x = true) cs /\ s = render cs tr.

(** The values that the class can produce: by its constructor from a
    string or from another instance, and by [Path.parent] and [Path.join]. *)
Inductive constructed : Path -> Prop :=
  | constructed_new s p :
      Path.constructor (inl s) = Ok p -> constructed p
  | constructed_copy q p :
      constructed q -> Path.constructor (inr q) = Ok p -> constructed p
  | constructed_parent q p :
      constructed q -> Path.parent q = Ok p -> constructed p
  | constructed_join q segments p :
      constructed q -> Path.join q segments = Ok p -> constructed p.

(** The case labels of the platform switch of [host]. *)
Definition supported_platforms : list string :=
  ["darwin"; "linux"; "win32"; "freebsd"; "netbsd"; "aix"; "sunos"].

(** ** Directory trees *)

Set Warnings "-register-all".

(** What lies at a path, as the platform lists it: a file, a link, or a
    directory with its entries in the order in which [opendir] gives
    them. *)
Inductive tree :=
  | FileLeaf
  | LinkLeaf
  | DirNode (children : list (string * tree)).

Definition tree_type (t : tree) : ftype :=
  match t with
  | FileLeaf => RegularFile
  | LinkLeaf => SymbolicLink
  | DirNode _ => Directory
  end.

Definition tree_is_dir (t : tree) : bool :=
  match t with DirNode _ => true | _ => false end.

Definition dirent_of (c : string * tree) : Dirent :=
  mkDirent c.1 (tree_type c.2).

(** The number of entries below the root that are not directories. *)
Fixpoint count_files (t : tree) : nat :=
  match t with
  | DirNode cs =>
      list_sum (map (fun c => (if tree_is_dir c.2 then 0 else 1) + count_files c.2) cs)
  | _ => 0
  end.

(** The number of directories below the root. *)
Fixpoint count_dirs (t : tree) : nat :=
  match t with
  | DirNode cs =>
      list_sum (map (fun c => (if tree_is_dir c.2 then 1 else 0) + count_dirs c.2) cs)
  | _ => 0
  end.

(** Every entry below the root: the names leading to it from the root,
    and what the platform reports for it. *)
Fixpoint entries_below (t : tree) : list (list string * Dirent) :=
  match t with
  | DirNode cs =>
      concat (map (fun c =>
                     ([c.1], dirent_of c)
                     :: map (fun e : list string * Dirent => (c.1 :: e.1, e.2))
                          (entries_below c.2)) cs)
  | _ => []
  end.

(** The names in every directory of the tree are names of entries, and
    no directory has a name twice. *)
Fixpoint names_okb (t : tree) : bool :=
  match t with
  | DirNode cs =>
      bool_decide (NoDup (map fst cs))
      && forallb (fun c => name_ok c.1 && names_okb c.2) cs
  | _ => true
  end.

Global Instance ftype_eq_dec : EqDecision ftype.
Proof. solve_decision. Defined.

Global Instance Dirent_eq_dec : EqDecision Dirent.
Proof. solve_decision. Defined.

Global Instance exn_eq_dec : EqDecision exn.
Proof. solve_decision. Defined.

Global Instance result_eq_dec {A} `{EqDecision A} : EqDecision (result A).
Proof. solve_decision. Defined.

(** The tree [t] is what the file system has at the path [p]: every
    directory of the tree, opened at the path that [Path.join] gives it, lists
    its children. *)
Fixpoint representsb (w : fs) (p : Path) (t : tree) : bool :=
  match t with
  | DirNode cs =>
      bool_decide (opendir w (pstring p) = Ok (map dirent_of cs))
      && forallb (fun c =>
                    match Path.join p [c.1] with
                    | Ok p' => representsb w p' c.2
                    | Throw _ => false
                    end) cs
  | _ => true
  end.

(** The path with the names [q] and no trailing separator. *)
Definition at_names (q : list string) : Path := mkPath (render q false).

(** What [Path.walk] yields for the directory with the names [q] and the tree
    [t], in the order of the code: the children of the directory, then
    what it yields for the child directories, last child first. *)
Fixpoint walk_yields (q : list string) (t : tree) : list (Path * Dirent) :=
  match t with
  | DirNode cs =>
      map (fun c => (at_names (q ++ [c.1]), dirent_of c)) cs
      ++ concat (rev (map (fun c => walk_yields (q ++ [c.1]) c.2) cs))
  | _ => []
  end.

(** An entry of the work stack of [Path.walk]: the names of the directory,
    whether its string has a trailing separator, and its tree. *)
Definition item : Type := list string * bool * tree.

Definition item_path (it : item) : Path := mkPath (render it.1.1 it.1.2).

Definition item_ok (w : fs) (it : item) : Prop :=
  Forall (fun x => name_ok x = true) it.1.1
  /\ names_okb it.2 = true
  /\ representsb w (item_path it) it.2 = true
  /\ tree_is_dir it.2 = true.

(** The iterations of the loop of [Path.walk] that an entry of the stack
    causes. *)
Definition item_cost (it : item) : nat := S (count_dirs it.2).

(** The entries pushed for the children [cs] of the directory with the
    names [q]. *)
Definition child_items (q : list string) (cs : list (string * tree)) : list item :=
  map (fun c => (q ++ [c.1], false, c.2))
      (filter (fun c => Is_true (tree_is_dir c.2)) cs).

(** The tree of [sample_fs] at [/tmp]. *)
Definition sample_tree : tree :=
  DirNode [ ("l", LinkLeaf); ("k", LinkLeaf); ("e", DirNode []);
            ("d", DirNode [("f", FileLeaf)]) ].

(** ** Sample states *)

(** A file system with the files [/a] and [/b], the directory [/tmp] with
    the directories [/tmp/d] and [/tmp/e], the file [/tmp/d/f], the link
    [/tmp/l] to [d/f] and the link [/tmp/k] to [l]. *)
Definition sample_fs : fs :=
  mkFs (list_to_map
          [ (["a"], File "x"); (["b"], File "y"); (["tmp"], Dir);
            (["tmp"; "d"], Dir); (["tmp"; "d"; "f"], File "z");
            (["tmp"; "l"], Symlink "d/f"); (["tmp"; "k"], Symlink "l");
            (["tmp"; "e"], Dir) ])
       [].

(** A runtime that raises the invalid-argument system error as a
    [TypeError] and no other one. *)
Definition einval_is_TypeError (c : errno) : bool := bool_decide (c = EINVAL).

(** A runtime whose system errors are never [TypeError]s. *)
Definition no_TypeError (c : errno) : bool := false.

(** * Properties *)

(** ** Strings *)

Lemma app_cons c s t : String c s +:+ t = String c (s +:+ t).
Proof. reflexivity. Qed.

Lemma sep_app t : "/" +:+ t = String "/" t.
Proof. reflexivity. Qed.

Lemma app_empty_l t : "" +:+ t = t.
Proof. reflexivity. Qed.

Lemma app_empty_r s : s +:+ "" = s.
Proof. induction s as [|c s IH]; [reflexivity|]. by rewrite app_cons, IH. Qed.

Lemma app_assoc_s (a b c : string) : (a +:+ b) +:+ c = a +:+ (b +:+ c).
Proof.
  induction a as [|x a IH]; [reflexivity|]. by rewrite !app_cons, IH.
Qed.

Lemma truthy_true s : JS.truthy s = true <-> s <> "".
Proof.
  unfold JS.truthy. destruct (String.eqb_spec s ""); simpl; split; congruence.
Qed.

Lemma truthy_false s : JS.truthy s = false <-> s = "".
Proof.
  unfold JS.truthy. destruct (String.eqb_spec s ""); simpl; split; congruence.
Qed.

Lemma split_not_nil s : JS.split s <> [].
Proof.
  destruct s as [|c s]; simpl; [discriminate|].
  destruct (Ascii.eqb c JS.sep); [discriminate|].
  destruct (JS.split s); discriminate.
Qed.

Lemma split_sep_cons s : JS.split (String "/" s) = "" :: JS.split s.
Proof. reflexivity. Qed.

Lemma split_no_sep s : has_sep s = false -> JS.split s = [s].
Proof.
  induction s as [|c s IH]; simpl; [done|].
  destruct (Ascii.eqb c JS.sep); simpl; [done|].
  intros H. by rewrite (IH H).
Qed.

(** Splitting distributes over a separator. *)
Lemma split_app_sep a b :
  JS.split (a +:+ "/" +:+ b) = JS.split a ++ JS.split b.
Proof.
  induction a as [|c a IH].
  - reflexivity.
  - rewrite app_cons. simpl. destruct (Ascii.eqb c JS.sep).
    + by rewrite IH.
    + rewrite IH. destruct (JS.split a) eqn:E; [|reflexivity].
      by destruct (split_not_nil a).
Qed.

Lemma split_segments_no_sep s : Forall (fun x => has_sep x = false) (JS.split s).
Proof.
  induction s as [|c s IH]; simpl.
  - by constructor.
  - destruct (Ascii.eqb c JS.sep) eqn:E.
    + by constructor.
    + destruct (JS.split s) as [|h t]; inversion IH; subst;
        constructor; simpl; try rewrite E; auto.
Qed.

Lemma split_join l :
  l <> [] -> Forall (fun x => has_sep x = false) l -> JS.split (JS.join l) = l.
Proof.
  induction l as [|x l IH]; [done|]. intros _ H.
  inversion H as [|? ? Hx Hl]; subst.
  destruct l as [|y l].
  - simpl. by apply split_no_sep.
  - change (JS.join (x :: y :: l)) with (x +:+ "/" +:+ JS.join (y :: l)).
    rewrite split_app_sep, (split_no_sep x Hx), IH; done.
Qed.

Lemma join_cons2 x y l : JS.join (x :: y :: l) = x +:+ "/" +:+ JS.join (y :: l).
Proof. reflexivity. Qed.

Lemma join_snoc l x :
  l <> [] -> JS.join (l ++ [x]) = JS.join l +:+ "/" +:+ x.
Proof.
  induction l as [|a l IH]; [done|]. intros _.
  destruct l as [|b l]; [reflexivity|].
  change ((a :: b :: l) ++ [x]) with (a :: (b :: l) ++ [x]).
  change ((b :: l) ++ [x]) with (b :: (l ++ [x])) at 1.
  rewrite join_cons2. change (b :: l ++ [x]) with ((b :: l) ++ [x]).
  rewrite IH by done. rewrite join_cons2. by rewrite !app_assoc_s.
Qed.

Lemma starts_with_sep_app a b :
  a <> "" -> JS.starts_with_sep (a +:+ b) = JS.starts_with_sep a.
Proof. destruct a; [done|reflexivity]. Qed.

Lemma ends_with_sep_cons c s :
  s <> "" -> JS.ends_with_sep (String c s) = JS.ends_with_sep s.
Proof. destruct s; [done|reflexivity]. Qed.

Lemma ends_with_sep_app a b :
  b <> "" -> JS.ends_with_sep (a +:+ b) = JS.ends_with_sep b.
Proof.
  intros Hb. induction a as [|c a IH]; [reflexivity|].
  rewrite app_cons, ends_with_sep_cons; [done|].
  destruct a; [done|discriminate].
Qed.

Lemma ends_with_sep_no_sep s : has_sep s = false -> JS.ends_with_sep s = false.
Proof.
  induction s as [|c s IH]; [done|]. simpl.
  destruct (Ascii.eqb c JS.sep) eqn:E; simpl; [done|].
  intros H. destruct s; [done|]. by apply IH.
Qed.

Lemma starts_with_sep_no_sep s : has_sep s = false -> JS.starts_with_sep s = false.
Proof. destruct s as [|c s]; simpl; [done|]. by destruct (Ascii.eqb c JS.sep). Qed.

(** ** Normalization *)

Lemma name_ok_spec s :
  name_ok s = true <-> s <> "" /\ s <> "." /\ s <> ".." /\ has_sep s = false.
Proof.
  unfold name_ok, JS.truthy.
  destruct (String.eqb_spec s ""), (String.eqb_spec s "."),
    (String.eqb_spec s ".."), (has_sep s); simpl; intuition congruence.
Qed.

Lemma normalize_step_name a res seg :
  name_ok seg = true -> NodePath.normalize_step a res seg = res ++ [seg].
Proof.
  intros (H1 & H2 & H3 & _)%name_ok_spec. unfold NodePath.normalize_step.
  destruct (String.eqb_spec seg ""), (String.eqb_spec seg "."),
    (String.eqb_spec seg ".."); congruence.
Qed.

Lemma normalize_step_empty a res : NodePath.normalize_step a res "" = res.
Proof. reflexivity. Qed.

Lemma fold_normalize_names a l acc :
  Forall (fun x => name_ok x = true) l ->
  fold_left (NodePath.normalize_step a) l acc = acc ++ l.
Proof.
  revert acc. induction l as [|x l IH]; intros acc H; simpl.
  - by rewrite app_nil_r.
  - inversion H; subst. rewrite normalize_step_name by done.
    rewrite IH by done. by rewrite <- app_assoc.
Qed.

Lemma Forall_removelast {A} (P : A -> Prop) (l : list A) :
  Forall P l -> Forall P (removelast l).
Proof.
  induction l as [|x l IH]; [done|]. intros H. inversion H; subst.
  destruct l; [constructor|]. simpl. constructor; [done|]. by apply IH.
Qed.

Lemma normalize_step_names res seg :
  has_sep seg = false ->
  Forall (fun x => name_ok x = true) res ->
  Forall (fun x => name_ok x = true) (NodePath.normalize_step false res seg).
Proof.
  intros Hs Hres. unfold NodePath.normalize_step.
  destruct (String.eqb_spec seg ""); [done|].
  destruct (String.eqb_spec seg "."); [done|].
  destruct (String.eqb_spec seg "..").
  - destruct (last res); [|constructor].
    destruct (String.eqb _ _); [done|]. by apply Forall_removelast.
  - apply Forall_app. split; [done|]. constructor; [|constructor].
    by apply name_ok_spec.
Qed.

Lemma fold_normalize_step_names l acc :
  Forall (fun x => has_sep x = false) l ->
  Forall (fun x => name_ok x = true) acc ->
  Forall (fun x => name_ok x = true)
    (fold_left (NodePath.normalize_step false) l acc).
Proof.
  revert acc. induction l as [|x l IH]; intros acc Hl Hacc; simpl; [done|].
  inversion Hl; subst. apply IH; [done|]. by apply normalize_step_names.
Qed.

Lemma kept_names_ok s : Forall (fun x => name_ok x = true) (kept_names s).
Proof.
  apply fold_normalize_step_names; [apply split_segments_no_sep|constructor].
Qed.

Lemma join_names_not_empty x l :
  name_ok x = true -> JS.join (x :: l) <> "".
Proof.
  intros (H & _)%name_ok_spec. destruct l; simpl; [done|].
  destruct x; [done|discriminate].
Qed.

Lemma starts_with_sep_not_empty s : JS.starts_with_sep s = true -> s <> "".
Proof. by destruct s. Qed.

(** On an absolute string, [normalize] renders the names it keeps and
    repeats the trailing separator of its input. *)
Lemma normalize_absolute s :
  JS.starts_with_sep s = true ->
  NodePath.normalize s = render (kept_names s) (JS.ends_with_sep s).
Proof.
  intros Habs. pose proof (kept_names_ok s) as Hok.
  unfold NodePath.normalize, NodePath.normalizeString. fold (kept_names s).
  destruct (String.eqb_spec s "") as [->|_]; [done|].
  rewrite Habs. simpl negb. fold (kept_names s).
  destruct (kept_names s) as [|x l] eqn:E; [reflexivity|].
  inversion Hok; subst.
  destruct (String.eqb_spec (JS.join (x :: l)) "") as [Hj|_].
  { by apply join_names_not_empty in Hj. }
  unfold render. destruct (JS.ends_with_sep s); [reflexivity|].
  by rewrite app_empty_r.
Qed.

Lemma Forall_names_no_sep cs :
  Forall (fun x => name_ok x = true) cs -> Forall (fun x => has_sep x = false) cs.
Proof.
  intros H. eapply Forall_impl; [exact H|].
  intros x Hx. apply name_ok_spec in Hx. tauto.
Qed.

Lemma split_render cs tr :
  cs <> [] -> Forall (fun x => name_ok x = true) cs ->
  JS.split (render cs tr) = "" :: cs ++ (if tr then [""] else []).
Proof.
  intros Hne Hok. destruct cs as [|x l]; [done|]. unfold render.
  rewrite sep_app, split_sep_cons. f_equal. destruct tr.
  - change "/" with ("/" +:+ "") at 1. rewrite split_app_sep.
    by rewrite split_join by (done || by apply Forall_names_no_sep).
  - rewrite app_empty_r, app_nil_r.
    by rewrite split_join by (done || by apply Forall_names_no_sep).
Qed.

Lemma kept_names_render cs tr :
  Forall (fun x => name_ok x = true) cs -> kept_names (render cs tr) = cs.
Proof.
  intros Hok. destruct cs as [|x l]; [reflexivity|]. unfold kept_names.
  rewrite split_render by done.
  change (fold_left ?f ("" :: ?t) []) with (fold_left f t []).
  rewrite fold_left_app, (fold_normalize_names false (x :: l)) by done.
  by destruct tr.
Qed.

Lemma ends_with_sep_join x l :
  Forall (fun y => name_ok y = true) (x :: l) ->
  JS.ends_with_sep (JS.join (x :: l)) = false.
Proof.
  revert x. induction l as [|y l IH]; intros x [Hx Hl]%Forall_cons.
  - simpl. apply ends_with_sep_no_sep. apply name_ok_spec in Hx. tauto.
  - pose proof Hl as [Hy _]%Forall_cons.
    rewrite join_cons2.
    rewrite ends_with_sep_app by (rewrite sep_app; discriminate).
    rewrite sep_app, ends_with_sep_cons by (by apply join_names_not_empty).
    by apply IH.
Qed.

Lemma ends_with_sep_render x l tr :
  Forall (fun y => name_ok y = true) (x :: l) ->
  JS.ends_with_sep (render (x :: l) tr) = tr.
Proof.
  intros Hok. pose proof Hok as [Hx _]%Forall_cons. unfold render.
  rewrite sep_app. destruct tr.
  - rewrite ends_with_sep_cons.
    + by rewrite ends_with_sep_app.
    + pose proof (join_names_not_empty x l Hx).
      destruct (JS.join (x :: l)); [done|discriminate].
  - rewrite app_empty_r, ends_with_sep_cons by (by apply join_names_not_empty).
    by apply ends_with_sep_join.
Qed.

Lemma starts_with_sep_render cs tr : JS.starts_with_sep (render cs tr) = true.
Proof. by destruct cs. Qed.

Lemma normalize_render cs tr :
  Forall (fun x => name_ok x = true) cs ->
  NodePath.normalize (render cs tr) = render cs tr.
Proof.
  intros Hok. rewrite normalize_absolute by apply starts_with_sep_render.
  rewrite kept_names_render by done.
  destruct cs as [|x l]; [reflexivity|]. by rewrite ends_with_sep_render.
Qed.

(** [normalize] is idempotent on absolute strings. *)
Lemma normalize_idempotent s :
  JS.starts_with_sep s = true ->
  NodePath.normalize (NodePath.normalize s) = NodePath.normalize s.
Proof.
  intros Habs. rewrite (normalize_absolute s Habs).
  apply normalize_render, kept_names_ok.
Qed.

Lemma new_Path_ok s :
  JS.starts_with_sep s = true ->
  Path.constructor (inl s) = Ok (mkPath (NodePath.normalize s)).
Proof.
  intros Habs. unfold Path.constructor.
  assert (JS.truthy s = true) as ->
    by (by apply truthy_true, starts_with_sep_not_empty).
  by rewrite Habs.
Qed.

(** ** Construction *)

Lemma new_Path_string_inv s p :
  Path.constructor (inl s) = Ok p ->
  JS.starts_with_sep s = true /\ p = mkPath (NodePath.normalize s).
Proof.
  unfold Path.constructor. destruct (JS.truthy s), (JS.starts_with_sep s); simpl;
    intros H; inversion H; auto.
Qed.

Lemma new_Path_throws s :
  s = "" \/ JS.starts_with_sep s = false ->
  Path.constructor (inl s) = Throw (InvalidPath s).
Proof.
  intros [->|H]; [reflexivity|]. unfold Path.constructor. rewrite H.
  by rewrite orb_true_r.
Qed.

(** ** host *)

Lemma supported_platforms_test p :
  String.eqb p "darwin" || String.eqb p "linux" || String.eqb p "win32"
  || String.eqb p "freebsd" || String.eqb p "netbsd" || String.eqb p "aix"
  || String.eqb p "sunos" = bool_decide (p ∈ supported_platforms).
Proof.
  unfold supported_platforms.
  destruct (String.eqb_spec p "darwin") as [->|H1]; [done|].
  destruct (String.eqb_spec p "linux") as [->|H2]; [done|].
  destruct (String.eqb_spec p "win32") as [->|H3]; [done|].
  destruct (String.eqb_spec p "freebsd") as [->|H4]; [done|].
  destruct (String.eqb_spec p "netbsd") as [->|H5]; [done|].
  destruct (String.eqb_spec p "aix") as [->|H6]; [done|].
  destruct (String.eqb_spec p "sunos") as [->|H7]; [done|].
  simpl. symmetry. apply bool_decide_eq_false.
  rewrite !elem_of_cons, elem_of_nil. tauto.
Qed.

(** C10. Whenever [host] returns, the target is the platform, a dash and
    the architecture, and the build ids are the pair of the two; the
    architecture is x86-64 for x64 and aarch64 for arm64, any other one
    makes [host] throw; a platform outside the enumerated ones becomes
    linux, and never makes it throw. *)
Theorem host_spec (process_arch process_platform : string) :
  (forall r, host process_arch process_platform = Ok r ->
     target r = platform r +:+ "-" +:+ arch r
     /\ build_ids r = (platform r, arch r)
     /\ platform r =
          (if bool_decide (process_platform ∈ supported_platforms)
           then process_platform else "linux")
     /\ ((process_arch = "x64" /\ arch r = "x86-64")
         \/ (process_arch = "arm64" /\ arch r = "aarch64")))
  /\ (process_arch = "x64" \/ process_arch = "arm64" ->
      exists r, host process_arch process_platform = Ok r)
  /\ (process_arch <> "x64" -> process_arch <> "arm64" ->
      host process_arch process_platform = Throw (UnsupportedArch process_arch)).
Proof.
  unfold host. rewrite supported_platforms_test.
  destruct (String.eqb_spec process_arch "x64") as [->|Hx].
  { simpl. split; [|split].
    - intros r [= <-]. simpl. repeat split. by left.
    - eauto.
    - done. }
  destruct (String.eqb_spec process_arch "arm64") as [->|Ha].
  { simpl. split; [|split].
    - intros r [= <-]. simpl. repeat split. by right.
    - eauto.
    - done. }
  simpl. split; [|split].
  - intros r [=].
  - intros [?|?]; done.
  - done.
Qed.

(** ** Path.join *)

Lemma filter_truthy_cons (x : string) (l : list string) :
  filter (fun x => Is_true (JS.truthy x)) (x :: l) =
  if JS.truthy x then x :: filter (fun x => Is_true (JS.truthy x)) l
  else filter (fun x => Is_true (JS.truthy x)) l.
Proof.
  rewrite filter_cons. by destruct (JS.truthy x).
Qed.

Lemma filter_truthy_all (l : list string) :
  Forall (fun x => JS.truthy x = true) (filter (fun x => Is_true (JS.truthy x)) l).
Proof.
  induction l as [|x l IH]; [constructor|].
  rewrite filter_truthy_cons. destruct (JS.truthy x) eqn:E; [|done].
  by constructor.
Qed.

Lemma filter_truthy_idem (l : list string) :
  filter (fun x => Is_true (JS.truthy x)) (filter (fun x => Is_true (JS.truthy x)) l)
  = filter (fun x => Is_true (JS.truthy x)) l.
Proof.
  induction l as [|x l IH]; [done|].
  rewrite filter_truthy_cons. destruct (JS.truthy x) eqn:E; [|done].
  by rewrite filter_truthy_cons, E, IH.
Qed.

Lemma starts_with_sep_join x l :
  JS.truthy x = true ->
  JS.starts_with_sep (JS.join (x :: l)) = JS.starts_with_sep x.
Proof.
  intros Hx%truthy_true. destruct l; [done|].
  rewrite join_cons2. by apply starts_with_sep_app.
Qed.

Lemma truthy_join x l : JS.truthy x = true -> JS.truthy (JS.join (x :: l)) = true.
Proof.
  intros Hx%truthy_true. apply truthy_true. destruct l; [done|].
  rewrite join_cons2. destruct x; [done|discriminate].
Qed.

(** The three branches of [Path.join], by the segments left after the
    empty ones are dropped. *)
Lemma join_cases (this : Path) (segments : list string) :
  match filter (fun x => Is_true (JS.truthy x)) segments with
  | [] => Path.join this segments = Ok this
  | first :: rest =>
      if JS.starts_with_sep first
      then Path.join this segments =
             Ok (mkPath (NodePath.normalize (JS.join (first :: rest))))
      else Path.join this segments =
             Path.constructor (inl (pstring this +:+ "/" +:+ JS.join (first :: rest)))
  end.
Proof.
  pose proof (filter_truthy_all segments) as Hall. unfold Path.join.
  destruct (filter _ segments) as [|first rest]; [reflexivity|].
  apply Forall_cons in Hall as [Hf _].
  rewrite starts_with_sep_join by done.
  destruct (JS.starts_with_sep first) eqn:E.
  - apply new_Path_ok. by rewrite starts_with_sep_join.
  - by rewrite truthy_join.
Qed.

(** C3, as amended.  [Path.join] ignores the empty segments.  When no
    segment is left the receiver is returned; when the first segment
    left is absolute the result is constructed from the segments left,
    joined by the separator, whatever the receiver; otherwise, also when
    a later segment is absolute, it is constructed from the receiver's
    string, a separator and the joined segments. *)
Theorem join_spec (this : Path) (segments : list string) :
  let kept := filter (fun x => Is_true (JS.truthy x)) segments in
  Path.join this segments = Path.join this kept
  /\ match kept with
     | [] => Path.join this segments = Ok this
     | first :: _ =>
         if JS.starts_with_sep first
         then Path.join this segments = Ok (mkPath (NodePath.normalize (JS.join kept)))
         else Path.join this segments =
                Path.constructor (inl (pstring this +:+ "/" +:+ JS.join kept))
     end.
Proof.
  intros kept. subst kept. split.
  - unfold Path.join. by rewrite filter_truthy_idem.
  - pose proof (join_cases this segments) as H.
    by destruct (filter _ segments).
Qed.

(** C3, the claim as stated fails: a later absolute segment does not
    replace what precedes it, and a first absolute segment does not
    discard what follows it. *)
Lemma join_later_absolute_counterexample :
  Path.join (mkPath "/x") ["a"; "/b"] = Ok (mkPath "/x/a/b")
  /\ Path.join (mkPath "/x") ["a"; "/b"] <> Ok (mkPath "/b")
  /\ Path.join (mkPath "/x") ["/a"; "b"] = Ok (mkPath "/a/b")
  /\ Path.join (mkPath "/x") ["/a"; "b"] <> Ok (mkPath "/a").
Proof. repeat split; (reflexivity || discriminate). Qed.

(** ** The representation invariant *)

Lemma normalize_canonical s :
  JS.starts_with_sep s = true -> canonical (NodePath.normalize s).
Proof.
  intros H. exists (kept_names s), (JS.ends_with_sep s).
  split; [apply kept_names_ok|by apply normalize_absolute].
Qed.

Lemma new_Path_canonical s p :
  Path.constructor (inl s) = Ok p -> canonical (pstring p).
Proof.
  intros [Habs ->]%new_Path_string_inv. by apply normalize_canonical.
Qed.

Lemma canonical_absolute s : canonical s -> JS.starts_with_sep s = true.
Proof. intros (cs & tr & _ & ->). apply starts_with_sep_render. Qed.

Lemma dirname_absolute s :
  JS.starts_with_sep s = true -> JS.starts_with_sep (NodePath.dirname s) = true.
Proof.
  destruct s as [|c0 rest]; [done|]. simpl. intros Hc. rewrite Hc.
  destruct (NodePath.dirname_scan _ _) as [r'|]; [|done].
  simpl. by destruct (length r' =? 0)%nat.
Qed.

Lemma parent_total this :
  JS.starts_with_sep (pstring this) = true ->
  Path.parent this = Ok (mkPath (NodePath.normalize (NodePath.dirname (pstring this)))).
Proof. intros H. apply new_Path_ok. by apply dirname_absolute. Qed.

Lemma join_total this segments :
  JS.starts_with_sep (pstring this) = true ->
  exists q, Path.join this segments = Ok q.
Proof.
  intros Habs. pose proof (join_cases this segments) as H.
  destruct (filter _ segments) as [|first rest]; [eauto|].
  destruct (JS.starts_with_sep first); [eauto|].
  rewrite H. rewrite new_Path_ok; [eauto|].
  rewrite starts_with_sep_app; [done|]. by apply starts_with_sep_not_empty.
Qed.

Lemma join_canonical this segments q :
  canonical (pstring this) -> Path.join this segments = Ok q -> canonical (pstring q).
Proof.
  intros Hc. pose proof (join_cases this segments) as H.
  destruct (filter _ segments) as [|first rest].
  - rewrite H. by intros [= <-].
  - destruct (JS.starts_with_sep first) eqn:E; rewrite H.
    + intros [= <-]. apply (normalize_canonical (JS.join (first :: rest))).
      rewrite starts_with_sep_join; [exact E|].
      by destruct first.
    + apply new_Path_canonical.
Qed.

Lemma constructed_canonical p : constructed p -> canonical (pstring p).
Proof.
  induction 1 as [s p H|q p _ IH H|q p _ IH H|q segs p _ IH H].
  - by eapply new_Path_canonical.
  - simpl in H. by inversion H.
  - by eapply new_Path_canonical.
  - by eapply join_canonical.
Qed.

Lemma has_dup_sep_cons c s :
  has_dup_sep (String c s) =
  (Ascii.eqb c JS.sep && JS.starts_with_sep s) || has_dup_sep s.
Proof. reflexivity. Qed.

Lemma has_dup_sep_app a b :
  has_dup_sep (a +:+ b) =
  has_dup_sep a || (JS.ends_with_sep a && JS.starts_with_sep b) || has_dup_sep b.
Proof.
  induction a as [|c a IH]; [reflexivity|].
  rewrite app_cons. simpl has_dup_sep. rewrite IH.
  destruct a as [|c' a].
  - rewrite app_empty_l. simpl.
    destruct (Ascii.eqb c JS.sep), (JS.starts_with_sep b), (has_dup_sep b);
      reflexivity.
  - rewrite (ends_with_sep_cons c (String c' a)) by done.
    rewrite starts_with_sep_app by done.
    destruct (Ascii.eqb c JS.sep), (JS.starts_with_sep (String c' a)),
      (has_dup_sep (String c' a)), (JS.ends_with_sep (String c' a) && JS.starts_with_sep b);
      reflexivity.
Qed.

Lemma has_dup_sep_no_sep s : has_sep s = false -> has_dup_sep s = false.
Proof.
  induction s as [|c s IH]; [done|]. simpl.
  destruct (Ascii.eqb c JS.sep); simpl; [done|]. apply IH.
Qed.

Lemma has_dup_sep_join x l :
  Forall (fun y => name_ok y = true) (x :: l) ->
  has_dup_sep (JS.join (x :: l)) = false.
Proof.
  revert x. induction l as [|y l IH]; intros x [Hx Hl]%Forall_cons;
    apply name_ok_spec in Hx as (Hx1 & _ & _ & Hx2).
  - simpl. by apply has_dup_sep_no_sep.
  - pose proof Hl as [Hy _]%Forall_cons.
    rewrite join_cons2, has_dup_sep_app.
    rewrite has_dup_sep_no_sep, ends_with_sep_no_sep by done.
    cbn [orb andb]. rewrite sep_app, has_dup_sep_cons.
    rewrite starts_with_sep_join by (apply name_ok_spec in Hy; apply truthy_true; tauto).
    rewrite starts_with_sep_no_sep by (apply name_ok_spec in Hy; tauto).
    rewrite andb_false_r. by apply IH.
Qed.

Lemma has_dup_sep_render cs tr :
  Forall (fun y => name_ok y = true) cs -> has_dup_sep (render cs tr) = false.
Proof.
  intros Hok. destruct cs as [|x l]; [reflexivity|].
  pose proof Hok as [Hx _]%Forall_cons. unfold render.
  rewrite sep_app, has_dup_sep_cons.
  rewrite has_dup_sep_app, has_dup_sep_join, ends_with_sep_join by done.
  rewrite starts_with_sep_app by (by apply join_names_not_empty).
  rewrite starts_with_sep_join by (apply name_ok_spec in Hx; apply truthy_true; tauto).
  rewrite starts_with_sep_no_sep by (apply name_ok_spec in Hx; tauto).
  by destruct tr.
Qed.

Lemma existsb_names seg cs :
  name_ok seg = false ->
  Forall (fun y => name_ok y = true) cs -> existsb (String.eqb seg) cs = false.
Proof.
  intros Hseg. induction 1 as [|x l Hx _ IH]; [done|]. simpl. rewrite IH.
  destruct (String.eqb_spec seg x) as [->|]; [congruence|done].
Qed.

Lemma has_segment_render seg cs tr :
  name_ok seg = false -> seg <> "" ->
  Forall (fun y => name_ok y = true) cs -> has_segment seg (render cs tr) = false.
Proof.
  intros Hseg Hne Hok. unfold has_segment. destruct cs as [|x l].
  - simpl. destruct (String.eqb_spec seg ""); done.
  - rewrite split_render by done.
    change (existsb ?f ("" :: ?t)) with (f "" || existsb f t).
    rewrite existsb_app, (existsb_names seg (x :: l)) by done.
    destruct tr; simpl; destruct (String.eqb_spec seg ""); done.
Qed.

Lemma render_root_inv cs tr :
  Forall (fun y => name_ok y = true) cs -> render cs tr = "/" -> cs = [].
Proof.
  intros Hok. destruct cs as [|x l]; [done|].
  pose proof Hok as [Hx _]%Forall_cons. unfold render. rewrite sep_app.
  intros H0. pose proof (join_names_not_empty x l Hx) as Hj.
  assert (H : JS.join (x :: l) +:+ (if tr then "/" else "") = "") by congruence.
  destruct (JS.join (x :: l)); [done|]. rewrite app_cons in H. discriminate H.
Qed.




(** ** Construction, again *)

(** C7. Construction from a string fails, with the invalid-path error,
    exactly when the string is empty or does not start with the
    separator.  Otherwise it yields the string that [node:path]'s
    [normalize] makes of it, and that string is canonical: it starts
    with the separator, has no doubled separator and no "." or ".."
    segment, and is left unchanged by another normalization.  A string
    that is canonical already, rendered from plain names, is stored as
    it is.  [Path.abs] gives nothing exactly when the constructor
    throws, and the constructed value otherwise. *)
Theorem construct_spec (s : string) (input : string + Path) :
  (Path.constructor (inl s) = Throw (InvalidPath s)
     <-> s = "" \/ JS.starts_with_sep s = false)
  /\ ((exists e, Path.constructor (inl s) = Throw e)
     <-> s = "" \/ JS.starts_with_sep s = false)
  /\ (~ (s = "" \/ JS.starts_with_sep s = false) ->
      Path.constructor (inl s) = Ok (mkPath (NodePath.normalize s))
      /\ NodePath.normalize (NodePath.normalize s) = NodePath.normalize s
      /\ JS.starts_with_sep (NodePath.normalize s) = true
      /\ has_dup_sep (NodePath.normalize s) = false
      /\ has_segment "." (NodePath.normalize s) = false
      /\ has_segment ".." (NodePath.normalize s) = false)
  /\ (forall cs tr,
        Forall (fun x => name_ok x = true) cs ->
        Path.constructor (inl (render cs tr)) = Ok (mkPath (render cs tr)))
  /\ (Path.abs input = None <-> exists e, Path.constructor input = Throw e)
  /\ (forall p, Path.abs input = Some p <-> Path.constructor input = Ok p).
Proof.
  assert (Hok : ~ (s = "" \/ JS.starts_with_sep s = false) ->
                JS.starts_with_sep s = true).
  { destruct (JS.starts_with_sep s); tauto. }
  split; [|split; [|split; [|split; [|split]]]].
  - split; [|apply new_Path_throws].
    intros H. destruct (JS.starts_with_sep s) eqn:E; [|by right].
    rewrite new_Path_ok in H by done. discriminate.
  - split; [|intros H; eexists; by apply new_Path_throws].
    intros [e H]. destruct (JS.starts_with_sep s) eqn:E; [|by right].
    rewrite new_Path_ok in H by done. discriminate.
  - intros Habs%Hok.
    split; [by apply new_Path_ok|].
    split; [by apply normalize_idempotent|].
    rewrite (normalize_absolute s Habs).
    pose proof (kept_names_ok s) as Hk.
    split; [apply starts_with_sep_render|].
    split; [by apply has_dup_sep_render|].
    split; by apply has_segment_render.
  - intros cs tr Hcs.
    rewrite new_Path_ok by apply starts_with_sep_render.
    by rewrite normalize_render.
  - unfold Path.abs. split.
    + destruct (Path.constructor input); [discriminate|eauto].
    + intros [e ->]. reflexivity.
  - intros p. unfold Path.abs. split.
    + destruct (Path.constructor input); congruence.
    + intros ->. reflexivity.
Qed.

Lemma construct_spec_witness :
  Path.constructor (inl "/a//b/./c/../d") = Ok (mkPath "/a/b/d")
  /\ has_dup_sep "/a/b/d" = false.
Proof.
  assert (Hs : ~ ("/a//b/./c/../d" = "" \/
                  JS.starts_with_sep "/a//b/./c/../d" = false)).
  { intros [H|H]; discriminate H. }
  destruct (proj1 (proj2 (proj2 (construct_spec "/a//b/./c/../d"
                                    (inl "/a//b/./c/../d")))) Hs)
    as (H1 & _ & _ & H4 & _).
  split; [exact H1|exact H4].
Defined.


(** ** Path.readlink *)

Lemma new_Path_error input e :
  Path.constructor input = Throw e -> exists s, e = InvalidPath s.
Proof.
  destruct input as [s|p]; simpl; [|discriminate].
  destruct (_ || _); [|discriminate]. intros [= <-]. eauto.
Qed.

Lemma join_error this segments e :
  Path.join this segments = Throw e -> exists s, e = InvalidPath s.
Proof.
  unfold Path.join. destruct (JS.starts_with_sep _); [apply new_Path_error|].
  destruct (JS.truthy _); [apply new_Path_error|discriminate].
Qed.

Lemma parent_join_error this output e :
  (let! d := Path.parent this in Path.join d [output]) = Throw e ->
  exists s, e = InvalidPath s.
Proof.
  unfold Path.parent. destruct (Path.constructor _) as [d|e'] eqn:E; simpl.
  - apply join_error.
  - intros [= <-]. by eapply new_Path_error.
Qed.

(** Where the path names nothing, [Path.readlink] throws the not-found
    error, on every runtime. *)
Lemma readlink_missing (TypeError_codes : errno -> bool) (this : Path) (w : fs) :
  lstatSync w (pstring this) = Throw (SystemError ENOENT) ->
  Path.readlink TypeError_codes this w = Throw (SystemError ENOENT).
Proof.
  unfold lstatSync, Path.readlink, readlinkSync.
  destruct (namei w false (pstring this)) as [[q [n|]]|e]; simpl; [done| |].
  - intros _. by destruct (TypeError_codes ENOENT).
  - intros [= ->]. simpl. by destruct (TypeError_codes ENOENT).
Qed.

(** Where the path names a link, looked up without following it, the
    result is the link's target joined to the receiver's parent, on
    every runtime. *)
Lemma readlink_link (TypeError_codes : errno -> bool) (this : Path) (w : fs) q t :
  namei w false (pstring this) = Ok (q, Some (Symlink t)) ->
  Path.readlink TypeError_codes this w
  = (let! d := Path.parent this in Path.join d [t]).
Proof.
  unfold Path.readlink, readlinkSync. intros ->. simpl bind at 2.
  change (bind (Ok t) ?k) with (k t). cbv beta.
  destruct (let! d := Path.parent this in Path.join d [t]) as [p|e] eqn:E; [done|].
  apply parent_join_error in E as [s ->]. reflexivity.
Qed.

(** Where the path names an entry that is not a link, the platform
    refuses with [EINVAL], and what [Path.readlink] does hangs on the
    runtime: it returns the receiver when that error is a [TypeError],
    and lets the error out when it is not. *)
Lemma readlink_with_TypeError (TypeError_codes : errno -> bool) this w st :
  TypeError_codes EINVAL = true ->
  lstatSync w (pstring this) = Ok st -> stats_isSymbolicLink st = false ->
  Path.readlink TypeError_codes this w = Ok this.
Proof.
  intros HT. unfold lstatSync, Path.readlink, readlinkSync.
  destruct (namei w false (pstring this)) as [[q [[x| |t]|]]|e]; simpl;
    rewrite ?HT; try done.
  by intros [= <-].
Qed.

Lemma readlink_without_TypeError (TypeError_codes : errno -> bool) this w st :
  TypeError_codes EINVAL = false ->
  lstatSync w (pstring this) = Ok st -> stats_isSymbolicLink st = false ->
  Path.readlink TypeError_codes this w = Throw (SystemError EINVAL).
Proof.
  intros HT. unfold lstatSync, Path.readlink, readlinkSync.
  destruct (namei w false (pstring this)) as [[q [[x| |t]|]]|e]; simpl;
    rewrite ?HT; try done.
  by intros [= <-].
Qed.

(** C2, the defect.  The errors that [node:fs] raises are no
    [TypeError]s, so the test [err instanceof TypeError] fails and the
    branch that returns the receiver is never taken: on every path that
    names an entry which is not a symbolic link, [Path.readlink] throws
    the [EINVAL] of the platform.  The rest is as the claim says: where
    the path names nothing the not-found error comes out, and where it
    names a link the result is the link's target joined to the
    receiver's parent, the link being looked up without following it. *)
Theorem readlink_throws_on_non_link (this : Path) (w : fs) :
  (forall st,
     lstatSync w (pstring this) = Ok st -> stats_isSymbolicLink st = false ->
     Path.readlink no_TypeError this w = Throw (SystemError EINVAL))
  /\ (lstatSync w (pstring this) = Throw (SystemError ENOENT) ->
      Path.readlink no_TypeError this w = Throw (SystemError ENOENT))
  /\ (forall q t,
        namei w false (pstring this) = Ok (q, Some (Symlink t)) ->
        Path.readlink no_TypeError this w
        = (let! d := Path.parent this in Path.join d [t])).
Proof.
  split; [|split].
  - intros st. by apply readlink_without_TypeError.
  - apply readlink_missing.
  - intros q t. apply readlink_link.
Qed.

Lemma readlink_throws_on_non_link_witness :
  Path.exists_ (mkPath "/a") sample_fs = Some (mkPath "/a")
  /\ Path.isSymlink (mkPath "/a") sample_fs = None
  /\ Path.readlink no_TypeError (mkPath "/a") sample_fs
     = Throw (SystemError EINVAL)
  /\ Path.readlink no_TypeError (mkPath "/tmp/d") sample_fs
     = Throw (SystemError EINVAL)
  /\ Path.readlink no_TypeError (mkPath "/tmp/zz") sample_fs
     = Throw (SystemError ENOENT)
  /\ Path.readlink no_TypeError (mkPath "/tmp/k") sample_fs
     = Ok (mkPath "/tmp/l").
Proof.
  split; [reflexivity|]. split; [reflexivity|].
  split; [|split; [|split]].
  - apply (proj1 (readlink_throws_on_non_link (mkPath "/a") sample_fs)
             (mkStats RegularFile)); reflexivity.
  - apply (proj1 (readlink_throws_on_non_link (mkPath "/tmp/d") sample_fs)
             (mkStats Directory)); reflexivity.
  - apply (proj1 (proj2 (readlink_throws_on_non_link (mkPath "/tmp/zz")
                            sample_fs))).
    reflexivity.
  - rewrite (proj2 (proj2 (readlink_throws_on_non_link (mkPath "/tmp/k")
                             sample_fs)) ["tmp"; "k"] "l").
    + reflexivity.
    + reflexivity.
Defined.

(** ** Path.mv *)

(** Without [force] the destination is not looked at: [Path.mv] is the
    rename of the platform. *)
Lemma mv_without_force_is_rename this to force w :
  default false force = false ->
  Path.mv this (To to) force w =
  match renameSync w (pstring this) (pstring to) with
  | Ok w' => (Ok to, w')
  | Throw e => (Throw e, w)
  end.
Proof. intros H. unfold Path.mv. by rewrite H, andb_false_r. Qed.

(** C1, the defect.  Moving [/a] onto the existing [/b] without [force]
    throws nothing: the rename is done and [/b] gets the content of
    [/a].  With [force] the outcome is the same, as the claim says. *)
Theorem mv_without_force_overwrites :
  let r := Path.mv (mkPath "/a") (To (mkPath "/b")) None sample_fs in
  let r' := Path.mv (mkPath "/a") (To (mkPath "/b")) (Some false) sample_fs in
  let rf := Path.mv (mkPath "/a") (To (mkPath "/b")) (Some true) sample_fs in
  Path.exists_ (mkPath "/b") sample_fs = Some (mkPath "/b")
  /\ r.1 = Ok (mkPath "/b")
  /\ files r.2 !! ["b"] = Some (File "x") /\ files r.2 !! ["a"] = None
  /\ r'.1 = Ok (mkPath "/b")
  /\ files r'.2 !! ["b"] = Some (File "x") /\ files r'.2 !! ["a"] = None
  /\ rf.1 = Ok (mkPath "/b")
  /\ files rf.2 !! ["b"] = Some (File "x") /\ files rf.2 !! ["a"] = None.
Proof. vm_compute. repeat split; reflexivity. Qed.

(** ** Path.mktemp *)

(** With a directory given, the prefix is not used and the name created
    is the directory's string followed by the suffix. *)
Lemma mktemp_dir_string prefix d suffix w p w' :
  Path.mktemp (Some {| prefix := prefix; dir := Some d |}) suffix w = (Ok p, w') ->
  pstring p = NodePath.normalize (pstring d +:+ suffix).
Proof.
  unfold Path.mktemp, Path.mkdir. simpl.
  destruct (Path.isDirectory d w); simpl.
  - unfold mkdtempSync. destruct (mkdirSync w _ false); simpl; [|discriminate].
    intros [= H _]. apply new_Path_string_inv in H as [_ ->]. reflexivity.
  - destruct (mkdirSync w (pstring d) true); simpl; [|discriminate].
    unfold mkdtempSync. destruct (mkdirSync _ _ false); simpl; [|discriminate].
    intros [= H _]. apply new_Path_string_inv in H as [_ ->]. reflexivity.
Qed.

(** C5, the defect.  For the parent directory [/tmp/foo/bar],
    [Path.mktemp] creates the missing [/tmp/foo] and [/tmp/foo/bar], and
    then returns [/tmp/foo/barabc123], which it created next to the
    parent directory and not inside it. *)
Theorem mktemp_beside_parent :
  let d := mkPath "/tmp/foo/bar" in
  let r := Path.mktemp (Some {| prefix := None; dir := Some d |}) "abc123" sample_fs in
  r.1 = Ok (mkPath "/tmp/foo/barabc123")
  /\ files r.2 !! ["tmp"; "foo"] = Some Dir
  /\ files r.2 !! ["tmp"; "foo"; "bar"] = Some Dir
  /\ files r.2 !! ["tmp"; "foo"; "barabc123"] = Some Dir
  /\ Path.parent (mkPath "/tmp/foo/barabc123") = Ok (mkPath "/tmp/foo")
  /\ ~ path_comps (pstring d) `prefix_of` path_comps "/tmp/foo/barabc123".
Proof.
  vm_compute. repeat split; try reflexivity.
  intros [k Hk]. discriminate Hk.
Qed.

(** ** Path.relative *)

Lemma relative_loop_same fuel l : Path.relative_loop fuel l l = None.
Proof.
  revert l. induction fuel as [|fuel IH]; intros l; [reflexivity|]. simpl.
  assert (JS.loose_eq (JS.first l) (JS.first l) = true) as ->.
  { destruct l; simpl; [done|]. apply String.eqb_refl. }
  apply IH.
Qed.

(** C4, the defect.  The string of [/foo] is a prefix of the string of
    [/foobar], so [Path.relative] takes its short cut and answers the
    empty string; joined to [/foo] that gives [/foo], and not
    [/foobar]. *)
Theorem relative_string_prefix (fuel : nat) :
  Path.relative fuel (mkPath "/foobar") (mkPath "/foo") = Some ""
  /\ Path.join (mkPath "/foo") [""] = Ok (mkPath "/foo")
  /\ mkPath "/foo" <> mkPath "/foobar"
  /\ Path.relative fuel (mkPath "/foo/barbaz/x") (mkPath "/foo/bar") = Some "x"
  /\ Path.join (mkPath "/foo/bar") ["x"] = Ok (mkPath "/foo/bar/x").
Proof. repeat split; try reflexivity. discriminate. Qed.

(** ** Path-name resolution *)

Lemma node_at_snoc (m : gmap (list string) node) cur c :
  node_at m (cur ++ [c]) = m !! (cur ++ [c]).
Proof. by destruct cur. Qed.




(** The entry that a resolution reports is the entry at the location it
    reports. *)
Lemma walk_comps_node_at (m : gmap (list string) node) fl b todo :
  (forall dir t rest q o, fl dir t rest = Ok (q, o) -> o = node_at m q) ->
  forall cur q o,
    walk_comps m fl b cur todo = Ok (q, o) -> o = node_at m q.
Proof.
  intros Hfl. induction todo as [|c rest IH]; intros cur q o; simpl.
  - by intros [= <- <-].
  - destruct (String.eqb c "."); [apply IH|].
    destruct (String.eqb c ".."); [apply IH|].
    destruct (m !! (cur ++ [c])) as [nd|] eqn:E.
    + destruct nd as [x| |t]; [|apply IH|].
      * destruct (is_nil rest); [|done].
        intros [= <- <-]. by rewrite node_at_snoc.
      * destruct (is_nil rest && negb b); [|apply Hfl].
        intros [= <- <-]. by rewrite node_at_snoc.
    + destruct (is_nil rest); [|done].
      intros [= <- <-]. by rewrite node_at_snoc.
Qed.

Lemma namei_from_node_at (m : gmap (list string) node) hops b :
  forall cur todo q o,
    namei_from hops m b cur todo = Ok (q, o) -> o = node_at m q.
Proof.
  induction hops as [|hops IH]; intros cur todo q o; simpl;
    apply walk_comps_node_at; try done.
  intros dir t rest q' o'. apply IH.
Qed.

(** What a resolution that returns says: the names and the separator
    at the end, if any, were walked, and behind a separator at the end
    is a directory. *)
Lemma namei_inv (w : fs) b path q o :
  namei w b path = Ok (q, o) ->
  String.eqb path "" = false
  /\ namei_from SYMLOOP_MAX (files w) b
       (if JS.starts_with_sep path then [] else cwd w) (resolve_comps path)
     = Ok (q, o)
  /\ (JS.ends_with_sep path = true -> o = Some Dir).
Proof.
  unfold namei. destruct (String.eqb path ""); [done|].
  destruct (namei_from _ _ _ _ _) as [[q' o']|e]; [|done]. cbn [bind fst snd].
  destruct (JS.ends_with_sep path).
  - destruct o' as [[x| |t]|]; try done. by intros [= <- <-].
  - by intros [= <- <-].
Qed.

Lemma namei_intro (w : fs) b path q o :
  String.eqb path "" = false ->
  namei_from SYMLOOP_MAX (files w) b
    (if JS.starts_with_sep path then [] else cwd w) (resolve_comps path)
  = Ok (q, o) ->
  (JS.ends_with_sep path = true -> o = Some Dir) ->
  namei w b path = Ok (q, o).
Proof.
  intros Hne Hw Hd. unfold namei. rewrite Hne, Hw. cbn [bind fst snd].
  destruct (JS.ends_with_sep path); [|done]. by rewrite (Hd eq_refl).
Qed.

Lemma namei_node_at (w : fs) b path q o :
  namei w b path = Ok (q, o) -> o = node_at (files w) q.
Proof. intros (_ & H & _)%namei_inv. by eapply namei_from_node_at. Qed.

(** Where the resolution that follows a last link finds an entry, the one
    that does not follow it finds one too. *)
Lemma walk_comps_follow_nofollow (m : gmap (list string) node) flt flf todo :
  (forall dir t rest r n,
     flt dir t rest = Ok (r, Some n) ->
     exists q n', flf dir t rest = Ok (q, Some n')) ->
  forall cur r n,
    walk_comps m flt true cur todo = Ok (r, Some n) ->
    exists q n', walk_comps m flf false cur todo = Ok (q, Some n').
Proof.
  intros Hfl. induction todo as [|c rest IH]; intros cur r n; simpl.
  - eauto.
  - destruct (String.eqb c "."); [apply IH|].
    destruct (String.eqb c ".."); [apply IH|].
    destruct (m !! (cur ++ [c])) as [nd|] eqn:E.
    + destruct nd as [x| |t]; [|apply IH|].
      * destruct (is_nil rest); [eauto|done].
      * rewrite andb_false_r, andb_true_r.
        destruct (is_nil rest); [eauto|apply Hfl].
    + destruct (is_nil rest); discriminate.
Qed.

Lemma namei_from_follow_nofollow (m : gmap (list string) node) hops :
  forall cur todo r n,
    namei_from hops m true cur todo = Ok (r, Some n) ->
    exists q n', namei_from hops m false cur todo = Ok (q, Some n').
Proof.
  induction hops as [|hops IH]; intros cur todo r n; simpl;
    apply walk_comps_follow_nofollow; try done.
  intros dir t rest r' n'. apply IH.
Qed.



(** ** Path.rm *)

Lemma remove_tree_lookup (q : list string) (m : gmap (list string) node) k :
  remove_tree q m !! k = if decide (q `prefix_of` k) then None else m !! k.
Proof.
  unfold remove_tree. destruct (decide (q `prefix_of` k)) as [H|H].
  - apply map_lookup_filter_None. right. intros x _ Hx. by apply Hx.
  - destruct (m !! k) as [x|] eqn:E.
    + apply map_lookup_filter_Some. split; done.
    + apply map_lookup_filter_None. by left.
Qed.


Lemma node_at_nonroot (m : gmap (list string) node) (q : list string) :
  q <> [] -> node_at m q = m !! q.
Proof. by destruct q. Qed.

(** Without a separator at its end, a path name is resolved by its
    names. *)
Lemma resolve_comps_no_trailing s :
  JS.ends_with_sep s = false -> resolve_comps s = path_comps s.
Proof. unfold resolve_comps. intros ->. apply app_nil_r. Qed.

Lemma namei_no_trailing (w : fs) b path :
  JS.ends_with_sep path = false -> namei w b path = namei_names w b path.
Proof.
  intros H. unfold namei, namei_names.
  rewrite resolve_comps_no_trailing, H by done.
  destruct (String.eqb path ""); [done|].
  by destruct (namei_from _ _ _ _ _) as [[q o]|e].
Qed.

Lemma namei_names_node_at (w : fs) b path q o :
  namei_names w b path = Ok (q, o) -> o = node_at (files w) q.
Proof.
  unfold namei_names. destruct (String.eqb path ""); [done|].
  apply namei_from_node_at.
Qed.








(** ** Path.walk *)

Lemma tree_ind_nested (P : tree -> Prop) :
  P FileLeaf -> P LinkLeaf ->
  (forall cs, Forall (fun c => P c.2) cs -> P (DirNode cs)) ->
  forall t, P t.
Proof.
  intros Hf Hl Hd. fix IH 1. intros [| |cs]; [done|done|].
  apply Hd. induction cs as [|c cs IHcs]; constructor; [apply IH|apply IHcs].
Qed.

Lemma path_comps_render q tr :
  Forall (fun x => name_ok x = true) q -> path_comps (render q tr) = q.
Proof.
  intros Hok. unfold path_comps. destruct q as [|x l]; [reflexivity|].
  rewrite split_render by done. rewrite filter_truthy_cons. simpl JS.truthy.
  cbn iota. rewrite filter_app.
  assert (filter (fun x => Is_true (JS.truthy x)) (x :: l) = x :: l) as ->.
  { clear tr. induction Hok as [|y l' Hy _ IH]; [done|].
    rewrite filter_truthy_cons, IH.
    apply name_ok_spec in Hy as [Hy%truthy_true _]. by rewrite Hy. }
  destruct tr; [|by rewrite app_nil_r]. by rewrite app_nil_r.
Qed.

(** The child of a directory: the names of the directory and the name of
    the entry, with no trailing separator. *)
Lemma join_child p q tr n :
  pstring p = render q tr ->
  Forall (fun x => name_ok x = true) q -> name_ok n = true ->
  Path.join p [n] = Ok (at_names (q ++ [n])).
Proof.
  intros Hp Hq Hn. pose proof Hn as (Hn1 & _ & _ & Hn2)%name_ok_spec.
  pose proof (join_cases p [n]) as H.
  rewrite filter_truthy_cons in H.
  rewrite (proj2 (truthy_true n) Hn1) in H. simpl filter in H.
  rewrite starts_with_sep_no_sep in H by done. rewrite H. simpl JS.join.
  rewrite new_Path_ok.
  2:{ rewrite Hp, starts_with_sep_app; [apply starts_with_sep_render|].
      apply starts_with_sep_not_empty, starts_with_sep_render. }
  unfold at_names. do 2 f_equal.
  rewrite normalize_absolute.
  2:{ rewrite Hp, starts_with_sep_app; [apply starts_with_sep_render|].
      apply starts_with_sep_not_empty, starts_with_sep_render. }
  assert (kept_names (pstring p +:+ "/" +:+ n) = q ++ [n]) as ->.
  { unfold kept_names. rewrite split_app_sep, fold_left_app.
    fold (kept_names (pstring p)). rewrite Hp, kept_names_render by done.
    rewrite split_no_sep by done. simpl. by apply normalize_step_name. }
  rewrite ends_with_sep_app by (rewrite sep_app; discriminate).
  rewrite sep_app, ends_with_sep_cons by done.
  by rewrite ends_with_sep_no_sep.
Qed.

Lemma representsb_inv w p cs :
  representsb w p (DirNode cs) = true ->
  opendir w (pstring p) = Ok (map dirent_of cs)
  /\ Forall (fun c => forall p', Path.join p [c.1] = Ok p' ->
                      representsb w p' c.2 = true) cs.
Proof.
  simpl. intros [H1 H2]%andb_true_iff. split.
  - by apply bool_decide_eq_true in H1.
  - apply Forall_forall. intros c Hc p' Hp'.
    rewrite forallb_forall in H2. specialize (H2 c).
    rewrite Hp' in H2. apply H2. by apply list_elem_of_In.
Qed.

Lemma names_okb_inv cs :
  names_okb (DirNode cs) = true ->
  NoDup (map fst cs)
  /\ Forall (fun c => name_ok c.1 = true /\ names_okb c.2 = true) cs.
Proof.
  simpl. intros [H1 H2]%andb_true_iff. split.
  - by apply bool_decide_eq_true in H1.
  - apply Forall_forall. intros c Hc.
    rewrite forallb_forall in H2. apply andb_true_iff, H2.
    by apply list_elem_of_In.
Qed.

Lemma filter_dir_cons (c : string * tree) (cs : list (string * tree)) :
  filter (fun c => Is_true (tree_is_dir c.2)) (c :: cs) =
  if tree_is_dir c.2 then c :: filter (fun c => Is_true (tree_is_dir c.2)) cs
  else filter (fun c => Is_true (tree_is_dir c.2)) cs.
Proof. rewrite filter_cons. by destruct (tree_is_dir c.2). Qed.

(** One directory taken off the stack: every child is yielded, and the
    children that are directories are pushed, in their order. *)
Lemma walk_entries_spec p q tr cs stack :
  pstring p = render q tr ->
  Forall (fun x => name_ok x = true) q ->
  Forall (fun c : string * tree => name_ok c.1 = true) cs ->
  Path.walk_entries p (map dirent_of cs) stack =
  (map (fun c => (at_names (q ++ [c.1]), dirent_of c)) cs,
   Ok (stack ++ map item_path (child_items q cs))).
Proof.
  intros Hp Hq Hcs. revert stack.
  induction Hcs as [|c cs Hc _ IH]; intros stack.
  - simpl. by rewrite app_nil_r.
  - cbn [map Path.walk_entries]. change (name (dirent_of c)) with c.1.
    rewrite (join_child p q tr c.1) by done.
    rewrite IH. cbn [fst snd]. f_equal. f_equal.
    unfold child_items. rewrite filter_dir_cons.
    change (dirent_isDirectory (dirent_of c)) with
      (match tree_type c.2 with Directory => true | _ => false end).
    destruct c as [n [| |cs']]; simpl; try done.
    by rewrite <- app_assoc.
Qed.

Lemma child_items_cost q cs :
  list_sum (map item_cost (child_items q cs)) = count_dirs (DirNode cs).
Proof.
  unfold child_items. simpl count_dirs.
  induction cs as [|c cs IH]; [reflexivity|].
  rewrite filter_dir_cons. destruct c as [n [| |cs']]; simpl; try apply IH.
  unfold item_cost at 1. simpl. f_equal. f_equal. apply IH.
Qed.

Lemma child_items_ok w p q tr cs :
  pstring p = render q tr ->
  Forall (fun x => name_ok x = true) q ->
  names_okb (DirNode cs) = true ->
  representsb w p (DirNode cs) = true ->
  Forall (item_ok w) (child_items q cs).
Proof.
  intros Hp Hq [_ Hn]%names_okb_inv [_ Hr]%representsb_inv.
  unfold child_items. apply Forall_map.
  rewrite Forall_forall in Hn, Hr. apply Forall_forall.
  intros c [Hdir Hc]%list_elem_of_filter. destruct (Hn c Hc) as [Hn1 Hn2].
  repeat split; simpl.
  - apply Forall_app. split; [done|]. by constructor.
  - done.
  - apply (Hr c Hc). by apply (join_child p q tr).
  - by apply Is_true_true.
Qed.

Lemma walk_yields_leaf q t : tree_is_dir t = false -> walk_yields q t = [].
Proof. by destruct t. Qed.

Lemma child_items_yields q cs :
  concat (rev (map (fun it : item => walk_yields it.1.1 it.2) (child_items q cs)))
  = concat (rev (map (fun c => walk_yields (q ++ [c.1]) c.2) cs)).
Proof.
  unfold child_items. induction cs as [|c cs IH]; [reflexivity|].
  rewrite filter_dir_cons. cbn [map rev]. rewrite concat_app. simpl concat.
  destruct (tree_is_dir c.2) eqn:E.
  - cbn [map rev]. rewrite concat_app, IH. reflexivity.
  - rewrite IH, walk_yields_leaf by done. by rewrite !app_nil_r.
Qed.

(** The loop of [Path.walk], run with fuel for every directory on the
    stack and below: it ends, having yielded for the entries of the
    stack, top first, what [walk_yields] says. *)
Lemma walk_loop_spec w fuel (items : list item) :
  Forall (item_ok w) items ->
  list_sum (map item_cost items) <= fuel ->
  Path.walk_loop fuel w (map item_path items) =
  (concat (rev (map (fun it : item => walk_yields it.1.1 it.2) items)), Done).
Proof.
  revert items. induction fuel as [|fuel IH]; intros items Hok Hfuel.
  - destruct items as [|it items]; [reflexivity|].
    simpl in Hfuel. unfold item_cost in Hfuel. lia.
  - destruct (decide (items = [])) as [->|Hne]; [reflexivity|].
    destruct (exists_last Hne) as (its & it & ->).
    apply Forall_app in Hok as [Hits [Hit _]%Forall_cons].
    destruct it as [[q tr] t]. destruct Hit as (Hq & Hn & Hr & Hd).
    simpl in Hq, Hn, Hr, Hd. destruct t as [| |cs]; [done..|].
    pose proof Hr as [Hopen _]%representsb_inv.
    pose proof Hn as [_ Hnames]%names_okb_inv.
    rewrite map_app. cbn [map Path.walk_loop].
    rewrite last_snoc. rewrite Hopen.
    rewrite removelast_last.
    assert (Hcs : Forall (fun c : string * tree => name_ok c.1 = true) cs).
    { eapply Forall_impl; [exact Hnames|]. by intros c [? _]. }
    rewrite (walk_entries_spec _ q tr cs) by done.
    cbn [fst snd]. rewrite <- map_app.
    rewrite IH.
    + cbn [fst snd]. f_equal.
      rewrite !map_app, !rev_app_distr, !concat_app. cbn [map rev concat app].
      rewrite child_items_yields, app_nil_r. by rewrite app_assoc.
    + apply Forall_app. split; [done|].
      by apply (child_items_ok w (mkPath (render q tr)) q tr).
    + rewrite map_app, list_sum_app in Hfuel |- *.
      rewrite child_items_cost. simpl in Hfuel. simpl count_dirs. lia.
Qed.

(** What [Path.walk] yields is, in another order, the entries below the
    root. *)
Lemma walk_yields_entries t :
  forall q,
    walk_yields q t ≡ₚ
    map (fun e : list string * Dirent => (at_names (q ++ e.1), e.2))
        (entries_below t).
Proof.
  induction t as [| |cs H] using tree_ind_nested; intros q; [done|done|].
  cbn [walk_yields entries_below].
  induction H as [|c cs Hc _ IHcs]; [done|].
  cbn [map rev concat]. rewrite concat_app, map_app. cbn [concat map app fst snd].
  rewrite app_nil_r. apply Permutation_cons; [done|].
  rewrite <- IHcs, app_assoc, Permutation_app_comm.
  apply Permutation_app; [|done].
  rewrite (Hc (q ++ [c.1])), map_map.
  apply Permutation_refl'. apply map_ext. intros e. simpl.
  by rewrite <- app_assoc.
Qed.

Lemma entries_below_length t :
  length (entries_below t) = count_files t + count_dirs t.
Proof.
  induction t as [| |cs H] using tree_ind_nested; [done|done|].
  cbn [entries_below count_files count_dirs].
  induction H as [|c cs Hc _ IHcs]; [done|].
  cbn [map concat list_sum]. rewrite length_app. cbn [length].
  rewrite length_map, Hc, IHcs. cbn [list_sum fold_right].
  fold (list_sum (map (fun c0 : string * tree =>
          (if tree_is_dir c0.2 then 0 else 1) + count_files c0.2) cs)).
  fold (list_sum (map (fun c0 : string * tree =>
          (if tree_is_dir c0.2 then 1 else 0) + count_dirs c0.2) cs)).
  destruct (tree_is_dir c.2); lia.
Qed.

Lemma entries_below_inv cs (e : list string * Dirent) :
  e ∈ entries_below (DirNode cs) ->
  exists c, c ∈ cs
    /\ (e = ([c.1], dirent_of c)
        \/ exists e', e' ∈ entries_below c.2 /\ e = (c.1 :: e'.1, e'.2)).
Proof.
  cbn [entries_below]. induction cs as [|c cs IH]; cbn [map concat].
  - by intros ?%elem_of_nil.
  - rewrite elem_of_app, elem_of_cons. intros [[->|He]|He].
    + exists c. split; [left|by left].
    + exists c. split; [left|]. right.
      apply list_elem_of_In, in_map_iff in He as (e' & <- & He').
      exists e'. split; [by apply list_elem_of_In|done].
    + destruct (IH He) as (c' & Hc' & H). exists c'. split; [by right|done].
Qed.

Lemma entries_below_not_root t (e : list string * Dirent) :
  e ∈ entries_below t -> e.1 <> [].
Proof.
  destruct t as [| |cs]; [by intros ?%elem_of_nil..|].
  intros (c & _ & [->|(e' & _ & ->)])%entries_below_inv; done.
Qed.

Lemma entries_below_names t :
  names_okb t = true ->
  forall e : list string * Dirent,
    e ∈ entries_below t -> Forall (fun x => name_ok x = true) e.1.
Proof.
  induction t as [| |cs H] using tree_ind_nested;
    [by intros _ e ?%elem_of_nil..|].
  intros [_ Hn]%names_okb_inv e (c & Hc & He)%entries_below_inv.
  rewrite Forall_forall in H, Hn. destruct (Hn c Hc) as [Hn1 Hn2].
  destruct He as [->|(e' & He' & ->)]; simpl.
  - by constructor.
  - constructor; [done|]. by apply (H c Hc Hn2).
Qed.

Lemma entries_below_NoDup t :
  names_okb t = true -> NoDup (map fst (entries_below t)).
Proof.
  induction t as [| |cs H] using tree_ind_nested; [constructor..|].
  intros [Hnd Hn]%names_okb_inv. cbn [entries_below].
  induction H as [|c cs Hc _ IHcs]; [constructor|].
  apply Forall_cons in Hn as [[Hn1 Hn2] Hn]. cbn [map] in Hnd.
  apply NoDup_cons in Hnd as [Hc1 Hnd].
  cbn [map concat]. rewrite map_app. apply NoDup_app. split; [|split].
  - cbn [map fst]. apply NoDup_cons. split.
    + intros (r & Heq & Hr)%list_elem_of_In%in_map_iff.
      apply in_map_iff in Hr as (e' & <- & He'). simpl in Heq.
      apply list_elem_of_In, entries_below_not_root in He'.
      destruct e'.1; [done|discriminate].
    + rewrite map_map. cbn [fst].
      rewrite <- (map_map fst (cons c.1)).
      apply (NoDup_fmap_2 (cons c.1)). by apply Hc.
  - intros r Hr Hr'.
    assert (head r = Some c.1) as Hhead.
    { cbn [map fst] in Hr. apply elem_of_cons in Hr as [->|Hr]; [done|].
      apply list_elem_of_In, in_map_iff in Hr as (e & <- & He).
      apply in_map_iff in He as (e' & <- & _). done. }
    apply list_elem_of_In, in_map_iff in Hr' as (e & <- & He).
    apply list_elem_of_In in He.
    change (concat (map ?f cs)) with (entries_below (DirNode cs)) in He.
    apply entries_below_inv in He as (c' & Hc' & He).
    apply Hc1. apply list_elem_of_In, in_map_iff. exists c'.
    split; [|by apply list_elem_of_In].
    destruct He as [->|(e' & _ & ->)]; simpl in Hhead; congruence.
  - by apply IHcs.
Qed.

Lemma at_names_inj q q' :
  Forall (fun x => name_ok x = true) q ->
  Forall (fun x => name_ok x = true) q' ->
  at_names q = at_names q' -> q = q'.
Proof.
  intros Hq Hq' [= H].
  by rewrite <- (kept_names_render q false), H, kept_names_render.
Qed.

(** C6.  Let the platform list the tree [DirNode cs] at the directory
    [top], a tree of finitely many files, links and directories whose
    names are proper and differ within a directory.  Then [Path.walk],
    given fuel for one iteration per directory, ends after yielding one
    pair for every entry below the root: as many pairs as there are
    files and directories below it, no path twice, never the root, and
    the paths of the entries of the tree.  In one iteration every child
    of the directory taken off the stack is yielded, and the children
    that are directories are pushed. *)
Theorem walk_spec (w : fs) (top : Path) (cs : list (string * tree)) :
  constructed top ->
  names_okb (DirNode cs) = true ->
  representsb w top (DirNode cs) = true ->
  let q := path_comps (pstring top) in
  let yielded := walk_yields q (DirNode cs) in
  (forall fuel, count_dirs (DirNode cs) < fuel ->
     Path.walk top fuel w = (yielded, Done))
  /\ length yielded = count_files (DirNode cs) + count_dirs (DirNode cs)
  /\ NoDup (map fst yielded)
  /\ (top ∉ map fst yielded)
  /\ yielded ≡ₚ
       map (fun e : list string * Dirent => (at_names (q ++ e.1), e.2))
           (entries_below (DirNode cs))
  /\ (forall stack,
        Path.walk_entries top (map dirent_of cs) stack =
        (map (fun c => (at_names (q ++ [c.1]), dirent_of c)) cs,
         Ok (stack ++ map item_path (child_items q cs)))).
Proof.
  intros Hc Hn Hr q yielded.
  destruct (constructed_canonical top Hc) as (q' & tr & Hq' & Hp).
  assert (q = q') as Hq by (subst q; rewrite Hp; by apply path_comps_render).
  subst q'. clearbody q. subst yielded.
  assert (Htop : top = item_path (q, tr, DirNode cs)).
  { destruct top as [s]. simpl in Hp. by rewrite Hp. }
  pose proof (walk_yields_entries (DirNode cs) q) as Hperm.
  assert (Hfst : map fst (walk_yields q (DirNode cs)) ≡ₚ
                 map (fun r => at_names (q ++ r)) (map fst (entries_below (DirNode cs)))).
  { rewrite Hperm, !map_map. done. }
  split; [|split; [|split; [|split; [|split]]]].
  - intros fuel Hfuel. unfold Path.walk.
    change [top] with (map id [top]). rewrite Htop.
    change (map id [item_path (q, tr, DirNode cs)])
      with (map item_path [(q, tr, DirNode cs)]).
    rewrite walk_loop_spec.
    + cbn [map rev concat app fst snd]. by rewrite app_nil_r.
    + constructor; [|constructor]. repeat split; try done.
      by rewrite <- Htop.
    + cbn [map list_sum fold_right]. unfold item_cost. cbn [snd]. lia.
  - rewrite Hperm, length_map. apply entries_below_length.
  - rewrite Hfst. apply NoDup_fmap_2_strong; [|by apply entries_below_NoDup].
    intros r r' Hr1 Hr2 Heq.
    apply list_elem_of_In, in_map_iff in Hr1 as (e & <- & He).
    apply list_elem_of_In, in_map_iff in Hr2 as (e' & <- & He').
    apply list_elem_of_In, (entries_below_names _ Hn) in He, He'.
    apply at_names_inj in Heq; [by apply app_inv_head in Heq|..];
      by apply Forall_app.
  - rewrite Hfst. intros (r & Heq & Hr')%list_elem_of_In%in_map_iff.
    apply in_map_iff in Hr' as (e & <- & He).
    apply list_elem_of_In in He.
    pose proof (entries_below_names _ Hn e He) as Hnames.
    apply entries_below_not_root in He. apply He.
    assert (kept_names (pstring top) = q ++ e.1) as Hk.
    { rewrite <- Heq. simpl. apply kept_names_render. by apply Forall_app. }
    rewrite Hp, kept_names_render in Hk by done.
    apply (app_inv_head q). by rewrite app_nil_r.
  - done.
  - intros stack. apply (walk_entries_spec top q tr); try done.
    apply names_okb_inv in Hn as [_ Hn].
    eapply Forall_impl; [exact Hn|]. by intros c [? _].
Qed.

Lemma walk_spec_witness :
  Path.walk (mkPath "/tmp") 3 sample_fs =
  ([ (mkPath "/tmp/l", mkDirent "l" SymbolicLink);
     (mkPath "/tmp/k", mkDirent "k" SymbolicLink);
     (mkPath "/tmp/e", mkDirent "e" Directory);
     (mkPath "/tmp/d", mkDirent "d" Directory);
     (mkPath "/tmp/d/f", mkDirent "f" RegularFile) ], Done).
Proof.
  assert (Hc : constructed (mkPath "/tmp")).
  { apply (constructed_new "/tmp"). reflexivity. }
  assert (Hn : names_okb sample_tree = true) by (vm_compute; reflexivity).
  assert (Hr : representsb sample_fs (mkPath "/tmp") sample_tree = true)
    by (vm_compute; reflexivity).
  rewrite (proj1 (walk_spec sample_fs (mkPath "/tmp") _ Hc Hn Hr) 3);
    [reflexivity|].
  vm_compute. lia.
Defined.

(** ** relative, where it is right *)

Lemma prefix_app s t : String.prefix s (s +:+ t) = true.
Proof.
  induction s as [|c s IH]; [by destruct t|].
  rewrite app_cons. simpl. by destruct (ascii_dec c c).
Qed.

Lemma prefix_refl s : String.prefix s s = true.
Proof. rewrite <- (app_empty_r s) at 2. apply prefix_app. Qed.

(** Equal paths have the empty relative string. *)
Lemma relative_same fuel p : Path.relative fuel p p = Some "".
Proof.
  unfold Path.relative, JS.startsWith, JS.slice. rewrite prefix_refl.
  by rewrite drop_all.
Qed.

(** The loop removes a common prefix and stops at the first place where
    the two lists differ. *)
Lemma relative_loop_strips c a b fuel :
  JS.loose_eq (JS.first a) (JS.first b) = false ->
  length c < fuel ->
  Path.relative_loop fuel (c ++ a) (c ++ b) = Some (a, b).
Proof.
  intros Hab. revert fuel. induction c as [|x c IH]; intros fuel Hfuel.
  - destruct fuel; [lia|]. simpl. by rewrite Hab.
  - destruct fuel; [simpl in Hfuel; lia|]. simpl. rewrite String.eqb_refl.
    apply IH. simpl in Hfuel. lia.
Qed.

Lemma common_prefix (l1 l2 : list string) :
  exists c a b, l1 = c ++ a /\ l2 = c ++ b
    /\ (JS.loose_eq (JS.first a) (JS.first b) = false \/ a = [] /\ b = []).
Proof.
  revert l2. induction l1 as [|x l1 IH]; intros l2.
  - exists [], [], l2. destruct l2; simpl; auto.
  - destruct l2 as [|y l2].
    + exists [], (x :: l1), []. simpl. auto.
    + destruct (String.eqb_spec x y) as [->|Hxy].
      * destruct (IH l2) as (c & a & b & -> & -> & H).
        exists (y :: c), a, b. auto.
      * exists [], (x :: l1), (y :: l2). simpl.
        apply String.eqb_neq in Hxy. rewrite Hxy. auto.
Qed.

(** [".."] segments undo as many names. *)
Lemma fold_normalize_dotdot c b :
  Forall (fun x => name_ok x = true) (c ++ b) ->
  fold_left (NodePath.normalize_step false) (repeat ".." (length b)) (c ++ b) = c.
Proof.
  induction b as [|x b IH] using rev_ind; intros Hok.
  - simpl. by rewrite app_nil_r.
  - rewrite length_app. simpl length. rewrite Nat.add_comm. simpl repeat.
    cbn [fold_left]. rewrite app_assoc.
    assert (NodePath.normalize_step false ((c ++ b) ++ [x]) ".." = c ++ b) as ->.
    { unfold NodePath.normalize_step. simpl String.eqb. cbn iota.
      rewrite last_snoc.
      rewrite app_assoc in Hok. apply Forall_app in Hok as [_ [Hx _]%Forall_cons].
      apply name_ok_spec in Hx as (_ & _ & Hx & _).
      apply String.eqb_neq in Hx. rewrite Hx. apply removelast_last. }
    apply IH. rewrite app_assoc in Hok. by apply Forall_app in Hok as [? _].
Qed.

Lemma join_not_empty x l : x <> "" -> JS.join (x :: l) <> "".
Proof.
  intros Hx. destruct l; simpl; [done|]. destruct x; [done|discriminate].
Qed.

Lemma ends_with_sep_join_segments l :
  Forall (fun x => has_sep x = false /\ x <> "") l ->
  JS.ends_with_sep (JS.join l) = false.
Proof.
  induction l as [|x l IH]; [done|]. intros [[Hx Hx'] Hl]%Forall_cons.
  destruct l as [|y l]; [by apply ends_with_sep_no_sep|].
  pose proof Hl as [[_ Hy] _]%Forall_cons.
  rewrite join_cons2.
  rewrite ends_with_sep_app by (rewrite sep_app; discriminate).
  rewrite sep_app, ends_with_sep_cons by (by apply join_not_empty).
  by apply IH.
Qed.

Lemma relative_segments n a :
  Forall (fun x => name_ok x = true) a ->
  Forall (fun x => has_sep x = false /\ x <> "") (repeat ".." n ++ a).
Proof.
  intros Ha. apply Forall_app. split.
  - induction n; simpl; by constructor.
  - eapply Forall_impl; [exact Ha|]. intros x Hx.
    apply name_ok_spec in Hx. tauto.
Qed.

(** The general path of [relative]: the common leading names are
    dropped, one [".."] stands for each name left of the base, and the
    names left of the receiver follow. *)
Lemma relative_general c a b tra trb fuel :
  Forall (fun x => name_ok x = true) (c ++ a) ->
  Forall (fun x => name_ok x = true) (c ++ b) ->
  JS.loose_eq (JS.first a) (JS.first b) = false ->
  JS.startsWith (render (c ++ a) tra) (render (c ++ b) trb) = false ->
  S (length c) < fuel ->
  Path.relative fuel (mkPath (render (c ++ a) tra)) (mkPath (render (c ++ b) trb))
  = Some (JS.join (repeat ".." (length b) ++ a)).
Proof.
  intros Ha Hb Hab Hsw Hfuel. unfold Path.relative. simpl pstring.
  rewrite Hsw.
  change (filter _ (JS.split ?s)) with (path_comps s).
  rewrite !path_comps_render by done.
  change (["/"] ++ c ++ ?x) with (("/" :: c) ++ x).
  rewrite relative_loop_strips; [done|done|]. simpl. lia.
Qed.

(** Joining segments that are not empty and have no separator: they are
    normalized after the names of the receiver. *)
Lemma join_segments q tr segs :
  Forall (fun x => name_ok x = true) q ->
  segs <> [] ->
  Forall (fun x => has_sep x = false /\ x <> "") segs ->
  Path.join (mkPath (render q tr)) [JS.join segs]
  = Ok (at_names (fold_left (NodePath.normalize_step false) segs q)).
Proof.
  intros Hq Hne Hsegs. destruct segs as [|x segs]; [done|].
  pose proof Hsegs as [[Hx Hx'] _]%Forall_cons.
  assert (Hj : JS.join (x :: segs) <> "") by (by apply join_not_empty).
  pose proof (join_cases (mkPath (render q tr)) [JS.join (x :: segs)]) as H.
  rewrite filter_truthy_cons in H.
  rewrite (proj2 (truthy_true _) Hj), filter_nil in H.
  change (JS.join [?s]) with s in H.
  rewrite starts_with_sep_join in H by (by apply truthy_true).
  rewrite starts_with_sep_no_sep in H by done. rewrite H. simpl pstring.
  assert (Habs : JS.starts_with_sep
                   (render q tr +:+ "/" +:+ JS.join (x :: segs)) = true).
  { rewrite starts_with_sep_app; [apply starts_with_sep_render|].
    apply starts_with_sep_not_empty, starts_with_sep_render. }
  rewrite new_Path_ok by done. unfold at_names. do 2 f_equal.
  rewrite normalize_absolute by done.
  assert (kept_names (render q tr +:+ "/" +:+ JS.join (x :: segs))
          = fold_left (NodePath.normalize_step false) (x :: segs) q) as ->.
  { unfold kept_names. rewrite split_app_sep, fold_left_app.
    fold (kept_names (render q tr)). rewrite kept_names_render by done.
    rewrite split_join; [done|done|].
    eapply Forall_impl; [exact Hsegs|]. by intros y [? _]. }
  rewrite ends_with_sep_app by (rewrite sep_app; discriminate).
  rewrite sep_app, ends_with_sep_cons by done.
  by rewrite ends_with_sep_join_segments.
Qed.

Lemma join_app_s l k :
  l <> [] -> k <> [] -> JS.join (l ++ k) = JS.join l +:+ "/" +:+ JS.join k.
Proof.
  intros Hl Hk. induction l as [|x l IH]; [done|].
  destruct l as [|y l].
  - destruct k; [done|]. reflexivity.
  - change ((x :: y :: l) ++ k) with (x :: (y :: l) ++ k).
    change ((y :: l) ++ k) with (y :: (l ++ k)) at 1.
    rewrite join_cons2. change (y :: l ++ k) with ((y :: l) ++ k).
    rewrite IH by done. rewrite join_cons2. by rewrite !app_assoc_s.
Qed.

(** The string of a directory is a prefix of the string of what lies
    below it. *)
Lemma startsWith_below b a trb :
  a <> [] ->
  JS.startsWith (render (b ++ a) false) (render b trb) = true.
Proof.
  intros Ha. unfold JS.startsWith. destruct b as [|x b].
  - destruct a as [|y a]; [done|]. unfold render. apply prefix_app.
  - assert (render ((x :: b) ++ a) false =
            render (x :: b) trb +:+ (if trb then "" else "/") +:+ JS.join a) as ->.
    { destruct a as [|y a]; [done|].
      change ((x :: b) ++ y :: a) with (x :: (b ++ y :: a)). unfold render.
      change (x :: b ++ y :: a) with ((x :: b) ++ y :: a).
      rewrite join_app_s by done. rewrite app_empty_r.
      destruct trb; rewrite !app_assoc_s; [done|].
      by rewrite app_empty_l. }
    apply prefix_app.
Qed.

(** The round trip of [relative] and [join], where the code is right:
    the target has no trailing separator, the short cut of [relative] is
    taken only when the names of the base begin the names of the target,
    and the two are not the same names with a trailing separator on the
    base (the loop of [relative] then never ends).  Then [relative]
    returns, and what it returns, joined to the base, is the target. *)
Lemma relative_round_trip (t b : list string) (trb : bool) (fuel : nat) :
  Forall (fun x => name_ok x = true) t ->
  Forall (fun x => name_ok x = true) b ->
  (JS.startsWith (render t false) (render b trb) = true -> b `prefix_of` t) ->
  ~ (t = b /\ trb = true /\ b <> []) ->
  S (length b) < fuel ->
  exists rel,
    Path.relative fuel (at_names t) (mkPath (render b trb)) = Some rel
    /\ Path.join (mkPath (render b trb)) [rel] = Ok (at_names t).
Proof.
  intros Ht Hb Hshort Hloop Hfuel.
  destruct (JS.startsWith (render t false) (render b trb)) eqn:Hsw.
  - destruct (Hshort eq_refl) as [a ->].
    exists (JS.join a). split.
    + unfold Path.relative, at_names. simpl pstring. rewrite Hsw.
      change (filter _ (JS.split ?s)) with (path_comps s).
      rewrite !path_comps_render by done.
      change (["/"] ++ ?x) with ("/" :: x). unfold JS.slice.
      change (length ("/" :: b)) with (S (length b)).
      change (drop (S (length b)) ("/" :: b ++ a)) with (drop (length b) (b ++ a)).
      by rewrite drop_app_length.
    + destruct a as [|y a].
      * rewrite app_nil_r in *. simpl JS.join.
        pose proof (join_cases (mkPath (render b trb)) [""]) as H.
        simpl in H. rewrite H. unfold at_names. do 2 f_equal.
        destruct trb; [|done]. destruct b as [|x b]; [done|].
        destruct Hloop. done.
      * apply Forall_app in Ht as [_ Ha].
        rewrite join_segments; [|done|done|].
        -- by rewrite fold_normalize_names.
        -- eapply Forall_impl; [exact Ha|]. intros x Hx.
           apply name_ok_spec in Hx. tauto.
  - destruct (common_prefix t b) as (c & a & b' & -> & -> & [Hab|[-> ->]]).
    + destruct b' as [|z b'].
      { destruct a as [|y a]; [done|]. rewrite app_nil_r in Hsw.
        by rewrite startsWith_below in Hsw. }
      exists (JS.join (repeat ".." (length (z :: b')) ++ a)). split.
      * apply relative_general; try done.
        rewrite length_app in Hfuel. lia.
      * apply Forall_app in Ht as [_ Ha].
        rewrite join_segments; [|done|done|by apply relative_segments].
        by rewrite fold_left_app, fold_normalize_dotdot, fold_normalize_names.
    + rewrite !app_nil_r in *. exfalso.
      destruct trb.
      * destruct c as [|x c]; [done|]. apply Hloop. done.
      * unfold JS.startsWith in Hsw. by rewrite prefix_refl in Hsw.
Qed.

(** Where the names are the same and only the base has a trailing
    separator, the loop of [relative] never ends. *)
Lemma relative_never_returns (b : list string) (fuel : nat) :
  Forall (fun x => name_ok x = true) b -> b <> [] ->
  Path.relative fuel (at_names b) (mkPath (render b true)) = None.
Proof.
  intros Hb Hne. unfold Path.relative, at_names. simpl pstring.
  assert (JS.startsWith (render b false) (render b true) = false) as ->.
  { destruct b as [|x b]; [done|]. unfold JS.startsWith, render.
    rewrite app_empty_r.
    assert (forall s, String.prefix (s +:+ "/") s = false) as Hp.
    { induction s as [|ch s IH]; [done|]. rewrite app_cons. simpl.
      by destruct (ascii_dec ch ch). }
    rewrite <- app_assoc_s. apply Hp. }
  change (filter _ (JS.split ?s)) with (path_comps s).
  rewrite !path_comps_render by done. by rewrite relative_loop_same.
Qed.

(** ** mv without force, on any file system *)

Lemma moved_tree_lookup_root (a b : list string) (m : gmap (list string) node) n :
  m !! a = Some n -> moved_tree a b m !! b = Some n.
Proof.
  intros Ha. unfold moved_tree. apply elem_of_list_to_map_1'.
  - intros y [[k v] [Hk Hf]]%list_elem_of_omap. simpl in Hf.
    case_bool_decide as Hp; [|done]. injection Hf as Hkey ->.
    destruct Hp as [r ->]. rewrite drop_app_length in Hkey.
    assert (r = []) as -> by (apply (app_inv_head b); by rewrite app_nil_r).
    rewrite app_nil_r in Hk. apply elem_of_map_to_list in Hk. congruence.
  - apply list_elem_of_omap. exists (a, n).
    split; [by apply elem_of_map_to_list|]. simpl.
    rewrite bool_decide_eq_true_2 by done. by rewrite drop_all, app_nil_r.
Qed.

Lemma moved_tree_lookup_outside (a b : list string)
    (m : gmap (list string) node) (k : list string) :
  ~ b `prefix_of` k -> moved_tree a b m !! k = None.
Proof.
  intros Hk. unfold moved_tree. apply not_elem_of_list_to_map_1.
  intros [[k' v] [-> [[k0 v0] [_ Hf]]%list_elem_of_omap]]%list_elem_of_fmap.
  simpl in Hf. case_bool_decide; [|done]. injection Hf as <- _.
  apply Hk. simpl. by eexists.
Qed.

(** Where the receiver names a file and the destination names another
    entry that is not a directory, neither below the other and neither
    string ending with a separator, [mv] without
    [force] returns the destination, which then holds the file, and the
    receiver's entry is gone. *)
Lemma mv_without_force_replaces this to force (w : fs) a b x n :
  default false force = false ->
  JS.ends_with_sep (pstring this) = false ->
  JS.ends_with_sep (pstring to) = false ->
  namei w false (pstring this) = Ok (a, Some (File x)) ->
  namei w false (pstring to) = Ok (b, Some n) ->
  n <> Dir ->
  ~ a `prefix_of` b -> ~ b `prefix_of` a ->
  exists w', Path.mv this (To to) force w = (Ok to, w')
    /\ files w' !! b = Some (File x) /\ files w' !! a = None.
Proof.
  intros Hforce Hta Htb Ha Hb Hn Hab Hba.
  rewrite namei_no_trailing in Ha, Hb by done.
  assert (Ha' : a <> []) by (intros ->; apply Hab, prefix_nil).
  assert (Hb' : b <> []) by (intros ->; apply Hba, prefix_nil).
  assert (Hne : a <> b) by (intros ->; by apply Hab).
  rewrite mv_without_force_is_rename by done.
  pose proof (namei_names_node_at _ _ _ _ _ Ha) as Hma.
  rewrite node_at_nonroot in Hma by done.
  unfold renameSync. rewrite Ha. cbn [bind snd fst]. rewrite Hb. cbn [bind snd fst].
  rewrite Hta, Htb. cbn [orb andb].
  destruct a as [|a0 a]; [done|]. destruct b as [|b0 b]; [done|].
  cbn [is_nil orb]. rewrite !bool_decide_eq_false_2 by done.
  exists (set_files w
            (moved_tree (a0 :: a) (b0 :: b) (files w)
             ∪ remove_tree (a0 :: a) (delete (b0 :: b) (files w)))).
  split; [by destruct n|]. cbn [files set_files]. split.
  - apply lookup_union_Some_l. by apply moved_tree_lookup_root.
  - apply lookup_union_None_2; [by apply moved_tree_lookup_outside|].
    rewrite remove_tree_lookup. by rewrite decide_True.
Qed.

(** * Further properties of the Path class *)

(** ** parent, basename and split *)

Lemma list_of_app a b :
  list_ascii_of_string (a +:+ b) = list_ascii_of_string a ++ list_ascii_of_string b.
Proof.
  induction a as [|c a IH]; [reflexivity|]. rewrite app_cons. simpl. by rewrite IH.
Qed.

Lemma no_sep_chars s :
  has_sep s = false ->
  Forall (fun c => Ascii.eqb c JS.sep = false) (list_ascii_of_string s).
Proof.
  induction s as [|c s IH]; simpl; [constructor|].
  intros [H1 H2]%orb_false_iff. constructor; auto.
Qed.

Lemma dirname_scan_name nl b :
  Forall (fun c => Ascii.eqb c JS.sep = false) nl ->
  NodePath.dirname_scan (rev nl) b = None.
Proof.
  intros H. apply Forall_rev in H. revert b.
  induction H as [|c l Hc _ IH]; intros b; [done|]. simpl. by rewrite Hc.
Qed.

Lemma dirname_scan_name_sep nl rest b :
  Forall (fun c => Ascii.eqb c JS.sep = false) nl -> nl <> [] ->
  NodePath.dirname_scan (rev nl ++ "/"%char :: rest) b = Some rest.
Proof.
  intros H Hne. assert (Hr : rev nl <> []).
  { intros E. apply Hne. by rewrite <- (rev_involutive nl), E. }
  apply Forall_rev in H. revert b Hr.
  induction H as [|c l Hc _ IH]; intros b Hr; [done|]. simpl. rewrite Hc.
  destruct l as [|c' l]; [reflexivity|]. by apply IH.
Qed.

Lemma name_chars n :
  name_ok n = true ->
  Forall (fun c => Ascii.eqb c JS.sep = false) (list_ascii_of_string n)
  /\ list_ascii_of_string n <> [].
Proof.
  intros (Hn & _ & _ & Hs)%name_ok_spec. split; [by apply no_sep_chars|].
  by destruct n.
Qed.

Lemma render_cons x l tr :
  render (x :: l) tr = String "/" (JS.join (x :: l) +:+ (if tr then "/" else "")).
Proof. reflexivity. Qed.

Lemma render_snoc q n tr :
  q <> [] ->
  render (q ++ [n]) tr
  = String "/" (JS.join q +:+ String "/" (n +:+ (if tr then "/" else ""))).
Proof.
  intros Hq. destruct q as [|x q]; [done|].
  change ((x :: q) ++ [n]) with (x :: (q ++ [n])). rewrite render_cons.
  change (x :: q ++ [n]) with ((x :: q) ++ [n]). rewrite join_snoc by done.
  by rewrite !app_assoc_s, sep_app.
Qed.

Lemma dirname_cons c0 rest :
  NodePath.dirname (String c0 rest) =
  match NodePath.dirname_scan (rev (list_ascii_of_string rest)) true with
  | Some r' =>
      if Ascii.eqb c0 JS.sep && Nat.eqb (length r') 0 then "//"
      else String c0 (string_of_list_ascii (rev r'))
  | None => if Ascii.eqb c0 JS.sep then "/" else "."
  end.
Proof. reflexivity. Qed.

(** [dirname] drops the last name of a canonical string, and a trailing
    separator with it. *)
Lemma dirname_render q n tr :
  Forall (fun x => name_ok x = true) q -> name_ok n = true ->
  NodePath.dirname (render (q ++ [n]) tr) = render q false.
Proof.
  intros Hq Hn. destruct (name_chars n Hn) as [Hc Hne].
  assert (Hscan : forall pre : list ascii,
             NodePath.dirname_scan
               (rev (list_ascii_of_string (n +:+ (if tr then "/" else "")))
                ++ pre) true
             = NodePath.dirname_scan (rev (list_ascii_of_string n) ++ pre) true).
  { intros pre. destruct tr; [|by rewrite app_empty_r].
    rewrite list_of_app, rev_app_distr. reflexivity. }
  destruct q as [|x q].
  - simpl app. rewrite render_cons, dirname_cons. simpl JS.join.
    specialize (Hscan []). rewrite !app_nil_r in Hscan. rewrite Hscan.
    by rewrite dirname_scan_name.
  - rewrite render_snoc by done. rewrite dirname_cons.
    rewrite list_of_app, rev_app_distr.
    change (list_ascii_of_string (String "/" ?s)) with ("/"%char :: list_ascii_of_string s).
    change (rev ("/"%char :: ?l)) with (rev l ++ ["/"%char]).
    rewrite <- !app_assoc. rewrite Hscan. cbn [app].
    rewrite dirname_scan_name_sep by done.
    rewrite rev_involutive, string_of_list_ascii_of_string.
    pose proof Hq as [Hx _]%Forall_cons.
    pose proof (join_names_not_empty x q Hx) as Hj.
    rewrite length_rev. rewrite render_cons, app_empty_r.
    destruct (JS.join (x :: q)) eqn:E; [done|]. reflexivity.
Qed.

Lemma dirname_root : NodePath.dirname "/" = "/".
Proof. reflexivity. Qed.

Lemma basename_render q n tr :
  Forall (fun x => name_ok x = true) q -> name_ok n = true ->
  NodePath.basename (render (q ++ [n]) tr) = n.
Proof.
  intros Hq Hn. destruct (name_chars n Hn) as [Hc Hne].
  assert (Hr : rev (list_ascii_of_string n) <> []).
  { intros E. apply Hne. by rewrite <- (rev_involutive (list_ascii_of_string n)), E. }
  assert (Hskip : forall l,
            NodePath.basename_skip (rev (list_ascii_of_string n) ++ l)
            = rev (list_ascii_of_string n) ++ l).
  { intros l. apply Forall_rev in Hc.
    destruct (rev (list_ascii_of_string n)) as [|c r]; [done|].
    apply Forall_cons in Hc as [Hc _]. simpl. by rewrite Hc. }
  assert (Htake : forall l,
            NodePath.basename_take (rev (list_ascii_of_string n) ++ "/"%char :: l)
            = rev (list_ascii_of_string n)).
  { intros l. apply Forall_rev in Hc. clear Hr Hskip.
    remember (rev (list_ascii_of_string n)) as r eqn:Er. clear Er.
    induction Hc as [|c r Hc' _ IH]; [reflexivity|].
    simpl. rewrite Hc'. by f_equal. }
  unfold NodePath.basename.
  assert (exists pre,
            list_ascii_of_string (render (q ++ [n]) tr)
            = pre ++ "/"%char :: list_ascii_of_string n ++ (if tr then ["/"%char] else []))
    as [pre ->].
  { destruct q as [|x q].
    - exists []. simpl app. rewrite render_cons. simpl JS.join. simpl.
      rewrite list_of_app. by destruct tr.
    - exists ("/"%char :: list_ascii_of_string (JS.join (x :: q))).
      rewrite render_snoc by done. simpl.
      rewrite list_of_app. simpl. rewrite list_of_app. by destruct tr. }
  rewrite !rev_app_distr. simpl rev. rewrite rev_app_distr.
  destruct tr; simpl rev; simpl app.
  - rewrite <- app_assoc. rewrite Hskip. simpl app. rewrite Htake.
    by rewrite rev_involutive, string_of_list_ascii_of_string.
  - rewrite <- app_assoc. rewrite Hskip. simpl app. rewrite Htake.
    by rewrite rev_involutive, string_of_list_ascii_of_string.
Qed.

Lemma constructed_names p :
  constructed p ->
  exists tr,
    Forall (fun x => name_ok x = true) (path_comps (pstring p))
    /\ pstring p = render (path_comps (pstring p)) tr.
Proof.
  intros (q & tr & Hq & Hp)%constructed_canonical. exists tr.
  assert (path_comps (pstring p) = q) as ->
    by (rewrite Hp; by apply path_comps_render).
  done.
Qed.

Lemma parent_render q tr :
  Forall (fun x => name_ok x = true) q ->
  Path.parent (mkPath (render q tr)) = Ok (at_names (removelast q)).
Proof.
  intros Hq. rewrite parent_total by apply starts_with_sep_render.
  unfold at_names. do 2 f_equal. simpl pstring.
  destruct q as [|x q] using rev_ind; [reflexivity|].
  apply Forall_app in Hq as [Hq [Hx _]%Forall_cons].
  rewrite dirname_render, removelast_last by done. by apply normalize_render.
Qed.

(** The parent and the base name, by the names of the value. *)
Lemma parent_names (p : Path) :
  constructed p ->
  Path.parent p = Ok (at_names (removelast (path_comps (pstring p)))).
Proof.
  intros (tr & Hq & Hp)%constructed_names.
  rewrite <- (parent_render _ tr) by done. unfold Path.parent. simpl.
  by rewrite <- Hp.
Qed.

Lemma basename_names (p : Path) :
  constructed p ->
  Path.basename p = default "" (last (path_comps (pstring p))).
Proof.
  intros (tr & Hq & Hp)%constructed_names. unfold Path.basename.
  rewrite Hp at 1. clear Hp.
  destruct (path_comps (pstring p)) as [|x q] using rev_ind; [reflexivity|].
  apply Forall_app in Hq as [Hq [Hx _]%Forall_cons].
  by rewrite basename_render, last_snoc.
Qed.

(** X1.  The parent of a value of the class has the names of the value
    but the last, and no trailing separator; the parent of a value with
    no name, the root, is the root.  [parent] never throws on such a
    value. *)
Theorem parent_spec (p : Path) :
  constructed p ->
  Path.parent p = Ok (at_names (removelast (path_comps (pstring p))))
  /\ (path_comps (pstring p) = [] -> Path.parent p = Ok Path.root).
Proof.
  intros H%parent_names. split; [done|]. intros E. by rewrite H, E.
Qed.

Lemma parent_spec_witness :
  Path.parent (mkPath "/tmp/a/b/") = Ok (mkPath "/tmp/a")
  /\ Path.parent (mkPath "/") = Ok (mkPath "/").
Proof.
  split.
  - apply (proj1 (parent_spec (mkPath "/tmp/a/b/")
                    (constructed_new "/tmp/a/b/" _ eq_refl))).
  - apply (proj2 (parent_spec (mkPath "/") (constructed_new "/" _ eq_refl))).
    reflexivity.
Defined.

(** X2.  The base name of a value of the class is its last name, whether
    or not a separator follows it, and the empty string when the value is
    the root. *)
Theorem basename_spec (p : Path) :
  constructed p ->
  Path.basename p = default "" (last (path_comps (pstring p)))
  /\ (path_comps (pstring p) = [] -> Path.basename p = "").
Proof.
  intros H%basename_names. split; [done|]. intros E. by rewrite H, E.
Qed.

Lemma basename_spec_witness :
  Path.basename (mkPath "/tmp/a/b.txt/") = "b.txt".
Proof.
  apply (proj1 (basename_spec (mkPath "/tmp/a/b.txt/")
                  (constructed_new "/tmp/a/b.txt/" _ eq_refl))).
Defined.

(** X3.  [split] never throws on a value of the class, and joining the
    base name it gives to the parent it gives makes the value again, up
    to a trailing separator: the result has the names of the value and
    no trailing separator. *)
Theorem split_join_round_trip (p : Path) :
  constructed p ->
  exists d b,
    Path.split p = Ok (d, b)
    /\ Path.join d [b] = Ok (at_names (path_comps (pstring p)))
    /\ (JS.ends_with_sep (pstring p) = false ->
        Path.join d [b] = Ok p).
Proof.
  intros Hc. pose proof (parent_names p Hc) as Hparent.
  pose proof (basename_names p Hc) as Hbase.
  destruct (constructed_names p Hc) as (tr & Hq & Hp).
  exists (at_names (removelast (path_comps (pstring p)))),
         (default "" (last (path_comps (pstring p)))).
  unfold Path.split. rewrite Hparent. cbn [bind]. rewrite Hbase.
  split; [done|].
  assert (Hjoin : Path.join (at_names (removelast (path_comps (pstring p))))
                    [default "" (last (path_comps (pstring p)))]
                  = Ok (at_names (path_comps (pstring p)))).
  { destruct (path_comps (pstring p)) as [|x q] using rev_ind; [reflexivity|].
    apply Forall_app in Hq as [Hq [Hx _]%Forall_cons].
    rewrite removelast_last, last_snoc. simpl default.
    by apply (join_child _ q false). }
  split; [done|]. intros Htr. rewrite Hjoin. f_equal.
  destruct p as [s]. unfold at_names. f_equal. simpl in *.
  rewrite Hp at 2. destruct (path_comps s) as [|x q] eqn:E; [done|].
  rewrite Hp, ends_with_sep_render in Htr by done. by subst tr.
Qed.

Lemma split_join_round_trip_witness :
  exists d b,
    Path.split (mkPath "/tmp/a/b") = Ok (d, b)
    /\ Path.join d [b] = Ok (mkPath "/tmp/a/b").
Proof.
  destruct (split_join_round_trip (mkPath "/tmp/a/b")
              (constructed_new "/tmp/a/b" _ eq_refl)) as (d & b & H1 & _ & H3).
  exists d, b. split; [exact H1|]. apply H3. reflexivity.
Defined.

(** X4.  The child made by joining a name to a directory has the
    directory as its parent, up to the directory's trailing separator,
    and the name as its base name. *)
Theorem join_parent_basename (p : Path) (n : string) :
  constructed p -> name_ok n = true ->
  exists c,
    Path.join p [n] = Ok c
    /\ Path.parent c = Ok (at_names (path_comps (pstring p)))
    /\ Path.basename c = n
    /\ path_comps (pstring c) = path_comps (pstring p) ++ [n].
Proof.
  intros (tr & Hq & Hp)%constructed_names Hn.
  exists (at_names (path_comps (pstring p) ++ [n])).
  assert (Hqn : Forall (fun x => name_ok x = true) (path_comps (pstring p) ++ [n])).
  { apply Forall_app. split; [done|]. by constructor. }
  split; [by apply (join_child p _ tr)|]. unfold at_names.
  split; [|split].
  - by rewrite parent_render, removelast_last.
  - unfold Path.basename. simpl pstring. by apply basename_render.
  - simpl pstring. by apply path_comps_render.
Qed.

Lemma join_parent_basename_witness :
  exists c,
    Path.join (mkPath "/tmp/") ["x.txt"] = Ok c
    /\ Path.parent c = Ok (mkPath "/tmp")
    /\ Path.basename c = "x.txt".
Proof.
  destruct (join_parent_basename (mkPath "/tmp/") "x.txt"
              (constructed_new "/tmp/" _ eq_refl) eq_refl)
    as (c & H1 & H2 & H3 & _).
  exists c. split; [exact H1|]. split; [exact H2|exact H3].
Defined.

(** ** components *)

Lemma join_split s : JS.join (JS.split s) = s.
Proof.
  induction s as [|c s IH]; [reflexivity|]. simpl.
  destruct (Ascii.eqb_spec c JS.sep) as [->|Hc].
  - pose proof (split_not_nil s) as Hne.
    destruct (JS.split s) as [|h t] eqn:E; [done|].
    rewrite join_cons2, app_empty_l, sep_app. by rewrite IH.
  - pose proof (split_not_nil s) as Hne.
    destruct (JS.split s) as [|h t] eqn:E; [done|].
    destruct t as [|h' t].
    + simpl in *. by rewrite IH.
    + rewrite join_cons2 in *. rewrite app_cons. by rewrite IH.
Qed.

(** X5.  Joining the components of a path by the separator gives its
    string back; on a value of the class the first component is the
    empty string, and the components that are not empty are names: none
    is ["."] or [".."] or holds a separator. *)
Theorem components_spec (p : Path) :
  JS.join (Path.components p) = pstring p
  /\ (constructed p ->
      head (Path.components p) = Some ""
      /\ Forall (fun x => x = "" \/ name_ok x = true) (Path.components p)).
Proof.
  split; [apply join_split|].
  intros (q & tr & Hq & Hp)%constructed_canonical. unfold Path.components.
  rewrite Hp. destruct q as [|x q].
  - split; [reflexivity|]. repeat constructor.
  - rewrite split_render by done. split; [reflexivity|].
    constructor; [by left|]. apply Forall_app. split.
    + eapply Forall_impl; [exact Hq|]. intros y Hy. by right.
    + destruct tr; repeat constructor.
Qed.

Lemma components_spec_witness :
  head (Path.components (mkPath "/tmp/a/")) = Some ""
  /\ Forall (fun x => x = "" \/ name_ok x = true)
       (Path.components (mkPath "/tmp/a/")).
Proof.
  apply (proj2 (components_spec (mkPath "/tmp/a/"))).
  by apply (constructed_new "/tmp/a/").
Defined.

(** ** join, composed *)

Lemma kept_names_app_sep s b :
  kept_names (s +:+ "/" +:+ b)
  = fold_left (NodePath.normalize_step false) (JS.split b) (kept_names s).
Proof. unfold kept_names. by rewrite split_app_sep, fold_left_app. Qed.

Lemma normalize_join_normalized s b :
  JS.starts_with_sep s = true -> b <> "" ->
  NodePath.normalize (NodePath.normalize s +:+ "/" +:+ b)
  = NodePath.normalize (s +:+ "/" +:+ b).
Proof.
  intros Hs Hb.
  assert (Hn : JS.starts_with_sep (NodePath.normalize s) = true).
  { rewrite normalize_absolute by done. apply starts_with_sep_render. }
  rewrite (normalize_absolute (NodePath.normalize s +:+ "/" +:+ b))
    by (rewrite starts_with_sep_app; [done|by apply starts_with_sep_not_empty]).
  rewrite (normalize_absolute (s +:+ "/" +:+ b))
    by (rewrite starts_with_sep_app; [done|by apply starts_with_sep_not_empty]).
  rewrite !kept_names_app_sep.
  assert (kept_names (NodePath.normalize s) = kept_names s) as ->.
  { rewrite normalize_absolute by done.
    apply kept_names_render, kept_names_ok. }
  rewrite (ends_with_sep_app (NodePath.normalize s)), (ends_with_sep_app s)
    by (rewrite sep_app; discriminate).
  reflexivity.
Qed.

Lemma join_two this a b :
  a <> "" -> b <> "" ->
  Path.join this [a; b] =
  if JS.starts_with_sep a
  then Ok (mkPath (NodePath.normalize (a +:+ "/" +:+ b)))
  else Path.constructor (inl (pstring this +:+ "/" +:+ a +:+ "/" +:+ b)).
Proof.
  intros Ha Hb. pose proof (join_cases this [a; b]) as H.
  rewrite !filter_truthy_cons, filter_nil in H.
  rewrite (proj2 (truthy_true a) Ha), (proj2 (truthy_true b) Hb) in H.
  by destruct (JS.starts_with_sep a).
Qed.

Lemma join_one this a :
  a <> "" ->
  Path.join this [a] =
  if JS.starts_with_sep a
  then Ok (mkPath (NodePath.normalize a))
  else Path.constructor (inl (pstring this +:+ "/" +:+ a)).
Proof.
  intros Ha. pose proof (join_cases this [a]) as H.
  rewrite !filter_truthy_cons, filter_nil in H.
  rewrite (proj2 (truthy_true a) Ha) in H.
  by destruct (JS.starts_with_sep a).
Qed.

(** X6.  Joining two segments one after the other is joining them at
    once, whatever the first segment is, as long as the second one does
    not start with the separator (and neither is empty). *)
Theorem join_join (p : Path) (a b : string) :
  JS.starts_with_sep (pstring p) = true ->
  a <> "" -> b <> "" -> JS.starts_with_sep b = false ->
  (let! x := Path.join p [a] in Path.join x [b]) = Path.join p [a; b].
Proof.
  intros Hp Ha Hb Hbs. rewrite join_two, join_one by done.
  destruct (JS.starts_with_sep a) eqn:Has.
  - cbn [bind]. rewrite join_one, Hbs by done. simpl pstring.
    assert (Hn : JS.starts_with_sep (NodePath.normalize a) = true).
    { rewrite normalize_absolute by done. apply starts_with_sep_render. }
    rewrite new_Path_ok
      by (rewrite starts_with_sep_app; [done|by apply starts_with_sep_not_empty]).
    by rewrite normalize_join_normalized.
  - assert (Hpa : JS.starts_with_sep (pstring p +:+ "/" +:+ a) = true).
    { rewrite starts_with_sep_app; [done|by apply starts_with_sep_not_empty]. }
    rewrite new_Path_ok by done. cbn [bind].
    rewrite join_one, Hbs by done. simpl pstring.
    assert (Hn : JS.starts_with_sep
                   (NodePath.normalize (pstring p +:+ "/" +:+ a)) = true).
    { rewrite normalize_absolute by done. apply starts_with_sep_render. }
    rewrite !new_Path_ok.
    + rewrite normalize_join_normalized by done. by rewrite !app_assoc_s.
    + rewrite starts_with_sep_app; [done|by apply starts_with_sep_not_empty].
    + rewrite starts_with_sep_app; [done|by apply starts_with_sep_not_empty].
Qed.

Lemma join_join_witness :
  (let! x := Path.join (mkPath "/usr") ["local/../lib"] in Path.join x ["./tea/"])
  = Path.join (mkPath "/usr") ["local/../lib"; "./tea/"].
Proof.
  apply (join_join (mkPath "/usr") "local/../lib" "./tea/");
    (reflexivity || discriminate).
Defined.

(** * Further properties of the operations on the file system *)

(** ** An entry created or replaced at a place that is free or a file *)

(** The entry [n] is put at the location [q0], where the map has nothing
    or a file.  A resolution that ended at [q0] now finds [n] there, and
    a resolution that ended elsewhere ends as before. *)
Lemma walk_comps_insert (m : gmap (list string) node) q0 n fl fl' b todo :
  q0 <> [] ->
  (m !! q0 = None \/ exists x, m !! q0 = Some (File x)) ->
  (forall dir t rest q o,
     fl dir t rest = Ok (q, o) ->
     (q = q0 -> b = true -> forall t, n <> Symlink t) ->
     fl' dir t rest = Ok (q, if decide (q = q0) then Some n else o)) ->
  forall cur q o,
    walk_comps m fl b cur todo = Ok (q, o) ->
    (q = q0 -> b = true -> forall t, n <> Symlink t) ->
    walk_comps (<[q0 := n]> m) fl' b cur todo
    = Ok (q, if decide (q = q0) then Some n else o).
Proof.
  intros Hq0 Hm Hfl.
  assert (Hat : forall cur,
             node_at (<[q0 := n]> m) cur
             = if decide (cur = q0) then Some n else node_at m cur).
  { intros [|c cur]; simpl.
    - by rewrite decide_False.
    - rewrite lookup_insert. destruct (decide (q0 = c :: cur)) as [->|Hne].
      + by rewrite decide_True.
      + by rewrite decide_False. }
  induction todo as [|c rest IH]; intros cur q o; simpl.
  - intros [= <- <-] _. by rewrite Hat.
  - destruct (String.eqb c "."); [apply IH|].
    destruct (String.eqb c ".."); [apply IH|].
    destruct (decide (cur ++ [c] = q0)) as [Heq|Hne].
    + rewrite Heq, lookup_insert_eq.
      assert (Hfin : rest = [] ->
                     (b = true -> forall t, n <> Symlink t) ->
                     match n with
                     | File x =>
                         if is_nil rest then Ok (q0, Some (File x))
                         else Throw (SystemError ENOTDIR)
                     | Dir => walk_comps (<[q0:=n]> m) fl' b q0 rest
                     | Symlink t =>
                         if is_nil rest && negb b then Ok (q0, Some (Symlink t))
                         else fl' cur t rest
                     end = Ok (q0, Some n)).
      { intros -> Hn. destruct n as [x| |t]; simpl.
        - done.
        - by rewrite Hat, decide_True.
        - destruct b; [by destruct (Hn eq_refl t)|done]. }
      destruct Hm as [Hm|[x Hm]]; rewrite Hm;
        (destruct rest; [|done]); intros [= <- <-] Hn;
        rewrite decide_True by done; apply Hfin; auto.
    + rewrite lookup_insert_ne by done.
      destruct (m !! (cur ++ [c])) as [[x| |t]|] eqn:E.
      * destruct (is_nil rest); [|done]. intros [= <- <-] _.
        by rewrite decide_False.
      * apply IH.
      * destruct (is_nil rest && negb b); [|apply Hfl].
        intros [= <- <-] _. by rewrite decide_False.
      * destruct (is_nil rest); [|done]. intros [= <- <-] _.
        by rewrite decide_False.
Qed.

Lemma namei_from_insert (m : gmap (list string) node) q0 n hops b :
  q0 <> [] ->
  (m !! q0 = None \/ exists x, m !! q0 = Some (File x)) ->
  forall cur todo q o,
    namei_from hops m b cur todo = Ok (q, o) ->
    (q = q0 -> b = true -> forall t, n <> Symlink t) ->
    namei_from hops (<[q0 := n]> m) b cur todo
    = Ok (q, if decide (q = q0) then Some n else o).
Proof.
  intros Hq0 Hm. induction hops as [|hops IH]; intros cur todo q o; simpl;
    apply walk_comps_insert; try done.
  intros dir t rest q' o'. apply IH.
Qed.

Lemma namei_insert (w : fs) q0 n b path q o :
  q0 <> [] ->
  (files w !! q0 = None \/ exists x, files w !! q0 = Some (File x)) ->
  (q = q0 -> b = true -> forall t, n <> Symlink t) ->
  namei w b path = Ok (q, o) ->
  namei (set_files w (<[q0 := n]> (files w))) b path
  = Ok (q, if decide (q = q0) then Some n else o).
Proof.
  intros Hq0 Hm Hn (Hne & H & Hd)%namei_inv.
  apply namei_intro; [done|by apply namei_from_insert|].
  intros ->%Hd. apply namei_from_node_at in H.
  rewrite decide_False; [done|]. intros ->.
  rewrite node_at_nonroot in H by done.
  destruct Hm as [Hm|[x Hm]]; congruence.
Qed.

(** What a resolution gives when it ends on nothing or on a file. *)
Lemma namei_free_or_file (w : fs) b path q o :
  namei w b path = Ok (q, o) ->
  (o = None \/ exists x, o = Some (File x)) ->
  q <> [] /\ (files w !! q = None \/ exists x, files w !! q = Some (File x)).
Proof.
  intros Hq Ho. apply namei_node_at in Hq. destruct q as [|c q].
  - simpl in Hq. destruct Ho as [->|[x ->]]; discriminate.
  - split; [done|]. simpl in Hq. rewrite <- Hq. done.
Qed.

(** A resolution that does not follow a last link and does not end on a
    link is the resolution that follows it. *)
Lemma walk_comps_nofollow_follow (m : gmap (list string) node) flf flt todo :
  (forall dir t rest q o,
     flf dir t rest = Ok (q, o) -> (forall t', o <> Some (Symlink t')) ->
     flt dir t rest = Ok (q, o)) ->
  forall cur q o,
    walk_comps m flf false cur todo = Ok (q, o) ->
    (forall t', o <> Some (Symlink t')) ->
    walk_comps m flt true cur todo = Ok (q, o).
Proof.
  intros Hfl. induction todo as [|c rest IH]; intros cur q o; simpl; [done|].
  destruct (String.eqb c "."); [apply IH|].
  destruct (String.eqb c ".."); [apply IH|].
  destruct (m !! (cur ++ [c])) as [[x| |t]|]; try done.
  - apply IH.
  - rewrite andb_true_r, andb_false_r. destruct (is_nil rest); [|apply Hfl].
    intros [= <- <-] H. by destruct (H t).
Qed.

Lemma namei_from_nofollow_follow (m : gmap (list string) node) hops :
  forall cur todo q o,
    namei_from hops m false cur todo = Ok (q, o) ->
    (forall t', o <> Some (Symlink t')) ->
    namei_from hops m true cur todo = Ok (q, o).
Proof.
  induction hops as [|hops IH]; intros cur todo q o; simpl;
    apply walk_comps_nofollow_follow; try done.
  intros dir t rest q' o'. apply IH.
Qed.

Lemma namei_nofollow_follow (w : fs) path q o :
  namei w false path = Ok (q, o) ->
  (forall t', o <> Some (Symlink t')) ->
  namei w true path = Ok (q, o).
Proof.
  intros (Hne & H & Hd)%namei_inv Ho.
  apply namei_intro; [done| |done]. by apply namei_from_nofollow_follow.
Qed.

Lemma namei_names_insert (w : fs) q0 n b path q o :
  q0 <> [] ->
  (files w !! q0 = None \/ exists x, files w !! q0 = Some (File x)) ->
  (q = q0 -> b = true -> forall t, n <> Symlink t) ->
  namei_names w b path = Ok (q, o) ->
  namei_names (set_files w (<[q0 := n]> (files w))) b path
  = Ok (q, if decide (q = q0) then Some n else o).
Proof.
  intros Hq0 Hm Hn. unfold namei_names.
  change (files (set_files w ?m)) with m.
  change (cwd (set_files w ?m)) with (cwd w).
  destruct (String.eqb path ""); [done|]. intros H.
  by apply namei_from_insert.
Qed.

Lemma namei_names_free_or_file (w : fs) b path q o :
  namei_names w b path = Ok (q, o) ->
  (o = None \/ exists x, o = Some (File x)) ->
  q <> [] /\ (files w !! q = None \/ exists x, files w !! q = Some (File x)).
Proof.
  intros Hq Ho. apply namei_names_node_at in Hq. destruct q as [|c q].
  - simpl in Hq. destruct Ho as [->|[x ->]]; discriminate.
  - split; [done|]. simpl in Hq. rewrite <- Hq. done.
Qed.

Lemma namei_names_nofollow_follow (w : fs) path q o :
  namei_names w false path = Ok (q, o) ->
  (forall t', o <> Some (Symlink t')) ->
  namei_names w true path = Ok (q, o).
Proof.
  unfold namei_names. destruct (String.eqb path ""); [done|].
  apply namei_from_nofollow_follow.
Qed.

(** ** A separator at the end of a path name *)

(** A path name that leads to a directory by its names leads there also
    with a separator at its end, a last link followed or not. *)
Lemma walk_comps_dir_dot (m : gmap (list string) node) fl fl' b b' todo :
  (forall dir t rest q,
     fl dir t rest = Ok (q, Some Dir) ->
     fl' dir t (rest ++ ["."]) = Ok (q, Some Dir)) ->
  forall cur q,
    walk_comps m fl b cur todo = Ok (q, Some Dir) ->
    walk_comps m fl' b' cur (todo ++ ["."]) = Ok (q, Some Dir).
Proof.
  intros Hfl. induction todo as [|c rest IH]; intros cur q; simpl; [done|].
  destruct (String.eqb c "."); [apply IH|].
  destruct (String.eqb c ".."); [apply IH|].
  assert (Hnil : is_nil (rest ++ ["."]) = false) by (by destruct rest).
  rewrite Hnil. cbn [andb].
  destruct (m !! (cur ++ [c])) as [[x| |t]|].
  - by destruct (is_nil rest).
  - apply IH.
  - destruct (is_nil rest && negb b); [done|]. apply Hfl.
  - by destruct (is_nil rest).
Qed.

Lemma namei_from_dir_dot (m : gmap (list string) node) (hops : nat) b b' :
  forall cur todo q,
    namei_from hops m b cur todo = Ok (q, Some Dir) ->
    namei_from hops m b' cur (todo ++ ["."]) = Ok (q, Some Dir).
Proof.
  induction hops as [|hops IH]; intros cur todo q; simpl;
    apply walk_comps_dir_dot; try done.
  intros dir t rest q'. rewrite app_assoc. apply IH.
Qed.

Lemma namei_names_dir (w : fs) path q b' :
  namei_names w false path = Ok (q, Some Dir) ->
  namei w b' path = Ok (q, Some Dir).
Proof.
  intros H. destruct (JS.ends_with_sep path) eqn:Htr.
  - revert H. unfold namei_names.
    destruct (String.eqb path "") eqn:Hne; [done|]. intros H.
    apply namei_intro; [done| |done]. unfold resolve_comps. rewrite Htr.
    by apply (namei_from_dir_dot _ _ false).
  - rewrite namei_no_trailing by done. destruct b'; [|done].
    by apply namei_names_nofollow_follow.
Qed.

(** A path name that leads to an entry has one at its names, a last
    link not followed. *)
Lemma walk_comps_dot_found (m : gmap (list string) node) fl fl' b todo :
  (forall dir t rest q n,
     fl dir t (rest ++ ["."]) = Ok (q, Some n) ->
     exists q' n', fl' dir t rest = Ok (q', Some n')) ->
  forall cur q n,
    walk_comps m fl b cur (todo ++ ["."]) = Ok (q, Some n) ->
    exists q' n', walk_comps m fl' false cur todo = Ok (q', Some n').
Proof.
  intros Hfl. induction todo as [|c rest IH]; intros cur q n; simpl.
  - eauto.
  - destruct (String.eqb c "."); [apply IH|].
    destruct (String.eqb c ".."); [apply IH|].
    assert (Hnil : is_nil (rest ++ ["."]) = false) by (by destruct rest).
    rewrite Hnil. cbn [andb].
    destruct (m !! (cur ++ [c])) as [[x| |t]|]; try done.
    + apply IH.
    + rewrite andb_true_r. destruct (is_nil rest); [eauto|]. apply Hfl.
Qed.

Lemma namei_from_dot_found (m : gmap (list string) node) (hops : nat) b :
  forall cur todo q n,
    namei_from hops m b cur (todo ++ ["."]) = Ok (q, Some n) ->
    exists q' n', namei_from hops m false cur todo = Ok (q', Some n').
Proof.
  induction hops as [|hops IH]; intros cur todo q n; simpl;
    apply walk_comps_dot_found; try done.
  intros dir t rest q' n'. rewrite app_assoc. apply IH.
Qed.

Lemma namei_found_names (w : fs) b path q n :
  namei w b path = Ok (q, Some n) ->
  exists q' n', namei_names w false path = Ok (q', Some n').
Proof.
  destruct (JS.ends_with_sep path) eqn:Htr.
  - intros (Hne & H & _)%namei_inv. unfold namei_names. rewrite Hne.
    revert H. unfold resolve_comps. rewrite Htr.
    apply namei_from_dot_found.
  - rewrite namei_no_trailing by done. unfold namei_names.
    destruct (String.eqb path ""); [done|]. destruct b; [|eauto].
    apply namei_from_follow_nofollow.
Qed.

(** Only a directory is found behind a separator at the end. *)
Lemma namei_no_dir_no_trailing (w : fs) b path q o :
  namei w b path = Ok (q, o) -> o <> Some Dir ->
  JS.ends_with_sep path = false.
Proof.
  intros (_ & _ & Hd)%namei_inv Ho.
  destruct (JS.ends_with_sep path); [|done]. by destruct Ho; apply Hd.
Qed.

(** ** Writing and reading *)

Lemma writeFileSync_inv (w w' : fs) path data :
  writeFileSync w path data = Ok w' ->
  exists q o,
    JS.ends_with_sep path = false
    /\ namei w true path = Ok (q, o)
    /\ q <> []
    /\ (files w !! q = None \/ exists x, files w !! q = Some (File x))
    /\ w' = set_files w (<[q := File data]> (files w)).
Proof.
  unfold writeFileSync.
  destruct (namei_names w true path) as [[q o]|e] eqn:E; [|done].
  cbn [bind fst snd].
  destruct (JS.ends_with_sep path) eqn:Htr; [done|].
  intros H. exists q, o. split; [done|].
  rewrite namei_no_trailing by done.
  assert (Ho : o = None \/ exists x, o = Some (File x)).
  { destruct o as [[x| |t]|]; try done; eauto. }
  destruct (namei_names_free_or_file _ _ _ _ _ E Ho) as [Hq Hm].
  repeat split; try done.
  destruct Ho as [->|[x ->]]; congruence.
Qed.

(** What was written is what is read. *)
Lemma writeFileSync_readFile (w w' : fs) path data :
  writeFileSync w path data = Ok w' ->
  readFile w' path = Ok data
  /\ statSync w' path = Ok (mkStats RegularFile).
Proof.
  intros (q & o & Htr & Hn & Hq & Hm & ->)%writeFileSync_inv.
  pose proof (namei_insert w q (File data) true path q o Hq Hm) as H.
  unfold readFile, statSync. rewrite H; [|done|done].
  by rewrite decide_True.
Qed.

(** The files that could be read before a write can be read after it,
    with the content they had, or with the written content when the
    two paths name the same file. *)
Lemma writeFileSync_frame (w w' : fs) path data other x :
  writeFileSync w path data = Ok w' ->
  readFile w other = Ok x ->
  readFile w' other = Ok x
  \/ readFile w' other = Ok data
     /\ exists q, namei w true path = Ok (q, Some (File x))
                  /\ namei w true other = Ok (q, Some (File x)).
Proof.
  intros (q & o & Htr & Hn & Hq & Hm & ->)%writeFileSync_inv.
  unfold readFile.
  destruct (namei w true other) as [[q' o']|e] eqn:E; [|done]. simpl.
  destruct o' as [[y| |t]|]; try done. intros [= ->].
  rewrite (namei_insert w q (File data) true other q' (Some (File x)) Hq Hm);
    [|done|done].
  simpl. destruct (decide (q' = q)) as [->|Hne]; [right|by left].
  split; [done|]. exists q. split; [|done].
  apply namei_node_at in E as E'. apply namei_node_at in Hn as Hn'.
  by rewrite Hn, Hn', <- E'.
Qed.

Section Write.

Variable PlainObject : Type.
Variable JSON_stringify : PlainObject -> option nat -> string.

Lemma write_written this content force w p w' :
  Path.write PlainObject JSON_stringify this content force w = (Written p, w') ->
  p = this
  /\ exists w1,
       writeFileSync w1 (pstring this)
         match content with
         | Text text => text
         | Json json space => JSON_stringify json space
         end = Ok w'
       /\ (Path.exists_ this w = None /\ w1 = w
           \/ default false force = true
              /\ Path.rm this false w = (Ok tt, w1)).
Proof.
  unfold Path.write.
  destruct (Path.exists_ this w) as [e|] eqn:Hex; simpl.
  - destruct (default false force) eqn:Hf; simpl; [|done].
    destruct (Path.rm this false w) as [[[]|e'] w1] eqn:Hrm; simpl; [|done].
    destruct (writeFileSync w1 _ _) as [w2|e'] eqn:Hw; [|done].
    intros [= <- <-]. split; [done|]. exists w1. split; [done|]. by right.
  - destruct (writeFileSync w _ _) as [w2|e'] eqn:Hw; [|done].
    intros [= <- <-]. split; [done|]. exists w. split; [done|]. by left.
Qed.


(** X8.  A [Path.write] that creates a file leaves the content of every
    other file as it was: what [Path.read] gave for a path before, it
    gives after. *)
Theorem write_new_file_frame this content force w p w' that x :
  Path.exists_ this w = None ->
  Path.write PlainObject JSON_stringify this content force w = (Written p, w') ->
  Path.read that w = Ok x ->
  Path.read that w' = Ok x.
Proof.
  intros Hex H Hr.
  destruct (write_written _ _ _ _ _ _ H) as (-> & w1 & Hw & Hcase).
  assert (w1 = w) as ->.
  { destruct Hcase as [[_ ->]|[_ Hrm]]; [done|].
    unfold Path.rm in Hrm. rewrite Hex in Hrm. congruence. }
  destruct (writeFileSync_frame _ _ _ _ _ _ Hw Hr) as [Hx|[_ (q & Hq & _)]];
    [done|].
  unfold Path.exists_, statSync in Hex. rewrite Hq in Hex. discriminate Hex.
Qed.

(** X9.  [Path.touch] does not work as the command of that name: when
    it returns, the path is a regular file with no content, whatever
    the file held before; and on a directory it throws [EISDIR] and
    changes nothing. *)
Theorem touch_spec this w :
  (forall p w',
     Path.touch PlainObject JSON_stringify this w = (Written p, w') ->
     p = this /\ Path.read this w' = Ok ""%string
     /\ Path.isFile this w' = Some this)
  /\ (lstatSync w (pstring this) = Ok (mkStats Directory) ->
      Path.touch PlainObject JSON_stringify this w
      = (WriteThrew (WriteFailed (SystemError EISDIR)), w)).
Proof.
  split.
  - intros p w' H. unfold Path.touch in H.
    unfold Path.write in H.
    destruct (Path.exists_ this w) as [e|] eqn:Hex; simpl in H.
    + destruct (Path.rm this false w) as [[[]|e'] w1] eqn:Hrm; simpl in H;
        [|done].
      destruct (writeFileSync w1 _ _) as [w2|e'] eqn:Hw; [|done].
      injection H as <- <-. apply writeFileSync_readFile in Hw as [Hr Hs].
      repeat split; try done. unfold Path.isFile. by rewrite Hs.
    + destruct (writeFileSync w _ _) as [w2|e'] eqn:Hw; [|done].
      injection H as <- <-. apply writeFileSync_readFile in Hw as [Hr Hs].
      repeat split; try done. unfold Path.isFile. by rewrite Hs.
  - intros Hl. unfold Path.touch, Path.write.
    assert (Hn : exists q, namei w false (pstring this) = Ok (q, Some Dir)).
    { unfold lstatSync in Hl.
      destruct (namei w false (pstring this)) as [[q [[x| |t]|]]|e]; try done.
      by exists q. }
    destruct Hn as [q Hn].
    assert (Hex : Path.exists_ this w = Some this).
    { unfold Path.exists_, statSync.
      destruct (namei w true (pstring this)) as [[q' [n'|]]|e] eqn:E; simpl;
        try done.
      - by rewrite (namei_nofollow_follow w _ q (Some Dir) Hn) in E.
      - by rewrite (namei_nofollow_follow w _ q (Some Dir) Hn) in E. }
    rewrite Hex. simpl. unfold Path.rm. rewrite Hex. unfold rmSync.
    by rewrite Hn.
Qed.

End Write.


Lemma touch_spec_witness :
  Path.read (mkPath "/tmp/d/f")
    (Path.touch unit (fun _ _ => "{}"%string) (mkPath "/tmp/d/f") sample_fs).2
  = Ok ""%string
  /\ Path.touch unit (fun _ _ => "{}"%string) (mkPath "/tmp/d") sample_fs
     = (WriteThrew (WriteFailed (SystemError EISDIR)), sample_fs).
Proof.
  split.
  - apply (proj1 (touch_spec unit (fun _ _ => "{}"%string) (mkPath "/tmp/d/f")
                    sample_fs) (mkPath "/tmp/d/f")).
    vm_compute. reflexivity.
  - apply (proj2 (touch_spec unit (fun _ _ => "{}"%string) (mkPath "/tmp/d")
                    sample_fs)).
    vm_compute. reflexivity.
Defined.

Lemma write_new_file_frame_witness :
  Path.read (mkPath "/tmp/l")
    (Path.write unit (fun _ _ => "{}"%string) (mkPath "/tmp/new")
       (Text "tea") None sample_fs).2
  = Ok "z"%string.
Proof.
  apply (write_new_file_frame unit (fun _ _ => "{}"%string) (mkPath "/tmp/new")
           (Text "tea") None sample_fs (mkPath "/tmp/new") _ (mkPath "/tmp/l")
           "z"%string);
    vm_compute; reflexivity.
Defined.

(** ** Path.ln *)

(** X10.  [Path.ln] creates at [to] a link that points at [this]: when
    it returns, it returns [to], [to] is a symbolic link whose target is
    the string of [this], and (both paths constructed) [readlink] on
    [to] gives [this] back, on every runtime.  A destination that names
    an entry, also a dangling link, is refused with [EEXIST] and nothing
    changes. *)
Theorem ln_readlink_round_trip this to w :
  (forall r w',
     Path.ln this to w = (Ok r, w') ->
     r = to
     /\ readlinkSync w' (pstring to) = Ok (pstring this)
     /\ Path.isSymlink to w' = Some to
     /\ (constructed this -> constructed to ->
         forall TypeError_codes,
           Path.readlink TypeError_codes to w' = Ok this))
  /\ (forall st, lstatSync w (pstring to) = Ok st ->
      pstring this <> ""%string ->
      Path.ln this to w = (Throw (SystemError EEXIST), w)).
Proof.
  split.
  - intros r w'. unfold Path.ln, symlinkSync.
    destruct (String.eqb (pstring this) ""); [done|].
    destruct (namei_names w false (pstring to)) as [[q o]|e] eqn:E; [|done].
    cbn [bind fst snd]. destruct o as [n|]; [done|].
    destruct (JS.ends_with_sep (pstring to)) eqn:Htr; [done|].
    intros [= <- <-].
    destruct (namei_names_free_or_file _ _ _ _ _ E (or_introl eq_refl))
      as [Hq Hm].
    rewrite <- namei_no_trailing in E by done.
    pose proof (namei_insert w q (Symlink (pstring this)) false _ q None
                  Hq Hm ltac:(done) E) as H.
    rewrite decide_True in H by done.
    assert (Hrl : readlinkSync
                    (set_files w (<[q:=Symlink (pstring this)]> (files w)))
                    (pstring to) = Ok (pstring this)).
    { unfold readlinkSync. by rewrite H. }
    repeat split; try done.
    + unfold Path.isSymlink, lstatSync. by rewrite H.
    + intros Hthis Hto TE. unfold Path.readlink. rewrite Hrl. simpl.
      apply constructed_canonical in Hthis, Hto.
      apply canonical_absolute in Hto as Habs.
      rewrite (parent_total _ Habs). simpl.
      apply canonical_absolute in Hthis as Habs'.
      rewrite join_one by (by apply starts_with_sep_not_empty).
      rewrite Habs'. destruct Hthis as (cs & tr & Hok & Hs).
      rewrite Hs, normalize_render by done. rewrite <- Hs. by destruct this.
  - intros st Hl Hne. unfold Path.ln, symlinkSync.
    apply String.eqb_neq in Hne. rewrite Hne.
    unfold lstatSync in Hl.
    destruct (namei w false (pstring to)) as [[q [n|]]|e] eqn:E; [|done..].
    apply namei_found_names in E as (q' & n' & ->). done.
Qed.

Lemma ln_readlink_round_trip_witness :
  Path.readlink no_TypeError (mkPath "/tmp/e/tea")
    (Path.ln (mkPath "/tmp/d/f") (mkPath "/tmp/e/tea") sample_fs).2
  = Ok (mkPath "/tmp/d/f").
Proof.
  apply (proj1 (ln_readlink_round_trip (mkPath "/tmp/d/f") (mkPath "/tmp/e/tea")
                  sample_fs) (mkPath "/tmp/e/tea")).
  - vm_compute. reflexivity.
  - by apply (constructed_new "/tmp/d/f").
  - by apply (constructed_new "/tmp/e/tea").
Defined.

(** ** Path.cp *)

(** X11.  [Path.cp] copies the file into the directory [into] under its
    own name: when it returns, it returns [into] joined with the base
    name of [this]; the source could be read, the copy reads the same
    and the source still does.  An existing file at the destination is
    no obstacle: it is overwritten. *)
Theorem cp_spec this into w :
  (forall dst w',
     Path.cp this into w = (Ok dst, w') ->
     Path.join into [Path.basename this] = Ok dst
     /\ exists data,
          Path.read this w = Ok data
          /\ Path.read dst w' = Ok data
          /\ Path.read this w' = Ok data)
  /\ (forall dst data,
        Path.join into [Path.basename this] = Ok dst ->
        Path.read this w = Ok data ->
        Path.isFile dst w = Some dst ->
        exists w', Path.cp this into w = (Ok dst, w')
                   /\ Path.read dst w' = Ok data).
Proof.
  split.
  - intros dst w'. unfold Path.cp, copyFileSync.
    destruct (Path.join into [Path.basename this]) as [d|e]; [|done].
    destruct (readFile w (pstring this)) as [data|e] eqn:Hr; [|done]. simpl.
    destruct (writeFileSync w (pstring d) data) as [w1|e] eqn:Hw; [|done].
    intros [= <- <-]. split; [reflexivity|]. exists data.
    split; [exact Hr|]. split.
    + apply writeFileSync_readFile in Hw as [Hd _]. exact Hd.
    + destruct (writeFileSync_frame _ _ _ _ _ _ Hw Hr) as [Hx|[Hx _]];
        exact Hx.
  - intros dst data Hj Hr Hf. unfold Path.cp, copyFileSync. rewrite Hj.
    unfold Path.read in Hr. rewrite Hr. simpl.
    assert (Hw : exists w', writeFileSync w (pstring dst) data = Ok w').
    { unfold Path.isFile, statSync in Hf. unfold writeFileSync.
      destruct (namei w true (pstring dst)) as [[q [[x| |t]|]]|e] eqn:E;
        try done.
      pose proof (namei_no_dir_no_trailing _ _ _ _ _ E ltac:(done)) as Htr.
      rewrite namei_no_trailing in E by done. rewrite E, Htr.
      cbn [bind fst snd]. eauto. }
    destruct Hw as [w' Hw]. rewrite Hw. exists w'. split; [reflexivity|].
    apply writeFileSync_readFile in Hw as [Hd _]. exact Hd.
Qed.

Lemma cp_spec_witness :
  Path.join (mkPath "/") [Path.basename (mkPath "/tmp/d/f")] = Ok (mkPath "/f")
  /\ exists data,
       Path.read (mkPath "/tmp/d/f") sample_fs = Ok data
       /\ Path.read (mkPath "/f")
            (Path.cp (mkPath "/tmp/d/f") (mkPath "/") sample_fs).2 = Ok data
       /\ Path.read (mkPath "/tmp/d/f")
            (Path.cp (mkPath "/tmp/d/f") (mkPath "/") sample_fs).2 = Ok data.
Proof.
  apply (proj1 (cp_spec (mkPath "/tmp/d/f") (mkPath "/") sample_fs)
           (mkPath "/f")
           (Path.cp (mkPath "/tmp/d/f") (mkPath "/") sample_fs).2).
  vm_compute. reflexivity.
Defined.

(** ** Path.mkdir *)

(** X12.  [Path.mkdir] without ['p']: when it returns, it returns its
    own path and the path is a directory; a second call, with or
    without ['p'], then returns and changes nothing.  On a path that
    names an entry which is not a directory, it throws [EEXIST] and
    changes nothing. *)
Theorem mkdir_spec this w :
  (forall r w',
     Path.mkdir this false w = (Ok r, w') ->
     r = this
     /\ Path.isDirectory this w' = Some this
     /\ forall p, Path.mkdir this p w' = (Ok this, w'))
  /\ (forall st, lstatSync w (pstring this) = Ok st ->
      Path.isDirectory this w = None ->
      Path.mkdir this false w = (Throw (SystemError EEXIST), w)).
Proof.
  split.
  - intros r w' H.
    assert (Hd : r = this /\ Path.isDirectory this w' = Some this).
    { unfold Path.mkdir in H.
      destruct (Path.isDirectory this w) as [d|] eqn:Hd.
      - injection H as <- <-. split; [done|]. rewrite Hd. f_equal.
        unfold Path.isDirectory in Hd.
        destruct (statSync w (pstring this)) as [st|]; [|done].
        destruct (stats_isDirectory st); congruence.
      - unfold mkdirSync in H.
        destruct (String.eqb (pstring this) ""); [done|].
        destruct (namei_names w false (pstring this)) as [[q o]|e] eqn:E;
          [|done].
        simpl in H. destruct o as [n|]; [done|]. injection H as <- <-.
        split; [done|].
        destruct (namei_names_free_or_file _ _ _ _ _ E (or_introl eq_refl))
          as [Hq Hm].
        pose proof (namei_names_insert w q Dir false _ q None Hq Hm
                      ltac:(done) E) as E'.
        rewrite decide_True in E' by done.
        unfold Path.isDirectory, statSync.
        by rewrite (namei_names_dir _ _ _ true E'). }
    destruct Hd as [-> Hd]. repeat split; [done|].
    intros p. unfold Path.mkdir. by rewrite Hd.
  - intros st Hl Hd. unfold Path.mkdir, mkdirSync. rewrite Hd.
    unfold lstatSync in Hl.
    destruct (namei w false (pstring this)) as [[q [n|]]|e] eqn:E; [|done..].
    pose proof (namei_inv _ _ _ _ _ E) as (-> & _ & _).
    apply namei_found_names in E as (q' & n' & ->). done.
Qed.

Lemma mkdir_spec_witness :
  Path.isDirectory (mkPath "/tmp/e/tea")
    (Path.mkdir (mkPath "/tmp/e/tea") false sample_fs).2
  = Some (mkPath "/tmp/e/tea").
Proof.
  apply (proj1 (mkdir_spec (mkPath "/tmp/e/tea") sample_fs)
           (mkPath "/tmp/e/tea")).
  vm_compute. reflexivity.
Defined.

(** ** Path.ls and Path.isEmpty *)

Lemma ls_entries_total this entries :
  JS.starts_with_sep (pstring this) = true ->
  exists pairs,
    Path.ls_entries this entries = (pairs, Done)
    /\ map snd pairs = entries
    /\ Forall (fun pd : Path * Dirent => Path.join this [name pd.2] = Ok pd.1)
         pairs.
Proof.
  intros Habs. induction entries as [|d entries (pairs & IH & Hs & Hj)].
  - exists []. by repeat split.
  - destruct (join_total this [name d] Habs) as [c Hc].
    exists ((c, d) :: pairs). cbn [Path.ls_entries]. rewrite Hc, IH.
    repeat split.
    + cbn [map snd]. by rewrite Hs.
    + by constructor.
Qed.

(** The first iteration of [walk] yields what [ls] does. *)
Lemma walk_entries_ls this entries stack pairs :
  Path.ls_entries this entries = (pairs, Done) ->
  exists stack', Path.walk_entries this entries stack = (pairs, Ok stack').
Proof.
  revert stack pairs.
  induction entries as [|d entries IH]; intros stack pairs;
    cbn [Path.ls_entries Path.walk_entries].
  - intros [= <-]. eauto.
  - destruct (Path.join this [name d]) as [c|e]; [|done].
    destruct (Path.ls_entries this entries) as [ps en] eqn:E.
    cbn [fst snd]. intros [= <- ->].
    destruct (IH (if dirent_isDirectory d then stack ++ [c] else stack) ps
                eq_refl) as [stack' ->].
    eauto.
Qed.

(** X13.  [Path.ls] on an absolute path yields one pair for every entry
    that the directory gives, in its order, the path of each being the
    directory joined with the entry's name, and then returns: no entry
    makes it throw.  When the directory cannot be opened it throws what
    [opendir] throws and yields nothing.  And what [ls] yields is what
    [Path.walk] yields first. *)
Theorem ls_spec this w :
  (JS.starts_with_sep (pstring this) = true ->
   forall entries,
     opendir w (pstring this) = Ok entries ->
     exists pairs,
       Path.ls this w = (pairs, Done)
       /\ map snd pairs = entries
       /\ Forall (fun pd : Path * Dirent =>
                    Path.join this [name pd.2] = Ok pd.1) pairs)
  /\ (forall e, opendir w (pstring this) = Throw e ->
      Path.ls this w = ([], Threw e))
  /\ (forall pairs fuel,
        Path.ls this w = (pairs, Done) ->
        exists rest e, Path.walk this (S fuel) w = (pairs ++ rest, e)).
Proof.
  split; [|split].
  - intros Habs entries Ho. unfold Path.ls. rewrite Ho.
    by apply ls_entries_total.
  - intros e Ho. unfold Path.ls. by rewrite Ho.
  - intros pairs fuel. unfold Path.ls, Path.walk.
    cbn [Path.walk_loop last removelast].
    destruct (opendir w (pstring this)) as [entries|e]; [|done].
    intros [stack' Hw]%(walk_entries_ls _ _ []).
    rewrite Hw. cbn [fst snd]. eauto.
Qed.

Lemma ls_spec_witness :
  exists pairs,
    Path.ls (mkPath "/tmp") sample_fs = (pairs, Done)
    /\ length pairs = 4.
Proof.
  assert (Ho : exists entries,
             opendir sample_fs "/tmp" = Ok entries /\ length entries = 4).
  { eexists. split; vm_compute; reflexivity. }
  destruct Ho as (entries & Ho & Hn).
  destruct (proj1 (ls_spec (mkPath "/tmp") sample_fs) eq_refl entries Ho)
    as (pairs & Hl & Hs & _).
  exists pairs. split; [exact Hl|].
  by rewrite <- (length_map snd), Hs.
Defined.

(** X14.  [Path.isEmpty] returns its path exactly when the path is a
    directory without entries, which for an absolute path is when
    [Path.ls] yields nothing and returns; it returns [undefined] for a
    directory with an entry and for a path of which a name is missing,
    and a path that is a file makes it throw [ENOTDIR]. *)
Theorem isEmpty_spec this w :
  (Path.isEmpty this w = Ok (Some this) <-> opendir w (pstring this) = Ok [])
  /\ (Path.isEmpty this w = Ok None <->
      (exists d entries, opendir w (pstring this) = Ok (d :: entries))
      \/ opendir w (pstring this) = Throw (SystemError ENOENT))
  /\ (Path.isFile this w = Some this ->
      Path.isEmpty this w = Throw (SystemError ENOTDIR))
  /\ (JS.starts_with_sep (pstring this) = true ->
      (Path.isEmpty this w = Ok (Some this) <-> Path.ls this w = ([], Done))).
Proof.
  assert (H1 : Path.isEmpty this w = Ok (Some this)
               <-> opendir w (pstring this) = Ok []).
  { unfold Path.isEmpty, readdirSync.
    destruct (opendir w (pstring this)) as [[|d entries]|e]; simpl;
      try (split; congruence).
    destruct e as [s|[]|s]; simpl; split; congruence. }
  split; [exact H1|]. split; [|split].
  - unfold Path.isEmpty, readdirSync.
    destruct (opendir w (pstring this)) as [[|d entries]|e]; simpl.
    + split; [congruence|]. intros [(d & en & H)|H]; congruence.
    + split; [eauto|done].
    + destruct e as [s|[]|s]; simpl;
        (split; [try congruence; by right|
                 try done; intros [(d & en & H)|H]; congruence]).
  - unfold Path.isFile, Path.isEmpty, readdirSync, statSync, opendir.
    destruct (namei w true (pstring this)) as [[q [[x| |t]|]]|e]; simpl; done.
  - intros Habs. rewrite H1. unfold Path.ls.
    destruct (opendir w (pstring this)) as [[|d entries]|e]; simpl;
      try (split; congruence).
    destruct (join_total this [name d] Habs) as [c ->].
    split; congruence.
Qed.

Lemma isEmpty_spec_witness :
  Path.isEmpty (mkPath "/tmp/e") sample_fs = Ok (Some (mkPath "/tmp/e")).
Proof.
  apply (proj2 (proj2 (proj2 (proj2 (isEmpty_spec (mkPath "/tmp/e") sample_fs)))
                  eq_refl)).
  vm_compute. reflexivity.
Defined.

(** ** Path.extname *)

Lemma tar_here_inv s :
  Path.tar_here s = true ->
  exists word, s = ".tar." +:+ word /\ word <> "" /\ Path.all_word word = true.
Proof.
  destruct s as [|c0 s]; [done|].
  destruct c0 as [[] [] [] [] [] [] [] []]; try done.
  destruct s as [|c1 s]; [done|].
  destruct c1 as [[] [] [] [] [] [] [] []]; try done.
  destruct s as [|c2 s]; [done|].
  destruct c2 as [[] [] [] [] [] [] [] []]; try done.
  destruct s as [|c3 s]; [done|].
  destruct c3 as [[] [] [] [] [] [] [] []]; try done.
  destruct s as [|c4 s]; [done|].
  destruct c4 as [[] [] [] [] [] [] [] []]; try done.
  cbn [Path.tar_here]. intros [Ht Hw]%andb_true_iff. exists s.
  split; [reflexivity|]. split; [by apply truthy_true|done].
Qed.

Lemma tar_here_intro word :
  word <> "" -> Path.all_word word = true -> Path.tar_here (".tar." +:+ word) = true.
Proof.
  intros Hne Hw. change (".tar." +:+ word)
    with (String "." (String "t" (String "a" (String "r" (String "." word))))).
  cbn [Path.tar_here]. rewrite Hw. by rewrite (proj2 (truthy_true word) Hne).
Qed.

Lemma all_word_dot x y : Path.all_word (x +:+ String "." y) = false.
Proof.
  induction x as [|c x IH].
  - reflexivity.
  - rewrite app_cons. cbn [Path.all_word]. rewrite IH. apply andb_false_r.
Qed.

Lemma render_ends q n : exists pre, render (q ++ [n]) false = pre +:+ n.
Proof.
  destruct q as [|x q].
  - exists "/". unfold render. simpl JS.join. by rewrite app_empty_r.
  - exists (String "/" (JS.join (x :: q) +:+ "/")).
    rewrite render_snoc by done. rewrite app_empty_r.
    by rewrite app_cons, app_assoc_s.
Qed.

(** The expression matches once at most: before a match there is none. *)
Lemma match_tar_suffix pre word :
  word <> "" -> Path.all_word word = true ->
  Path.match_tar (pre +:+ ".tar." +:+ word) = Some (".tar." +:+ word).
Proof.
  intros Hne Hw. induction pre as [|c pre IH].
  - rewrite app_empty_l.
    change (".tar." +:+ word)
      with (String "." (String "t" (String "a" (String "r" (String "." word))))).
    cbn [Path.match_tar Path.tar_here]. rewrite Hw.
    by rewrite (proj2 (truthy_true word) Hne).
  - rewrite app_cons. cbn [Path.match_tar].
    destruct (Path.tar_here (String c (pre +:+ ".tar." +:+ word))) eqn:E; [|exact IH].
    apply tar_here_inv in E as (w0 & Hs & _ & Hw0). exfalso.
    change (".tar." +:+ w0)
      with (String "." (String "t" (String "a" (String "r" (String "." w0)))))
      in Hs.
    change (".tar." +:+ word)
      with (String "." (String "t" (String "a" (String "r" (String "." word)))))
      in Hs.
    injection Hs as -> Hs.
    destruct pre as [|c1 pre]; [rewrite app_empty_l in Hs; discriminate|].
    rewrite app_cons in Hs. injection Hs as -> Hs.
    destruct pre as [|c2 pre]; [rewrite app_empty_l in Hs; discriminate|].
    rewrite app_cons in Hs. injection Hs as -> Hs.
    destruct pre as [|c3 pre]; [rewrite app_empty_l in Hs; discriminate|].
    rewrite app_cons in Hs. injection Hs as -> Hs.
    destruct pre as [|c4 pre].
    + rewrite app_empty_l in Hs. injection Hs as Hs. subst w0. done.
    + rewrite app_cons in Hs. injection Hs as -> Hs. subst w0.
      by rewrite all_word_dot in Hw0.
Qed.

Lemma match_tar_inv s m :
  Path.match_tar s = Some m ->
  exists pre word,
    s = pre +:+ m /\ m = ".tar." +:+ word /\ word <> "" /\ Path.all_word word = true.
Proof.
  induction s as [|c s IH]; cbn [Path.match_tar].
  - destruct (Path.tar_here "") eqn:E; [|done]. done.
  - destruct (Path.tar_here (String c s)) eqn:E.
    + intros [= <-]. apply tar_here_inv in E as (word & Hs & Hne & Hw).
      exists "", word. by rewrite app_empty_l.
    + intros (pre & word & -> & Hm)%IH. exists (String c pre), word.
      by rewrite app_cons.
Qed.

(** X15.  [Path.extname] gives a two-part extension for an archive: on
    a string that ends in [.tar.] and one or more word characters, it is
    that whole ending, whatever [node:path] would say; on every other
    string it is what [node:path]'s [extname] says.  So a child made by
    [join] with a name such as [x.tar.gz] has the extension [.tar.gz]. *)
Theorem extname_spec (node_path_extname : string -> string) (p : Path) :
  (forall pre word,
     pstring p = pre +:+ ".tar." +:+ word ->
     word <> "" -> Path.all_word word = true ->
     Path.extname node_path_extname p = ".tar." +:+ word)
  /\ ((forall pre word,
         pstring p = pre +:+ ".tar." +:+ word ->
         word = "" \/ Path.all_word word = false) ->
      Path.extname node_path_extname p = node_path_extname (pstring p))
  /\ (forall stem word,
        constructed p -> name_ok (stem +:+ ".tar." +:+ word) = true ->
        word <> "" -> Path.all_word word = true ->
        exists c,
          Path.join p [stem +:+ ".tar." +:+ word] = Ok c
          /\ Path.extname node_path_extname c = ".tar." +:+ word).
Proof.
  split; [|split].
  - intros pre word Hs Hne Hw. unfold Path.extname.
    by rewrite Hs, match_tar_suffix.
  - intros Hno. unfold Path.extname.
    destruct (Path.match_tar (pstring p)) as [m|] eqn:E; [|done].
    apply match_tar_inv in E as (pre & word & Hs & -> & Hne & Hw).
    destruct (Hno pre word Hs) as [?|?]; congruence.
  - intros stem word (tr & Hq & Hp)%constructed_names Hn Hne Hw.
    exists (at_names (path_comps (pstring p) ++ [stem +:+ ".tar." +:+ word])).
    split; [by apply (join_child p _ tr)|].
    unfold Path.extname, at_names. simpl pstring.
    destruct (render_ends (path_comps (pstring p)) (stem +:+ ".tar." +:+ word))
      as [pre ->].
    rewrite <- (app_assoc_s pre stem). by rewrite match_tar_suffix.
Qed.

Lemma extname_spec_witness :
  exists c,
    Path.join (mkPath "/srv") ["pkg-1.2.tar.gz"] = Ok c
    /\ Path.extname (fun _ => ".gz") c = ".tar.gz".
Proof.
  apply (proj2 (proj2 (extname_spec (fun _ => ".gz") (mkPath "/srv")))
           "pkg-1.2" "gz").
  - by apply (constructed_new "/srv").
  - reflexivity.
  - discriminate.
  - reflexivity.
Defined.

(** ** The class Prefix *)

(** X16.  A [Prefix] made from a value of the class: the construction
    does not throw, the prefix keeps its string, and [www] is the
    directory [tea.xyz/var/www] below it: its names are those of the
    prefix followed by these three, and [relative] to the prefix gives
    that string back. *)
Theorem prefix_www (prefix : Path) (fuel : nat) :
  constructed prefix ->
  exists P,
    PrefixClass.constructor prefix = Ok P
    /\ prefix_path P = prefix
    /\ www P = at_names (path_comps (pstring prefix) ++ ["tea.xyz"; "var"; "www"])
    /\ Path.relative fuel (www P) prefix = Some "tea.xyz/var/www"
    /\ constructed (www P).
Proof.
  intros Hc. pose proof Hc as (tr & Hq & Hp)%constructed_names.
  set (q := path_comps (pstring prefix)) in *.
  assert (Hj : Path.join prefix ["tea.xyz/var/www"]
               = Ok (at_names (q ++ ["tea.xyz"; "var"; "www"]))).
  { destruct prefix as [s]. simpl in Hp. rewrite Hp.
    change "tea.xyz/var/www" with (JS.join ["tea.xyz"; "var"; "www"]).
    rewrite (join_segments q tr ["tea.xyz"; "var"; "www"] Hq); [|done|].
    - cbn [fold_left]. unfold NodePath.normalize_step. simpl.
      by rewrite <- !app_assoc.
    - repeat constructor; done. }
  exists (mkPrefix prefix (at_names (q ++ ["tea.xyz"; "var"; "www"]))).
  split; [|split; [done|split; [done|split]]].
  - unfold PrefixClass.constructor. rewrite Hj. by destruct prefix.
  - cbn [www]. unfold Path.relative, at_names. simpl pstring.
    rewrite Hp at 1. rewrite startsWith_below by done.
    change (filter _ (JS.split ?s)) with (path_comps s).
    assert (Hall : Forall (fun x => name_ok x = true)
                     (q ++ ["tea.xyz"; "var"; "www"])).
    { apply Forall_app. split; [done|]. repeat constructor. }
    rewrite path_comps_render by done. fold q.
    unfold JS.slice. cbn [app length drop].
    by rewrite drop_app_length.
  - cbn [www]. by apply (constructed_join prefix ["tea.xyz/var/www"]).
Qed.

Lemma prefix_www_witness :
  exists P,
    PrefixClass.constructor (mkPath "/opt/") = Ok P
    /\ www P = mkPath "/opt/tea.xyz/var/www".
Proof.
  destruct (prefix_www (mkPath "/opt/") 0 (constructed_new "/opt/" _ eq_refl))
    as (P & HP & _ & Hw & _).
  exists P. split; [exact HP|]. rewrite Hw. reflexivity.
Defined.

(** * The errors and the extensions of Array *)

(** ** TeaError.code *)

Lemma code_inv id c :
  TeaError.code id = inr c ->
  In (id, c)
    [ ("not-found: tea -X: arg0", "spilt-tea-003");
      ("not-found: exe/md: default target", "spilt-tea-004");
      ("not-found: exe/md: region", "spilt-tea-005");
      ("not-found: pkg.version", "spilt-tea-006");
      ("not-found: pantry: package.yml", "spilt-tea-007");
      ("not-found: dev-env", "spilt-tea-008");
      ("not-found: pantry", "spilt-tea-009");
      ("not-found: arg", "spilt-tea-010");
      ("parser: pantry: package.yml", "spilt-tea-011");
      ("#helpwanted", "spilt-tea-012");
      ("http", "spilt-tea-013");
      ("confused: interpreter", "spilt-tea-14") ].
Proof.
  unfold TeaError.code.
  repeat match goal with
         | |- context [String.eqb id ?s] =>
             destruct (String.eqb_spec id s) as [->|?];
             [intros [= <-]; simpl; tauto|]
         end.
  discriminate.
Qed.

(** X17.  [TeaError.code] returns for every string of the type [ID] and
    throws [unhandled id] for every other string; the codes tell the
    ids apart; each is [spilt-tea-] and a number, of three digits but
    for [confused: interpreter], whose code [spilt-tea-14] has two. *)
Theorem code_spec :
  Forall (fun id => exists c, TeaError.code id = inr c) TeaError.IDs
  /\ (forall id, id ∉ TeaError.IDs ->
      TeaError.code id = inl (TeaError.UnhandledId id))
  /\ (forall a b c,
        TeaError.code a = inr c -> TeaError.code b = inr c -> a = b)
  /\ (forall id c,
        TeaError.code id = inr c ->
        String.prefix "spilt-tea-" c = true
        /\ (String.length c = 13 <-> id <> "confused: interpreter")
        /\ (id = "confused: interpreter" -> c = "spilt-tea-14")).
Proof.
  split; [|split; [|split]].
  - unfold TeaError.IDs. repeat constructor; eexists; reflexivity.
  - intros id Hid.
    destruct (TeaError.code id) as [[id']|c] eqn:E.
    + revert E. unfold TeaError.code.
      repeat match goal with
             | |- context [String.eqb id ?s] =>
                 destruct (String.eqb_spec id s) as [->|?]; [discriminate|]
             end.
      done.
    + exfalso. apply Hid. apply code_inv in E. unfold TeaError.IDs.
      simpl in E.
      repeat (destruct E as [E|E];
              [injection E as <- <-; repeat first [apply list_elem_of_here
                                                  |apply list_elem_of_further]|]).
      done.
  - intros a b c Ha%code_inv Hb%code_inv. simpl in Ha, Hb.
    repeat (destruct Ha as [Ha|Ha]; [injection Ha as <- <-|]); [..|done];
      repeat (destruct Hb as [Hb|Hb]; [by injection Hb as <-|]); done.
  - intros id c H%code_inv. simpl in H.
    repeat (destruct H as [H|H];
            [injection H as <- <-;
             (split; [reflexivity|split; [split; [discriminate|reflexivity]|discriminate]])|]).
    destruct H as [H|[]]. injection H as <- <-.
    split; [reflexivity|]. split; [|reflexivity]. split; [discriminate|done].
Qed.

(** ** Array.prototype.uniq *)

Section Uniq.

Variable T : Type.
Variable toString : T -> option string.
Variable truthy : T -> bool.

Lemma uniq_loop_elem (set : gset string) (l r : list T) (x : T) :
  ArrayExt.uniq_loop T toString truthy set l = inr r ->
  x ∈ r ->
  x ∈ l /\ truthy x = true /\ exists s, toString x = Some s /\ s ∉ set.
Proof.
  revert set r. induction l as [|y l IH]; intros set r;
    cbn [ArrayExt.uniq_loop].
  - intros [= <-]. by intros ?%elem_of_nil.
  - destruct (toString y) as [s|] eqn:Hs; [|done].
    destruct (bool_decide_reflect (s ∈ set)) as [Hin|Hin].
    + intros Hr (? & ? & ?)%(IH _ _ Hr). repeat split; try done. by right.
    + destruct (ArrayExt.uniq_loop T toString truthy ({[s]} ∪ set) l)
        as [e|rv] eqn:E; [done|].
      assert (Hrv : x ∈ rv ->
                    x ∈ y :: l /\ truthy x = true
                    /\ exists s', toString x = Some s' /\ s' ∉ set).
      { intros (? & ? & s' & ? & [_ Hn]%not_elem_of_union)%(IH _ _ E).
        repeat split; try done; [by right|eauto]. }
      destruct (truthy y) eqn:Hy; intros [= <-]; [|done].
      intros [->|Hx]%elem_of_cons; [|by apply Hrv].
      repeat split; try done; [by left|eauto].
Qed.

Lemma uniq_loop_NoDup (set : gset string) (l r : list T) :
  ArrayExt.uniq_loop T toString truthy set l = inr r ->
  NoDup (map toString r).
Proof.
  revert set r. induction l as [|y l IH]; intros set r;
    cbn [ArrayExt.uniq_loop].
  - intros [= <-]. constructor.
  - destruct (toString y) as [s|] eqn:Hs; [|done].
    destruct (bool_decide (s ∈ set)); [apply IH|].
    destruct (ArrayExt.uniq_loop T toString truthy ({[s]} ∪ set) l)
      as [e|rv] eqn:E; [done|].
    destruct (truthy y); intros [= <-]; [|by eapply IH].
    cbn [map]. constructor; [|by eapply IH].
    intros (x & Hx & Hin)%list_elem_of_fmap.
    destruct (uniq_loop_elem _ _ _ _ E Hin) as (_ & _ & s' & Hs' & Hn).
    apply Hn. assert (s' = s) as -> by congruence.
    apply elem_of_union_l. by apply elem_of_singleton.
Qed.

Lemma uniq_loop_sublist (set : gset string) (l r : list T) :
  ArrayExt.uniq_loop T toString truthy set l = inr r -> sublist r l.
Proof.
  revert set r. induction l as [|y l IH]; intros set r;
    cbn [ArrayExt.uniq_loop].
  - intros [= <-]. constructor.
  - destruct (toString y) as [s|]; [|done].
    destruct (bool_decide (s ∈ set)).
    + intros Hr. constructor. by eapply IH.
    + destruct (ArrayExt.uniq_loop T toString truthy ({[s]} ∪ set) l)
        as [e|rv] eqn:E; [done|].
      destruct (truthy y); intros [= <-]; constructor; by eapply IH.
Qed.

(** The loop returns when every [toString()] does, and throws at the
    first that throws. *)
Lemma uniq_loop_returns (set : gset string) (l : list T) :
  Forall (fun x => is_Some (toString x)) l ->
  exists r, ArrayExt.uniq_loop T toString truthy set l = inr r.
Proof.
  revert set. induction l as [|y l IH]; intros set Hl;
    cbn [ArrayExt.uniq_loop]; [eauto|].
  apply Forall_cons in Hl as [[s ->] Hl].
  destruct (bool_decide (s ∈ set)); [by apply IH|].
  destruct (IH ({[s]} ∪ set) Hl) as [rv ->]. eauto.
Qed.

Lemma uniq_loop_throws (set : gset string) (pre post : list T) (x : T) :
  Forall (fun y => is_Some (toString y)) pre -> toString x = None ->
  ArrayExt.uniq_loop T toString truthy set (pre ++ x :: post)
  = inl (ArrayExt.ToStringThrew T x).
Proof.
  intros Hpre Hx. revert set.
  induction Hpre as [|y pre [s Hy] _ IH]; intros set;
    cbn [app ArrayExt.uniq_loop].
  - by rewrite Hx.
  - rewrite Hy. destruct (bool_decide (s ∈ set)); [apply IH|].
    by rewrite IH.
Qed.

(** On a list of truthy elements with distinct strings, none of them in
    the set, nothing is dropped. *)
Lemma uniq_loop_fixed (set : gset string) (l : list T) :
  NoDup (map toString l) ->
  Forall (fun x => truthy x = true) l ->
  Forall (fun x => exists s, toString x = Some s /\ s ∉ set) l ->
  ArrayExt.uniq_loop T toString truthy set l = inr l.
Proof.
  revert set. induction l as [|y l IH]; intros set Hnd Ht Hs; [done|].
  cbn [ArrayExt.uniq_loop]. cbn [map] in Hnd.
  apply NoDup_cons in Hnd as [Hy Hnd].
  apply Forall_cons in Ht as [Hty Ht].
  apply Forall_cons in Hs as [(s & Hsy & Hns) Hs].
  rewrite Hsy, bool_decide_false by done. rewrite IH; [by rewrite Hty|done..|].
  apply Forall_forall. intros x Hx.
  rewrite Forall_forall in Hs. destruct (Hs x Hx) as (s' & Hs' & Hn').
  exists s'. split; [done|].
  assert (s' <> s).
  { intros ->. apply Hy. rewrite Hsy, <- Hs'. by apply list_elem_of_fmap_2. }
  apply not_elem_of_union. split; [|done]. by apply not_elem_of_singleton.
Qed.

(** The first element with a string is kept when it is truthy. *)
Lemma uniq_loop_first (set : gset string) (pre post r : list T) (x : T) s :
  ArrayExt.uniq_loop T toString truthy set (pre ++ x :: post) = inr r ->
  truthy x = true -> toString x = Some s -> s ∉ set ->
  Some s ∉ map toString pre ->
  x ∈ r.
Proof.
  revert set r. induction pre as [|y pre IH]; intros set r;
    cbn [app ArrayExt.uniq_loop].
  - intros Hr Hx Hs Hn _. rewrite Hs, bool_decide_false, Hx in Hr by done.
    destruct (ArrayExt.uniq_loop _ _ _ _ post); [done|].
    injection Hr as <-. by left.
  - intros Hr Hx Hs Hn Hp. cbn [map] in Hp.
    apply not_elem_of_cons in Hp as [Hne Hp].
    destruct (toString y) as [sy|] eqn:Hy; [|done].
    destruct (bool_decide (sy ∈ set)); [by eapply IH|].
    assert (Hn' : s ∉ ({[sy]} ∪ set : gset string)).
    { apply not_elem_of_union. split; [|done].
      apply not_elem_of_singleton. congruence. }
    destruct (ArrayExt.uniq_loop T toString truthy ({[sy]} ∪ set)
                (pre ++ x :: post)) as [e|rv] eqn:E; [done|].
    pose proof (IH _ _ E Hx Hs Hn' Hp) as Hin.
    destruct (truthy y); injection Hr as <-; [by right|done].
Qed.

(** X18.  [uniq] calls [toString()] on every element, in order, until
    one throws: then [uniq] throws the same, as it does on an array
    that holds [null] or [undefined].  When none throws, [uniq] returns
    the truthy elements that are the first of the array with their
    string, in their order: the result is a sublist of the array, its
    elements are truthy and no two have the same string; an element
    that is truthy and the first with its string is in the result; and
    [uniq] of the result is the result. *)
Theorem uniq_spec (l : list T) :
  (Forall (fun x => is_Some (toString x)) l ->
   exists r,
     ArrayExt.uniq T toString truthy l = inr r
     /\ sublist r l
     /\ Forall (fun x => truthy x = true) r
     /\ NoDup (map toString r)
     /\ (forall pre x post,
           l = pre ++ x :: post -> truthy x = true ->
           toString x ∉ map toString pre -> x ∈ r)
     /\ ArrayExt.uniq T toString truthy r = inr r)
  /\ (forall pre x post,
        l = pre ++ x :: post ->
        Forall (fun y => is_Some (toString y)) pre -> toString x = None ->
        ArrayExt.uniq T toString truthy l
        = inl (ArrayExt.ToStringThrew T x))
  /\ (forall r, ArrayExt.uniq T toString truthy l = inr r ->
      Forall (fun x => is_Some (toString x)) l).
Proof.
  unfold ArrayExt.uniq. split; [|split].
  - intros Hl. destruct (uniq_loop_returns ∅ l Hl) as [r Hr].
    exists r. split; [done|].
    assert (Ht : Forall (fun x => truthy x = true) r).
    { apply Forall_forall. intros x Hx.
      by destruct (uniq_loop_elem _ _ _ _ Hr Hx) as (_ & ? & _). }
    split; [by eapply uniq_loop_sublist|]. split; [exact Ht|].
    split; [by eapply uniq_loop_NoDup|]. split.
    + intros pre x post -> Hx Hp.
      apply Forall_app in Hl as [_ [[s Hs] _]%Forall_cons].
      eapply uniq_loop_first; [exact Hr|done|exact Hs|apply not_elem_of_empty|].
      by rewrite <- Hs.
    + apply uniq_loop_fixed; [by eapply uniq_loop_NoDup|exact Ht|].
      apply Forall_forall. intros x Hx.
      destruct (uniq_loop_elem _ _ _ _ Hr Hx) as (_ & _ & s & Hs & Hn).
      eauto.
  - intros pre x post -> Hpre Hx. by apply uniq_loop_throws.
  - intros r Hr. apply Forall_forall. intros x Hx.
    destruct (toString x) as [s|] eqn:Hs; [eauto|]. exfalso.
    apply list_elem_of_split in Hx as (l1 & l2 & ->).
    revert r Hr. generalize (∅ : gset string).
    induction l1 as [|y l1 IH]; intros set r; cbn [app ArrayExt.uniq_loop].
    + by rewrite Hs.
    + destruct (toString y) as [sy|]; [|done].
      destruct (bool_decide (sy ∈ set)); [apply IH|].
      destruct (ArrayExt.uniq_loop T toString truthy ({[sy]} ∪ set)
                  (l1 ++ x :: l2)) as [e|rv] eqn:E; [done|].
      intros _. by apply (IH _ _ E).
Qed.

End Uniq.

Lemma uniq_spec_witness :
  ArrayExt.uniq string (fun s => Some s) JS.truthy ["a"; ""; "a"; "b"; "b"]
  = inr ["a"; "b"]
  /\ ArrayExt.uniq (option string) (fun x => x)
       (fun x => match x with Some s => JS.truthy s | None => false end)
       [Some "a"; None; Some "b"]
     = inl (ArrayExt.ToStringThrew (option string) None).
Proof.
  split.
  - destruct (proj1 (uniq_spec string (fun s => Some s) JS.truthy
                       ["a"; ""; "a"; "b"; "b"]))
      as (r & Hr & _).
    + repeat constructor; eauto.
    + rewrite Hr. vm_compute in Hr. by injection Hr as <-.
  - apply (proj1 (proj2 (uniq_spec (option string) (fun x => x)
             (fun x => match x with Some s => JS.truthy s | None => false end)
             [Some "a"; None; Some "b"])) [Some "a"] None [Some "b"]).
    + reflexivity.
    + repeat constructor. eauto.
    + reflexivity.
Defined.

(** * Moving a file *)

(** ** Resolution in a state that differs at places with nothing or a file *)

(** The two maps agree but at locations where each of them has nothing
    or a file.  Such a location ends a resolution, so that one that
    returns in the first map returns in the second, at the same
    location. *)
Lemma walk_comps_leaf_change (m m' : gmap (list string) node) fl fl' b todo :
  (forall k,
     m' !! k = m !! k
     \/ (m !! k = None \/ exists x, m !! k = Some (File x))
        /\ (m' !! k = None \/ exists x, m' !! k = Some (File x))) ->
  (forall dir t rest q o,
     fl dir t rest = Ok (q, o) -> fl' dir t rest = Ok (q, node_at m' q)) ->
  forall cur q o,
    walk_comps m fl b cur todo = Ok (q, o) ->
    walk_comps m' fl' b cur todo = Ok (q, node_at m' q).
Proof.
  intros Hm Hfl.
  assert (Hat : forall cur c, node_at m' (cur ++ [c]) = m' !! (cur ++ [c])).
  { intros cur c. by destruct cur. }
  induction todo as [|c rest IH]; intros cur q o; simpl.
  - by intros [= <- <-].
  - destruct (String.eqb c "."); [apply IH|].
    destruct (String.eqb c ".."); [apply IH|].
    destruct (Hm (cur ++ [c])) as [Hsame|[Hold Hnew]].
    + rewrite Hsame. destruct (m !! (cur ++ [c])) as [[x| |t]|] eqn:E.
      * destruct (is_nil rest); [|done]. intros [= <- <-].
        by rewrite Hat, Hsame.
      * apply IH.
      * destruct (is_nil rest && negb b); [|apply Hfl]. intros [= <- <-].
        by rewrite Hat, Hsame.
      * destruct (is_nil rest); [|done]. intros [= <- <-].
        by rewrite Hat, Hsame.
    + intros Hw.
      assert (rest = [] /\ q = cur ++ [c]) as [-> ->].
      { destruct Hold as [Hold|[x Hold]]; rewrite Hold in Hw;
          (destruct rest; [|done]); by injection Hw as <- <-. }
      rewrite Hat. destruct Hnew as [->|[x ->]]; done.
Qed.

Lemma namei_from_leaf_change (m m' : gmap (list string) node) hops b :
  (forall k,
     m' !! k = m !! k
     \/ (m !! k = None \/ exists x, m !! k = Some (File x))
        /\ (m' !! k = None \/ exists x, m' !! k = Some (File x))) ->
  forall cur todo q o,
    namei_from hops m b cur todo = Ok (q, o) ->
    namei_from hops m' b cur todo = Ok (q, node_at m' q).
Proof.
  intros Hm. induction hops as [|hops IH]; intros cur todo q o; simpl;
    apply walk_comps_leaf_change; try done.
  intros dir t rest q' o'. apply IH.
Qed.

Lemma namei_leaf_change (w : fs) (m' : gmap (list string) node) b path q o :
  (forall k,
     m' !! k = files w !! k
     \/ (files w !! k = None \/ exists x, files w !! k = Some (File x))
        /\ (m' !! k = None \/ exists x, m' !! k = Some (File x))) ->
  namei w b path = Ok (q, o) ->
  namei (set_files w m') b path = Ok (q, node_at m' q).
Proof.
  intros Hm (Hne & H & Hd)%namei_inv.
  apply namei_intro; [done|by eapply namei_from_leaf_change|].
  intros ->%Hd. apply namei_from_node_at in H. destruct q as [|c q]; [done|].
  cbn [node_at] in H |- *. destruct (Hm (c :: q)) as [->|[Hold _]]; [done|].
  destruct Hold as [Hold|[x Hold]]; congruence.
Qed.

(** Where nothing is recorded below [a], only its entry is moved. *)
Lemma moved_tree_leaf (a b : list string) (m : gmap (list string) node) k :
  (forall k', a `prefix_of` k' -> is_Some (m !! k') -> k' = a) ->
  k <> b -> moved_tree a b m !! k = None.
Proof.
  intros Hleaf Hk. unfold moved_tree. apply not_elem_of_list_to_map_1.
  intros [[k' v] [-> [[k0 v0] [Hin Hf]]%list_elem_of_omap]]%list_elem_of_fmap.
  simpl in Hf. case_bool_decide as Hp; [|done]. injection Hf as <- _.
  apply elem_of_map_to_list in Hin.
  assert (k0 = a) as -> by (apply Hleaf; [done|by eexists]).
  apply Hk. simpl. by rewrite drop_all, app_nil_r.
Qed.

(** X19.  [Path.mv] moves a file to a free place.  Where the receiver
    names a file, its last link not followed, and the destination (the
    path [to], or [into] joined with the base name of the receiver)
    names nothing in a directory that exists, [mv] returns the
    destination, with or without [force]; reading the destination then
    gives the content the file had, and the receiver no longer exists.
    Neither string ends with a separator then: behind one the
    resolution finds a directory or fails, and the platform refuses to
    rename a file so. *)
Theorem mv_moves_file this opts dest force (w : fs) a b x :
  (opts = To dest
   \/ exists into,
        opts = Into into /\ Path.join into [Path.basename this] = Ok dest) ->
  namei w false (pstring this) = Ok (a, Some (File x)) ->
  namei w false (pstring dest) = Ok (b, None) ->
  (forall k, a `prefix_of` k -> is_Some (files w !! k) -> k = a) ->
  ~ a `prefix_of` b ->
  JS.ends_with_sep (pstring this) = false
  /\ JS.ends_with_sep (pstring dest) = false
  /\ exists w',
       Path.mv this opts force w = (Ok dest, w')
       /\ Path.read dest w' = Ok x
       /\ Path.isFile dest w' = Some dest
       /\ Path.exists_ this w' = None.
Proof.
  intros Hopts Ha Hb Hleaf Hab.
  pose proof (namei_node_at _ _ _ _ _ Ha) as Hma.
  pose proof (namei_node_at _ _ _ _ _ Hb) as Hmb.
  assert (Ha' : a <> []) by (by intros ->).
  assert (Hb' : b <> []) by (by intros ->).
  rewrite node_at_nonroot in Hma, Hmb by done.
  assert (Hne : a <> b) by congruence.
  set (m' := moved_tree a b (files w) ∪ remove_tree a (delete b (files w))).
  assert (Hlb : m' !! b = Some (File x)).
  { apply lookup_union_Some_l. by apply moved_tree_lookup_root. }
  assert (Hla : m' !! a = None).
  { apply lookup_union_None_2; [by apply moved_tree_leaf|].
    rewrite remove_tree_lookup. by rewrite decide_True. }
  assert (Hm : forall k,
             m' !! k = files w !! k
             \/ (files w !! k = None \/ exists x, files w !! k = Some (File x))
                /\ (m' !! k = None \/ exists x, m' !! k = Some (File x))).
  { intros k. destruct (decide (k = a)) as [->|Hka]; [right; eauto|].
    destruct (decide (k = b)) as [->|Hkb]; [right; eauto|]. left.
    unfold m'. rewrite lookup_union_r by (by apply moved_tree_leaf).
    rewrite remove_tree_lookup. destruct (decide (a `prefix_of` k)) as [Hp|Hp].
    - destruct (files w !! k) as [n|] eqn:E; [|done].
      by destruct Hka; apply Hleaf.
    - by rewrite lookup_delete_ne. }
  assert (Hex : Path.exists_ dest w = None).
  { unfold Path.exists_, statSync.
    by rewrite (namei_nofollow_follow _ _ _ _ Hb). }
  pose proof (namei_no_dir_no_trailing _ _ _ _ _ Ha ltac:(done)) as Hta.
  pose proof (namei_no_dir_no_trailing _ _ _ _ _ Hb ltac:(done)) as Htb.
  assert (Hrn : renameSync w (pstring this) (pstring dest)
                = Ok (set_files w m')).
  { unfold renameSync. rewrite <- !namei_no_trailing by done.
    rewrite Ha. cbn [bind snd fst]. rewrite Hb.
    cbn [bind snd fst]. rewrite Hta, Htb. cbn [orb andb].
    destruct a as [|a0 a]; [done|].
    destruct b as [|b0 b]; [done|]. cbn [is_nil orb].
    by rewrite !bool_decide_eq_false_2 by done. }
  split; [done|]. split; [done|].
  exists (set_files w m'). split; [|split; [|split]].
  - destruct Hopts as [->|(into & -> & Hj)]; unfold Path.mv.
    + rewrite Hex, bool_decide_eq_false_2 by apply is_Some_None.
      cbn [andb]. by rewrite Hrn.
    + rewrite Hj, Hex, bool_decide_eq_false_2 by apply is_Some_None.
      cbn [andb]. by rewrite Hrn.
  - unfold Path.read, readFile.
    rewrite (namei_leaf_change w m' true _ b None Hm)
      by (by apply namei_nofollow_follow).
    by rewrite node_at_nonroot, Hlb.
  - unfold Path.isFile, statSync.
    rewrite (namei_leaf_change w m' true _ b None Hm)
      by (by apply namei_nofollow_follow).
    by rewrite node_at_nonroot, Hlb.
  - unfold Path.exists_, statSync.
    rewrite (namei_leaf_change w m' true _ a (Some (File x)) Hm)
      by (by apply namei_nofollow_follow).
    by rewrite node_at_nonroot, Hla.
Qed.

Lemma mv_moves_file_witness :
  (exists w',
     Path.mv (mkPath "/tmp/d/f") (Into (mkPath "/tmp/e")) None sample_fs
     = (Ok (mkPath "/tmp/e/f"), w')
     /\ Path.read (mkPath "/tmp/e/f") w' = Ok "z"
     /\ Path.isFile (mkPath "/tmp/e/f") w' = Some (mkPath "/tmp/e/f")
     /\ Path.exists_ (mkPath "/tmp/d/f") w' = None)
  /\ Path.mv (mkPath "/tmp/d/f") (To (mkPath "/tmp/e/g/")) None sample_fs
     = (Throw (SystemError ENOTDIR), sample_fs).
Proof.
  split; [|vm_compute; reflexivity].
  apply (mv_moves_file (mkPath "/tmp/d/f") (Into (mkPath "/tmp/e"))
           (mkPath "/tmp/e/f") None sample_fs ["tmp"; "d"; "f"]
           ["tmp"; "e"; "f"] "z").
  - right. exists (mkPath "/tmp/e"). split; reflexivity.
  - vm_compute. reflexivity.
  - vm_compute. reflexivity.
  - assert (H : map_Forall
                  (fun k (_ : node) =>
                     ["tmp"; "d"; "f"] `prefix_of` k -> k = ["tmp"; "d"; "f"])
                  (files sample_fs)).
    { apply map_Forall_to_list.
      set (l := map_to_list (files sample_fs)). vm_compute in l. subst l.
      repeat constructor; intros [r Hr]; try discriminate Hr; reflexivity. }
    intros k Hp [n Hn]. by apply (H k n).
  - intros [r Hr]. discriminate Hr.
Defined.

(** * Path.mkdir with ['p'] *)

Lemma namei_from_unfold (hops : nat) (m : gmap (list string) node) b cur todo :
  namei_from hops m b cur todo
  = walk_comps m
      (fun dir t rest =>
         match hops with
         | O => Throw (SystemError ELOOP)
         | S hops' =>
             namei_from hops' m b (if JS.starts_with_sep t then [] else dir)
               (resolve_comps t ++ rest)
         end)
      b cur todo.
Proof. by destruct hops. Qed.

Lemma mkdirp_throw (hops : nat) (e : exn) (todo : list string) : mkdirp hops (Throw e) todo = Throw e.
Proof. induction todo as [|c rest IH]; [done|]. simpl. apply IH. Qed.

(** A step of [mkdir -p] adds a directory or nothing. *)
Lemma mkdirp_step_mono (hops : nat) (last : bool)
    (m : gmap (list string) node) (cur : list string) (c : string)
    (m1 : gmap (list string) node) (cur1 : list string) :
  mkdirp_step hops last (Ok (m, cur)) c = Ok (m1, cur1) ->
  m ⊆ m1 /\ forall k n, m1 !! k = Some n -> m !! k = None -> n = Dir.
Proof.
  unfold mkdirp_step. cbn [bind fst snd].
  destruct (namei_from hops m false cur [c]) as [[q o]|e] eqn:E; [|done].
  cbn [bind fst snd].
  assert (Hsame : m ⊆ m /\ forall k n, m !! k = Some n -> m !! k = None -> n = Dir).
  { split; [done|]. congruence. }
  destruct o as [[x| |t]|].
  - done.
  - by intros [= <- <-].
  - destruct (namei_from hops m true cur [c]) as [[q' [[x'| |t']|]]|e']; try done.
    by intros [= <- <-].
  - intros [= <- <-]. apply namei_from_node_at in E.
    destruct q as [|q0 q]; [done|]. simpl in E. split.
    + by apply insert_subseteq.
    + intros k n Hk Hn. destruct (decide (k = q0 :: q)) as [->|Hne].
      * rewrite lookup_insert_eq in Hk. congruence.
      * rewrite lookup_insert_ne in Hk by done. congruence.
Qed.

Lemma mkdirp_mono (hops : nat) (todo : list string) :
  forall (m : gmap (list string) node) cur m' q,
    mkdirp hops (Ok (m, cur)) todo = Ok (m', q) ->
    m ⊆ m' /\ forall k n, m' !! k = Some n -> m !! k = None -> n = Dir.
Proof.
  induction todo as [|c rest IH]; intros m cur m' q; cbn [mkdirp].
  - intros [= <- <-]. split; [done|]. congruence.
  - destruct (mkdirp_step hops (is_nil rest) (Ok (m, cur)) c)
      as [[m1 cur1]|e] eqn:E; [|by rewrite mkdirp_throw].
    apply mkdirp_step_mono in E as [Hsub1 Hadd1].
    intros [Hsub Hadd]%IH. split; [by etrans|].
    intros k n Hk Hn. destruct (m1 !! k) as [n1|] eqn:E1.
    + pose proof (lookup_weaken _ _ _ _ E1 Hsub) as Hk'.
      rewrite Hk in Hk'. injection Hk' as ->. by eapply Hadd1.
    + by eapply Hadd.
Qed.

(** In a file system without links, a step enters the directory named
    [c], and the resolution of the whole path in a later state passes
    there. *)
Lemma mkdirp_step_nosym (hops : nat) (last : bool)
    (m : gmap (list string) node) (cur : list string) (c : string)
    (m1 : gmap (list string) node) (cur1 : list string) :
  (forall k t, m !! k <> Some (Symlink t)) ->
  node_at m cur = Some Dir ->
  mkdirp_step hops last (Ok (m, cur)) c = Ok (m1, cur1) ->
  (forall k t, m1 !! k <> Some (Symlink t))
  /\ node_at m1 cur1 = Some Dir
  /\ forall (m' : gmap (list string) node) fl b rest,
       m1 ⊆ m' ->
       walk_comps m' fl b cur (c :: rest) = walk_comps m' fl b cur1 rest.
Proof.
  intros Hns Hcur. unfold mkdirp_step. cbn [bind fst snd].
  rewrite namei_from_unfold. cbn [walk_comps].
  destruct (String.eqb c ".").
  { rewrite Hcur. cbn [bind fst snd]. by intros [= <- <-]. }
  destruct (String.eqb c "..").
  { destruct (node_at m (removelast cur)) as [[x| |t]|] eqn:E;
      cbn [bind fst snd]; try done.
    - by intros [= <- <-].
    - destruct (removelast cur) as [|r0 r]; [done|]. by destruct (Hns _ _ E).
    - intros [= <- <-]. destruct (removelast cur) as [|r0 r] eqn:Er; [done|].
      repeat split; try done.
      + intros k t. destruct (decide (k = r0 :: r)) as [->|Hne].
        * by rewrite lookup_insert_eq.
        * rewrite lookup_insert_ne by done. apply Hns.
      + simpl. by rewrite lookup_insert_eq. }
  destruct (m !! (cur ++ [c])) as [[x| |t]|] eqn:E; cbn [is_nil bind fst snd].
  - done.
  - assert (Hat : node_at m (cur ++ [c]) = Some Dir) by (by destruct cur).
    rewrite Hat. intros [= <- <-]. repeat split; try done.
    intros m' fl b rest Hsub. by rewrite (lookup_weaken _ _ _ _ E Hsub).
  - by destruct (Hns _ _ E).
  - intros [= <- <-]. repeat split.
    + intros k t. destruct (decide (k = cur ++ [c])) as [->|Hne].
      * by rewrite lookup_insert_eq.
      * rewrite lookup_insert_ne by done. apply Hns.
    + destruct cur; simpl; by rewrite lookup_insert_eq.
    + intros m' fl b rest Hsub.
      assert (m' !! (cur ++ [c]) = Some Dir) as ->; [|done].
      eapply lookup_weaken; [|exact Hsub]. by rewrite lookup_insert_eq.
Qed.

Lemma mkdirp_nosym (hops : nat) (todo : list string) :
  forall (m : gmap (list string) node) cur m' q,
    (forall k t, m !! k <> Some (Symlink t)) ->
    node_at m cur = Some Dir ->
    mkdirp hops (Ok (m, cur)) todo = Ok (m', q) ->
    forall fl b, walk_comps m' fl b cur todo = Ok (q, Some Dir).
Proof.
  induction todo as [|c rest IH]; intros m cur m' q Hns Hcur; cbn [mkdirp].
  - intros [= <- <-] fl b. simpl. by rewrite Hcur.
  - destruct (mkdirp_step hops (is_nil rest) (Ok (m, cur)) c)
      as [[m1 cur1]|e] eqn:E; [|by rewrite mkdirp_throw].
    apply mkdirp_step_nosym in E as (Hns1 & Hcur1 & Hwalk); [|done..].
    intros Hrest fl b. rewrite Hwalk by (by eapply mkdirp_mono).
    by eapply IH.
Qed.

(** X20.  [Path.mkdir] never removes or changes an entry: whether it
    returns or throws, with or without ['p'], the entries of the file
    system are still there and what was added is directories.  With
    ['p'], on an absolute path in a file system without symbolic links,
    the path is a directory once [mkdir] has returned. *)
Theorem mkdir_p_spec this w :
  (forall p res w',
     Path.mkdir this p w = (res, w') ->
     files w ⊆ files w'
     /\ forall k n, files w' !! k = Some n -> files w !! k = None -> n = Dir)
  /\ (JS.starts_with_sep (pstring this) = true ->
      (forall k t, files w !! k <> Some (Symlink t)) ->
      forall r w',
        Path.mkdir this true w = (Ok r, w') ->
        r = this /\ Path.isDirectory this w' = Some this).
Proof.
  assert (Hsame : files w ⊆ files w
                  /\ forall k n, files w !! k = Some n -> files w !! k = None ->
                                 n = Dir).
  { split; [done|]. congruence. }
  split.
  - intros p res w'. unfold Path.mkdir.
    destruct (Path.isDirectory this w); [by intros [= <- <-]|].
    destruct (mkdirSync w (pstring this) p) as [w1|e] eqn:E;
      [|by intros [= <- <-]].
    intros [= <- <-]. unfold mkdirSync in E.
    destruct (String.eqb (pstring this) ""); [done|]. destruct p.
    + destruct (mkdirp _ _ _) as [[m' q]|e] eqn:Em; [|done].
      cbn [bind fst] in E. injection E as <-. cbn [files set_files].
      by eapply mkdirp_mono.
    + destruct (namei_names w false (pstring this)) as [[q [n|]]|e] eqn:En;
        [done| |done].
      cbn [bind fst snd] in E. injection E as <-. cbn [files set_files].
      destruct (namei_names_free_or_file _ _ _ _ _ En (or_introl eq_refl))
        as [Hq _].
      apply namei_names_node_at in En. rewrite node_at_nonroot in En by done.
      symmetry in En.
      split; [by apply insert_subseteq|].
      intros k n Hk Hn. destruct (decide (k = q)) as [->|Hne].
      * rewrite lookup_insert_eq in Hk. congruence.
      * rewrite lookup_insert_ne in Hk by done. congruence.
  - intros Habs Hns r w'. unfold Path.mkdir.
    destruct (Path.isDirectory this w) as [d|] eqn:Hd.
    + intros [= <- <-]. split; [done|]. rewrite Hd. f_equal.
      unfold Path.isDirectory in Hd.
      destruct (statSync w (pstring this)) as [st|]; [|done].
      destruct (stats_isDirectory st); congruence.
    + destruct (mkdirSync w (pstring this) true) as [w1|e] eqn:E; [|done].
      intros [= <- <-]. split; [done|]. unfold mkdirSync in E.
      destruct (String.eqb (pstring this) "") eqn:Hne; [done|].
      rewrite Habs in E.
      destruct (mkdirp _ _ _) as [[m' q]|e] eqn:Em; [|done].
      cbn [bind fst] in E. injection E as <-.
      pose proof (mkdirp_nosym _ _ (files w) [] m' q Hns eq_refl Em) as Hw.
      assert (Hn : namei_names (set_files w m') false (pstring this)
                   = Ok (q, Some Dir)).
      { unfold namei_names. rewrite Hne, Habs. cbn [files set_files].
        rewrite namei_from_unfold. apply Hw. }
      unfold Path.isDirectory, statSync.
      by rewrite (namei_names_dir _ _ _ true Hn).
Qed.

Lemma mkdir_p_spec_witness :
  Path.isDirectory (mkPath "/tmp/x/y")
    (Path.mkdir (mkPath "/tmp/x/y") true
       (mkFs {[ ["tmp"] := Dir; ["a"] := File "x" ]} [])).2
  = Some (mkPath "/tmp/x/y").
Proof.
  apply (proj2 (mkdir_p_spec (mkPath "/tmp/x/y")
                  (mkFs {[ ["tmp"] := Dir; ["a"] := File "x" ]} []))
           eq_refl)
    with (r := mkPath "/tmp/x/y").
  - assert (H : map_Forall (fun (_ : list string) n => forall t, n <> Symlink t)
                  ({[ ["tmp"] := Dir; ["a"] := File "x" ]}
                   : gmap (list string) node)).
    { apply map_Forall_to_list.
      set (l := map_to_list _). vm_compute in l. subst l.
      repeat constructor; intros t; discriminate. }
    intros k t Hk. by apply (H k _ Hk t).
  - vm_compute. reflexivity.
Defined.
